(** * UniSphere: the client-side entity store, its persistence and its views

    A shallow embedding of the state logic of the [App] component
    (courses, notes and materials held in React state and mirrored to
    [localStorage]) together with the properties its design document
    states about it.

    Conventions of the embedding.
    - A JavaScript string is a [string]; its characters are the code
      units [0 .. 255] (Latin-1 text).  The course search is given a
      second time on all sequences of UTF-16 code units, in [Utf16].
    - A JavaScript [number] that holds a timestamp or an array index is an
      integer, a [Z].
    - An array is a [list]; a slot of an array that may hold [undefined]
      is an [option].
    - [Date.now()], [crypto.randomUUID()] and the answer of
      [window.confirm] are inputs of the handler that consults them. *)

From Stdlib Require Import ZArith String Ascii List Lia.
From Stdlib Require Import DecimalString DecimalN.
From stdpp Require Import base decidable option list strings gmap.

Local Open Scope string_scope.
Local Open Scope list_scope.

Set Warnings "-register-all".

(** ** Data model ([types.ts]) *)

Module Course.
Record t := mk {
  id : string;
  name : string;
  description : string;
  color : string;
  createdAt : Z
}.
End Course.

Module Note.
Record t := mk {
  id : string;
  courseId : string;
  title : string;
  content : string;
  updatedAt : Z
}.

(** [{ ...n, title, content, updatedAt }] *)
Definition with_body (n : t) (title' content' : string) (now : Z) : t :=
  {| id := id n; courseId := courseId n;
     title := title'; content := content'; updatedAt := now |}.
End Note.

Inductive MaterialType := Link | File | Reference.

Module Material.
Record t := mk {
  id : string;
  courseId : string;
  noteId : option string;
  name : string;
  type : MaterialType;
  url : string;
  addedAt : Z
}.
End Material.

Global Instance Course_eq_dec : EqDecision Course.t.
Proof. solve_decision. Defined.
Global Instance Note_eq_dec : EqDecision Note.t.
Proof. solve_decision. Defined.
Global Instance MaterialType_eq_dec : EqDecision MaterialType.
Proof. solve_decision. Defined.
Global Instance Material_eq_dec : EqDecision Material.t.
Proof. solve_decision. Defined.

(** The three [useState] collections of [App]. *)
Record Store := mkStore {
  courses : list Course.t;
  notes : list Note.t;
  materials : list Material.t
}.

Definition THEME_COLOR : string := "bg-blue-600".

(** ** Entity store handlers *)

(** [handleAddCourse]: [uuid] is the value of [crypto.randomUUID()],
    [now] the value of [Date.now()]. *)
Definition handleAddCourse (uuid name description : string) (now : Z)
    (s : Store) : Store :=
  let newCourse := Course.mk uuid name description THEME_COLOR now in
  mkStore (courses s ++ [newCourse]) (notes s) (materials s).

(** [handleDeleteCourse]: [confirmed] is the answer of [window.confirm]. *)
Definition handleDeleteCourse (id : string) (confirmed : bool)
    (s : Store) : Store :=
  if confirmed then
    mkStore (filter (λ c, Course.id c ≠ id) (courses s))
            (filter (λ n, Note.courseId n ≠ id) (notes s))
            (filter (λ m, Material.courseId m ≠ id) (materials s))
  else s.

(** [handleDeleteMaterial] *)
Definition handleDeleteMaterial (id : string) (s : Store) : Store :=
  mkStore (courses s) (notes s)
          (filter (λ m, Material.id m ≠ id) (materials s)).

(** [handleSaveNote]: with an [activeNote] the form edits that note, without
    one it appends a new note to the selected course.  [selectedCourseId!]
    is the non-null assertion of the source: the course id is passed as a
    string. *)
Definition handleSaveNote (activeNote : option Note.t)
    (selectedCourseId uuid title content : string) (now : Z)
    (s : Store) : Store :=
  match activeNote with
  | Some a =>
      mkStore (courses s)
        ((λ n, if decide (Note.id n = Note.id a)
               then Note.with_body n title content now else n) <$> notes s)
        (materials s)
  | None =>
      let newNote := Note.mk uuid selectedCourseId title content now in
      mkStore (courses s) (notes s ++ [newNote]) (materials s)
  end.

(** [handleAddMaterial]: [targetNoteId || undefined] turns both [null] and
    the empty string into an absent [noteId]. *)
Definition noteId_of_target (targetNoteId : option string) : option string :=
  match targetNoteId with
  | Some t => if decide (t = "") then None else Some t
  | None => None
  end.

Definition handleAddMaterial (targetNoteId : option string)
    (selectedCourseId uuid name url : string) (type : MaterialType) (now : Z)
    (s : Store) : Store :=
  let newMaterial :=
    Material.mk uuid selectedCourseId (noteId_of_target targetNoteId)
                name type url now in
  mkStore (courses s) (notes s) (materials s ++ [newMaterial]).

(** The delete button of a note entry:
    [if (confirm('Delete entry?')) setNotes(notes.filter(n => n.id !== note.id))]. *)
Definition deleteNote (id : string) (confirmed : bool) (s : Store) : Store :=
  if confirmed then
    mkStore (courses s) (filter (λ n, Note.id n ≠ id) (notes s)) (materials s)
  else s.

(** ** Reordering notes ([handleMoveNote]) *)

Inductive Direction := up | down.

(** [Array.prototype.reduce] with the element index passed to the
    callback. *)
Fixpoint reduce_from {A B : Type} (f : B → A → nat → B) (index : nat)
    (acc : B) (l : list A) : B :=
  match l with
  | [] => acc
  | x :: l' => reduce_from f (S index) (f acc x index) l'
  end.

Definition reduce {A B : Type} (f : B → A → nat → B) (init : B)
    (l : list A) : B :=
  reduce_from f 0 init l.

(** [note.courseId === selectedCourseId], where the selection is a string
    or [null]. *)
Definition in_course (selectedCourseId : option string) (n : Note.t) : Prop :=
  Some (Note.courseId n) = selectedCourseId.

Global Instance in_course_dec sel n : Decision (in_course sel n).
Proof. unfold in_course. apply _. Defined.

Definition courseNotesIndices (selectedCourseId : option string)
    (notes : list Note.t) : list nat :=
  reduce (λ acc note index,
            if decide (in_course selectedCourseId note)
            then acc ++ [index] else acc)
         [] notes.

(** The positions, counted from [index], of the elements of a list that
    satisfy [P]: what the [reduce] above collects. *)
Fixpoint positions_from {A : Type} (P : A → Prop) `{!∀ x, Decision (P x)}
    (index : nat) (l : list A) : list nat :=
  match l with
  | [] => []
  | x :: l' =>
      if decide (P x) then index :: positions_from P (S index) l'
      else positions_from P (S index) l'
  end.

(** [arr[i]] for a number [i]: [undefined] ([None]) unless [i] is the index
    of an element. *)
Definition at_index {A : Type} (arr : list A) (i : Z) : option A :=
  if decide (0 ≤ i)%Z then arr !! Z.to_nat i else None.

(** Reading [arr[k]] where the subscript [k] is itself possibly
    [undefined]: the property named ["undefined"] is not an element, the
    read gives [undefined]. *)
Definition slot_get {A : Type} (arr : list (option A)) (k : option nat)
    : option A :=
  match k with
  | Some i => mjoin (arr !! i)
  | None => None
  end.

(** Writing [arr[k] = v]: an index inside the array replaces the element,
    an index past the end extends the array with holes, and the subscript
    [undefined] sets the property named ["undefined"], which leaves every
    element as it is. *)
Definition slot_set {A : Type} (arr : list (option A)) (k : option nat)
    (v : option A) : list (option A) :=
  match k with
  | Some i =>
      if decide (i < length arr) then <[i := v]> arr
      else arr ++ replicate (i - length arr) None ++ [v]
  | None => arr
  end.

(** The result is the array given to [setNotes]; on the early [return] the
    state keeps its value. *)
Definition handleMoveNote (selectedCourseId : option string)
    (relativeIndex : Z) (direction : Direction) (notes : list Note.t)
    : list (option Note.t) :=
  let courseNotesIndices := courseNotesIndices selectedCourseId notes in
  let globalIndex := at_index courseNotesIndices relativeIndex in
  let targetGlobalIndex :=
    match direction with
    | up => at_index courseNotesIndices (relativeIndex - 1)
    | down => at_index courseNotesIndices (relativeIndex + 1)
    end in
  match targetGlobalIndex with
  | None => Some <$> notes
  | Some _ =>
      let newNotes := Some <$> notes in
      let rhs0 := slot_get newNotes targetGlobalIndex in
      let rhs1 := slot_get newNotes globalIndex in
      slot_set (slot_set newNotes globalIndex rhs0) targetGlobalIndex rhs1
  end.

(** The position within the course that a move exchanges with
    [relativeIndex]. *)
Definition target_index (relativeIndex : Z) (direction : Direction) : Z :=
  match direction with
  | up => relativeIndex - 1
  | down => relativeIndex + 1
  end%Z.

(** A [Note[]] state whose every slot holds a note. *)
Definition defined_notes (arr : list (option Note.t)) : option (list Note.t) :=
  mapM (λ x, x) arr.

(** ** Derived views *)

(** [String.prototype.toLowerCase] on the code units [0 .. 255]: the
    letters [A-Z], [À-Ö] and [Ø-Þ] move to their lower case forms.  On
    such text the case mapping works unit by unit; on other text it does
    not (it looks at the context of a letter and can change the length),
    see [Utf16] for the search on every string. *)
Definition lower_char (c : ascii) : ascii :=
  let n := N_of_ascii c in
  if ((65 <=? n) && (n <=? 90) || (192 <=? n) && (n <=? 214)
      || (216 <=? n) && (n <=? 222))%N
  then ascii_of_N (n + 32) else c.

Fixpoint toLowerCase (s : string) : string :=
  match s with
  | EmptyString => EmptyString
  | String c r => String (lower_char c) (toLowerCase r)
  end.

(** White space and line terminators among the code units [0 .. 255]:
    TAB, LF, VT, FF, CR, SP and NBSP. *)
Definition is_white (c : ascii) : bool :=
  let n := N_of_ascii c in
  ((9 <=? n) && (n <=? 13) || (n =? 32) || (n =? 160))%N.

Fixpoint trimStart (s : string) : string :=
  match s with
  | EmptyString => EmptyString
  | String c r => if is_white c then trimStart r else s
  end.

Fixpoint trimEnd (s : string) : string :=
  match s with
  | EmptyString => EmptyString
  | String c r =>
      match trimEnd r with
      | EmptyString => if is_white c then EmptyString else String c EmptyString
      | r' => String c r'
      end
  end.

Definition trim (s : string) : string := trimEnd (trimStart s).

Fixpoint startsWith (t s : string) : bool :=
  match t, s with
  | EmptyString, _ => true
  | String a t', String b s' => bool_decide (a = b) && startsWith t' s'
  | String _ _, EmptyString => false
  end.

(** [s.includes(t)] *)
Fixpoint includes (s t : string) : bool :=
  startsWith t s ||
  match s with
  | EmptyString => false
  | String _ s' => includes s' t
  end.

Definition filteredCourses (searchQuery : string) (courses : list Course.t)
    : list Course.t :=
  let cleanQuery := trim (toLowerCase searchQuery) in
  if decide (cleanQuery = "") then courses
  else filter (λ c, includes (toLowerCase (Course.name c)) cleanQuery
                    || includes (toLowerCase (Course.description c)) cleanQuery)
              courses.

(** A query without any character other than white space. *)
Fixpoint all_white (s : string) : bool :=
  match s with
  | EmptyString => true
  | String c r => is_white c && all_white r
  end.

Definition selectedCourse (selectedCourseId : option string)
    (courses : list Course.t) : option Course.t :=
  list_find (λ c, Some (Course.id c) = selectedCourseId) courses
    ≫= λ p, Some p.2.

Definition currentCourseNotes (selectedCourseId : option string)
    (notes : list Note.t) : list Note.t :=
  filter (in_course selectedCourseId) notes.

(** ** Sequences of store operations *)

Inductive Op :=
| AddCourse (uuid name description : string) (now : Z)
| DeleteCourse (id : string) (confirmed : bool)
| AddNote (selectedCourseId uuid title content : string) (now : Z)
| UpdateNote (activeNote : Note.t) (title content : string) (now : Z)
| DeleteNote (id : string) (confirmed : bool)
| MoveNote (selectedCourseId : option string) (relativeIndex : Z)
    (direction : Direction)
| AddMaterial (targetNoteId : option string)
    (selectedCourseId uuid name url : string) (type : MaterialType) (now : Z)
| DeleteMaterial (id : string).

(** One operation.  [None] is the state in which the array given to
    [setNotes] holds an [undefined] slot: the next render reads
    [n.courseId] of that slot and throws. *)
Definition exec (o : Op) (s : Store) : option Store :=
  match o with
  | AddCourse uuid name description now =>
      Some (handleAddCourse uuid name description now s)
  | DeleteCourse id confirmed => Some (handleDeleteCourse id confirmed s)
  | AddNote sel uuid title content now =>
      Some (handleSaveNote None sel uuid title content now s)
  | UpdateNote a title content now =>
      Some (handleSaveNote (Some a) (Note.courseId a) "" title content now s)
  | DeleteNote id confirmed => Some (deleteNote id confirmed s)
  | MoveNote sel relativeIndex direction =>
      newNotes ← defined_notes (handleMoveNote sel relativeIndex direction (notes s));
      Some (mkStore (courses s) newNotes (materials s))
  | AddMaterial target sel uuid name url type now =>
      Some (handleAddMaterial target sel uuid name url type now s)
  | DeleteMaterial id => Some (handleDeleteMaterial id s)
  end.

Fixpoint run (ops : list Op) (s : Store) : option Store :=
  match ops with
  | [] => Some s
  | o :: ops' => exec o s ≫= run ops'
  end.

(** I2: within each collection no two entities share an [id]. *)
Definition unique_ids (s : Store) : Prop :=
  NoDup (Course.id <$> courses s) ∧
  NoDup (Note.id <$> notes s) ∧
  NoDup (Material.id <$> materials s).

(** The value drawn from [crypto.randomUUID()] by a creating operation is
    not an [id] of the collection it is added to. *)
Definition fresh_uuid (o : Op) (s : Store) : Prop :=
  match o with
  | AddCourse uuid _ _ _ => uuid ∉ Course.id <$> courses s
  | AddNote _ uuid _ _ _ => uuid ∉ Note.id <$> notes s
  | AddMaterial _ _ uuid _ _ _ _ => uuid ∉ Material.id <$> materials s
  | _ => True
  end.

Fixpoint fresh_uuids (ops : list Op) (s : Store) : Prop :=
  match ops with
  | [] => True
  | o :: ops' =>
      fresh_uuid o s ∧
      match exec o s with
      | Some s' => fresh_uuids ops' s'
      | None => True
      end
  end.

(** The move buttons of the rendered list pass the position [idx] of a note
    of [currentCourseNotes]. *)
Definition rendered_index (o : Op) (s : Store) : Prop :=
  match o with
  | MoveNote sel relativeIndex _ =>
      (0 ≤ relativeIndex < Z.of_nat (length (currentCourseNotes sel (notes s))))%Z
  | _ => True
  end.

Fixpoint rendered_indices (ops : list Op) (s : Store) : Prop :=
  match ops with
  | [] => True
  | o :: ops' =>
      rendered_index o s ∧
      match exec o s with
      | Some s' => rendered_indices ops' s'
      | None => True
      end
  end.

Global Instance unique_ids_dec s : Decision (unique_ids s).
Proof. unfold unique_ids. apply _. Defined.

Global Instance fresh_uuid_dec o s : Decision (fresh_uuid o s).
Proof. destruct o; simpl; apply _. Defined.

Global Instance fresh_uuids_dec ops : ∀ s, Decision (fresh_uuids ops s).
Proof.
  induction ops as [|o ops IH]; intros s; simpl; [apply _|].
  destruct (exec o s); apply _.
Defined.

Global Instance rendered_index_dec o s : Decision (rendered_index o s).
Proof. destruct o; simpl; apply _. Defined.

Global Instance rendered_indices_dec ops : ∀ s, Decision (rendered_indices ops s).
Proof.
  induction ops as [|o ops IH]; intros s; simpl; [apply _|].
  destruct (exec o s); apply _.
Defined.

(** ** AI insight adapter ([runAISummary], [runAIQuestions]) *)

Record StudyQuestion := mkQuestion { question : string; answer : string }.

(** The component state the two adapters work on, next to the entity
    store; [alerts] collects the messages given to [alert]. *)
Record AppState := mkApp {
  store : Store;
  aiLoading : bool;
  aiSummary : option string;
  studyQuestions : list StudyQuestion;
  alerts : list string
}.

(** How an awaited promise settles. *)
Inductive Settled (A : Type) :=
| Fulfilled (value : A)
| Rejected.
Arguments Fulfilled {A} value.
Arguments Rejected {A}.

(** [result || "Failed to generate summary."], where [result] is
    [response.text], a string or [undefined]. *)
Definition summary_or_default (result : option string) : string :=
  match result with
  | Some t => if decide (t = "") then "Failed to generate summary." else t
  | None => "Failed to generate summary."
  end.

(** [runAISummary] up to its [await] ... *)
Definition runAISummary_invoke (a : AppState) : AppState :=
  mkApp (store a) true None (studyQuestions a) (alerts a).

(** ... and from the [await] on: [try] or [catch], then [finally]. *)
Definition runAISummary_settle (r : Settled (option string)) (a : AppState)
    : AppState :=
  match r with
  | Fulfilled result =>
      mkApp (store a) false (Some (summary_or_default result))
            (studyQuestions a) (alerts a)
  | Rejected =>
      mkApp (store a) false (aiSummary a) (studyQuestions a)
            (alerts a ++ ["Error generating summary."])
  end.

Definition runAIQuestions_invoke (a : AppState) : AppState :=
  mkApp (store a) true (aiSummary a) [] (alerts a).

Definition runAIQuestions_settle (r : Settled (list StudyQuestion))
    (a : AppState) : AppState :=
  match r with
  | Fulfilled result =>
      mkApp (store a) false (aiSummary a) result (alerts a)
  | Rejected =>
      mkApp (store a) false (aiSummary a) (studyQuestions a)
            (alerts a ++ ["Error generating questions."])
  end.

(** The events of the adapter: a call is started, or a pending call
    settles.  The event loop runs each to completion, one after the
    other. *)
Inductive AiEvent :=
| InvokeSummary (content : string)
| SettleSummary (r : Settled (option string))
| InvokeQuestions (content : string)
| SettleQuestions (r : Settled (list StudyQuestion)).

Definition ai_step (a : AppState) (e : AiEvent) : AppState :=
  match e with
  | InvokeSummary _ => runAISummary_invoke a
  | SettleSummary r => runAISummary_settle r a
  | InvokeQuestions _ => runAIQuestions_invoke a
  | SettleQuestions r => runAIQuestions_settle r a
  end.

Definition ai_run (a : AppState) (trace : list AiEvent) : AppState :=
  fold_left ai_step trace a.




(** ** JSON text ([JSON.stringify], [JSON.parse]) *)

(** A JSON value.  [JNum n] is a number written without fraction and
    exponent; [JDec m e] is a number literal with a fraction or an exponent
    part, kept as the decimal [m * 10 ^ e] it denotes (no entity holds
    one). *)
Inductive json :=
| JNull
| JBool (b : bool)
| JNum (n : Z)
| JDec (m e : Z)
| JStr (s : string)
| JArr (elements : list json)
| JObj (members : list (string * json)).

Definition hex_char (n : N) : ascii :=
  if (n <? 10)%N then ascii_of_N (48 + n) else ascii_of_N (87 + n).

(** One code unit of a quoted string ([QuoteJSONString]). *)
Definition quote_char (c : ascii) : string :=
  let n := N_of_ascii c in
  if (n =? 8)%N then "\b"
  else if (n =? 9)%N then "\t"
  else if (n =? 10)%N then "\n"
  else if (n =? 12)%N then "\f"
  else if (n =? 13)%N then "\r"
  else if (n =? 34)%N then String "092"%char (String "034"%char "")
  else if (n =? 92)%N then "\\"
  else if (n <? 32)%N then
    String "\" (String "u" (String "0" (String "0"
      (String (hex_char (n / 16)) (String (hex_char (n mod 16)) "")))))
  else String c "".

Fixpoint quote_body (s : string) : string :=
  match s with
  | EmptyString => EmptyString
  | String c r => quote_char c +:+ quote_body r
  end.

Definition quote (s : string) : string :=
  String "034"%char (quote_body s +:+ String "034"%char "").

(** [Number::toString] of an integer whose digits are all written out, as
    they are below [10 ^ 21]. *)
Definition string_of_Z (n : Z) : string :=
  (if decide (n < 0)%Z then "-" else "")
  +:+ NilEmpty.string_of_uint (N.to_uint (Z.abs_N n)).

(** [JSON.stringify(value)] without indentation.  A [JDec] is written as
    its mantissa, [e] and its exponent. *)
Fixpoint JSON_stringify (v : json) : string :=
  match v with
  | JNull => "null"
  | JBool true => "true"
  | JBool false => "false"
  | JNum n => string_of_Z n
  | JDec m e => string_of_Z m +:+ "e" +:+ string_of_Z e
  | JStr s => quote s
  | JArr l => "[" +:+ String.concat "," (map JSON_stringify l) +:+ "]"
  | JObj l =>
      "{" +:+ String.concat ","
                (map (λ p, quote p.1 +:+ ":" +:+ JSON_stringify p.2) l)
          +:+ "}"
  end.

(** The text between the brackets of an array and between the braces of
    an object. *)
Definition elements_text (l : list json) : string :=
  String.concat "," (map JSON_stringify l).

Definition member_text (p : string * json) : string :=
  quote p.1 +:+ ":" +:+ JSON_stringify p.2.

Definition members_text (l : list (string * json)) : string :=
  String.concat "," (map member_text l).

(** *** The parser *)

Definition is_json_ws (c : ascii) : bool :=
  let n := N_of_ascii c in
  ((n =? 32) || (n =? 9) || (n =? 10) || (n =? 13))%N.

Fixpoint skip_ws (s : string) : string :=
  match s with
  | EmptyString => EmptyString
  | String c r => if is_json_ws c then skip_ws r else s
  end.

Definition digit_of_char (c : ascii) : option (Decimal.uint → Decimal.uint) :=
  let n := N_of_ascii c in
  if (n =? 48)%N then Some Decimal.D0
  else if (n =? 49)%N then Some Decimal.D1
  else if (n =? 50)%N then Some Decimal.D2
  else if (n =? 51)%N then Some Decimal.D3
  else if (n =? 52)%N then Some Decimal.D4
  else if (n =? 53)%N then Some Decimal.D5
  else if (n =? 54)%N then Some Decimal.D6
  else if (n =? 55)%N then Some Decimal.D7
  else if (n =? 56)%N then Some Decimal.D8
  else if (n =? 57)%N then Some Decimal.D9
  else None.

(** The longest prefix of digits. *)
Fixpoint take_digits (s : string) : Decimal.uint * string :=
  match s with
  | EmptyString => (Decimal.Nil, EmptyString)
  | String c r =>
      match digit_of_char c with
      | Some d => let '(ds, r') := take_digits r in (d ds, r')
      | None => (Decimal.Nil, s)
      end
  end.

Fixpoint uint_length (d : Decimal.uint) : nat :=
  match d with
  | Decimal.Nil => 0
  | Decimal.D0 d | Decimal.D1 d | Decimal.D2 d | Decimal.D3 d | Decimal.D4 d
  | Decimal.D5 d | Decimal.D6 d | Decimal.D7 d | Decimal.D8 d | Decimal.D9 d =>
      S (uint_length d)
  end.

(** The integer part of a number: [0], or a digit [1-9] and more digits. *)
Definition take_int (s : string) : option (Decimal.uint * string) :=
  match s with
  | EmptyString => None
  | String c r =>
      if (N_of_ascii c =? 48)%N then Some (Decimal.D0 Decimal.Nil, r)
      else match take_digits s with
           | (Decimal.Nil, _) => None
           | (d, r') => Some (d, r')
           end
  end.

(** The fraction part: nothing, or [.] and at least one digit. *)
Definition take_frac (s : string) : option (option Decimal.uint * string) :=
  match s with
  | String c r =>
      if (N_of_ascii c =? 46)%N then
        match take_digits r with
        | (Decimal.Nil, _) => None
        | (d, r') => Some (Some d, r')
        end
      else Some (None, s)
  | EmptyString => Some (None, s)
  end.

(** The exponent part: nothing, or [e] or [E], a sign if any, and at least
    one digit. *)
Definition take_exp (s : string) : option (option Z * string) :=
  match s with
  | String c r =>
      if ((N_of_ascii c =? 101) || (N_of_ascii c =? 69))%N then
        let '(negative, r1) :=
          match r with
          | String sg r0 =>
              if (N_of_ascii sg =? 45)%N then (true, r0)
              else if (N_of_ascii sg =? 43)%N then (false, r0)
              else (false, r)
          | EmptyString => (false, r)
          end in
        match take_digits r1 with
        | (Decimal.Nil, _) => None
        | (d, r') =>
            let e := Z.of_N (N.of_uint d) in
            Some (Some (if negative then (- e)%Z else e), r')
        end
      else Some (None, s)
  | EmptyString => Some (None, s)
  end.

Definition parse_number (s : string) : option (json * string) :=
  let '(negative, s1) :=
    match s with
    | String c r => if (N_of_ascii c =? 45)%N then (true, r) else (false, s)
    | EmptyString => (false, s)
    end in
  '(i, s2) ← take_int s1;
  '(f, s3) ← take_frac s2;
  '(x, s4) ← take_exp s3;
  let sign (z : Z) := if negative then (- z)%Z else z in
  match f, x with
  | None, None => Some (JNum (sign (Z.of_N (N.of_uint i))), s4)
  | _, _ =>
      let fd := default Decimal.Nil f in
      let m := Z.of_N (N.of_uint (Decimal.app i fd)) in
      Some (JDec (sign m) (default 0%Z x - Z.of_nat (uint_length fd)), s4)
  end.

Definition hex_value (c : ascii) : option N :=
  let n := N_of_ascii c in
  if ((48 <=? n) && (n <=? 57))%N then Some (n - 48)%N
  else if ((97 <=? n) && (n <=? 102))%N then Some (n - 87)%N
  else if ((65 <=? n) && (n <=? 70))%N then Some (n - 55)%N
  else None.

(** The character an escape [\c] stands for, [\u] apart. *)
Definition unescape (c : ascii) : option ascii :=
  let n := N_of_ascii c in
  if (n =? 34)%N then Some (ascii_of_N 34)
  else if (n =? 92)%N then Some (ascii_of_N 92)
  else if (n =? 47)%N then Some (ascii_of_N 47)
  else if (n =? 98)%N then Some (ascii_of_N 8)
  else if (n =? 102)%N then Some (ascii_of_N 12)
  else if (n =? 110)%N then Some (ascii_of_N 10)
  else if (n =? 114)%N then Some (ascii_of_N 13)
  else if (n =? 116)%N then Some (ascii_of_N 9)
  else None.

(** The code unit of [\uXXXX].  One above [0xFF] is no character of the
    embedded strings and has no value here. *)
Definition unicode_escape (h1 h2 h3 h4 : ascii) : option ascii :=
  a ← hex_value h1; b ← hex_value h2; c ← hex_value h3; d ← hex_value h4;
  let n := (((a * 16 + b) * 16 + c) * 16 + d)%N in
  if (n <? 256)%N then Some (ascii_of_N n) else None.

(** The characters of a string after its opening quote, up to and with the
    closing quote. *)
Fixpoint parse_string_body (s : string) : option (string * string) :=
  match s with
  | EmptyString => None
  | String c r =>
      if (N_of_ascii c =? 34)%N then Some (EmptyString, r)
      else if (N_of_ascii c =? 92)%N then
        match r with
        | EmptyString => None
        | String e r1 =>
            if (N_of_ascii e =? 117)%N then
              match r1 with
              | String h1 (String h2 (String h3 (String h4 r2))) =>
                  ch ← unicode_escape h1 h2 h3 h4;
                  '(body, rest) ← parse_string_body r2;
                  Some (String ch body, rest)
              | _ => None
              end
            else
              ch ← unescape e;
              '(body, rest) ← parse_string_body r1;
              Some (String ch body, rest)
        end
      else if (N_of_ascii c <? 32)%N then None
      else
        '(body, rest) ← parse_string_body r;
        Some (String c body, rest)
  end.

(** Defining a property of the object under construction: a name met again
    keeps its place and takes the new value.  (JavaScript lists the names
    that are array indices before the others; the entities have none.) *)
Fixpoint obj_set (k : string) (v : json) (o : list (string * json))
    : list (string * json) :=
  match o with
  | [] => [(k, v)]
  | (k', v') :: o' =>
      if decide (k' = k) then (k', v) :: o' else (k', v') :: obj_set k v o'
  end.

(** The rest of [s] after the literal [lit], when [s] starts with it. *)
Fixpoint strip_prefix (lit s : string) : option string :=
  match lit, s with
  | EmptyString, _ => Some s
  | String a lit', String b s' =>
      if decide (a = b) then strip_prefix lit' s' else None
  | String _ _, EmptyString => None
  end.

(** [parse_value] reads one value, white space before it included;
    [parse_elements] reads the elements of an array after [[] or [,], to
    the closing bracket; [parse_members] does so for an object.  Every call
    from one to another takes one unit of [fuel]. *)
Fixpoint parse_value (fuel : nat) (s : string) : option (json * string) :=
  match fuel with
  | O => None
  | S fuel' =>
      match skip_ws s with
      | EmptyString => None
      | String c r as s' =>
          let n := N_of_ascii c in
          if (n =? 123)%N then
            match skip_ws r with
            | String c' r' =>
                if (N_of_ascii c' =? 125)%N then Some (JObj [], r')
                else parse_members fuel' r []
            | EmptyString => None
            end
          else if (n =? 91)%N then
            match skip_ws r with
            | String c' r' =>
                if (N_of_ascii c' =? 93)%N then Some (JArr [], r')
                else parse_elements fuel' r []
            | EmptyString => None
            end
          else if (n =? 34)%N then
            '(str, rest) ← parse_string_body r;
            Some (JStr str, rest)
          else if (n =? 116)%N then
            rest ← strip_prefix "true" s'; Some (JBool true, rest)
          else if (n =? 102)%N then
            rest ← strip_prefix "false" s'; Some (JBool false, rest)
          else if (n =? 110)%N then
            rest ← strip_prefix "null" s'; Some (JNull, rest)
          else parse_number s'
      end
  end
with parse_elements (fuel : nat) (s : string) (acc : list json)
    : option (json * string) :=
  match fuel with
  | O => None
  | S fuel' =>
      '(v, r) ← parse_value fuel' s;
      match skip_ws r with
      | String c r' =>
          if (N_of_ascii c =? 44)%N then parse_elements fuel' r' (acc ++ [v])
          else if (N_of_ascii c =? 93)%N then Some (JArr (acc ++ [v]), r')
          else None
      | EmptyString => None
      end
  end
with parse_members (fuel : nat) (s : string) (acc : list (string * json))
    : option (json * string) :=
  match fuel with
  | O => None
  | S fuel' =>
      match skip_ws s with
      | String q r =>
          if (N_of_ascii q =? 34)%N then
            '(k, r1) ← parse_string_body r;
            match skip_ws r1 with
            | String c r2 =>
                if (N_of_ascii c =? 58)%N then
                  '(v, r3) ← parse_value fuel' r2;
                  match skip_ws r3 with
                  | String c' r4 =>
                      if (N_of_ascii c' =? 44)%N
                      then parse_members fuel' r4 (obj_set k v acc)
                      else if (N_of_ascii c' =? 125)%N
                      then Some (JObj (obj_set k v acc), r4)
                      else None
                  | EmptyString => None
                  end
                else None
            | EmptyString => None
            end
          else None
      | EmptyString => None
      end
  end.

(** [JSON.parse(text)]; [None] is the [SyntaxError] it throws.  Every unit
    of fuel spent goes with a character read, so the length of the text is
    fuel enough. *)
Definition JSON_parse (text : string) : option json :=
  '(v, rest) ← parse_value (S (String.length text)) text;
  match skip_ws rest with
  | EmptyString => Some v
  | String _ _ => None
  end.

(** *** Measures of a value *)

(** The number of values and of array and object entries in a value; the
    text of a value is at least that long. *)
Fixpoint json_size (v : json) : nat :=
  match v with
  | JArr l => S (foldr (λ x n, S (json_size x + n)) 0 l)
  | JObj l => S (foldr (λ p n, S (json_size p.2 + n)) 0 l)
  | _ => 1
  end.

Definition elements_size (l : list json) : nat :=
  foldr (λ x n, S (json_size x + n)) 0 l.

Definition members_size (l : list (string * json)) : nat :=
  foldr (λ p n, S (json_size p.2 + n)) 0 l.

(** No object of the value has two members of one name. *)
Fixpoint wf_json (v : json) : Prop :=
  match v with
  | JArr l => foldr (λ x P, wf_json x ∧ P) True l
  | JObj l => NoDup l.*1 ∧ foldr (λ p P, wf_json p.2 ∧ P) True l
  | _ => True
  end.

Definition wf_elements (l : list json) : Prop :=
  foldr (λ x P, wf_json x ∧ P) True l.

Definition wf_members (l : list (string * json)) : Prop :=
  foldr (λ p P, wf_json p.2 ∧ P) True l.

(** What may follow a value in a text: nothing, or a separator. *)
Definition terminated (rest : string) : Prop :=
  match rest with
  | EmptyString => True
  | String c _ => N_of_ascii c = 44%N ∨ N_of_ascii c = 93%N ∨ N_of_ascii c = 125%N
  end.

(** The characters a number starts with: [-] and the digits. *)
Definition number_start (c : ascii) : bool :=
  let n := N_of_ascii c in
  ((n =? 45) || (48 <=? n) && (n <=? 57))%N.

(** What may follow the digits of a number: no further digit. *)
Definition no_digit_ahead (rest : string) : Prop :=
  match rest with
  | EmptyString => True
  | String c _ => digit_of_char c = None
  end.

(** ** Entities as JSON values *)

(** The own properties of the objects the handlers build, in the order the
    object literals write them; [JSON.stringify] leaves out a property
    whose value is [undefined], as [noteId] may be. *)
Definition js_of_course (c : Course.t) : json :=
  JObj [("id", JStr (Course.id c));
        ("name", JStr (Course.name c));
        ("description", JStr (Course.description c));
        ("color", JStr (Course.color c));
        ("createdAt", JNum (Course.createdAt c))].

Definition js_of_note (n : Note.t) : json :=
  JObj [("id", JStr (Note.id n));
        ("courseId", JStr (Note.courseId n));
        ("title", JStr (Note.title n));
        ("content", JStr (Note.content n));
        ("updatedAt", JNum (Note.updatedAt n))].

Definition string_of_type (t : MaterialType) : string :=
  match t with
  | Link => "Link"
  | File => "File"
  | Reference => "Reference"
  end.

Definition js_of_material (m : Material.t) : json :=
  JObj ([("id", JStr (Material.id m));
         ("courseId", JStr (Material.courseId m))]
        ++ match Material.noteId m with
           | Some i => [("noteId", JStr i)]
           | None => []
           end
        ++ [("name", JStr (Material.name m));
            ("url", JStr (Material.url m));
            ("type", JStr (string_of_type (Material.type m)));
            ("addedAt", JNum (Material.addedAt m))]).

(** Reading the value back at its declared type: [o.k] for a property [k],
    [undefined] ([None]) when the object has none of that name. *)
Fixpoint get_prop (o : list (string * json)) (k : string) : option json :=
  match o with
  | [] => None
  | (k', v) :: o' => if decide (k' = k) then Some v else get_prop o' k
  end.

Definition as_string (v : json) : option string :=
  match v with JStr s => Some s | _ => None end.

Definition as_integer (v : json) : option Z :=
  match v with JNum n => Some n | _ => None end.

Definition as_type (v : json) : option MaterialType :=
  match v with
  | JStr s =>
      if decide (s = "Link") then Some Link
      else if decide (s = "File") then Some File
      else if decide (s = "Reference") then Some Reference
      else None
  | _ => None
  end.

Definition course_of_js (v : json) : option Course.t :=
  match v with
  | JObj o =>
      id ← get_prop o "id" ≫= as_string;
      name ← get_prop o "name" ≫= as_string;
      description ← get_prop o "description" ≫= as_string;
      color ← get_prop o "color" ≫= as_string;
      createdAt ← get_prop o "createdAt" ≫= as_integer;
      Some (Course.mk id name description color createdAt)
  | _ => None
  end.

Definition note_of_js (v : json) : option Note.t :=
  match v with
  | JObj o =>
      id ← get_prop o "id" ≫= as_string;
      courseId ← get_prop o "courseId" ≫= as_string;
      title ← get_prop o "title" ≫= as_string;
      content ← get_prop o "content" ≫= as_string;
      updatedAt ← get_prop o "updatedAt" ≫= as_integer;
      Some (Note.mk id courseId title content updatedAt)
  | _ => None
  end.

Definition material_of_js (v : json) : option Material.t :=
  match v with
  | JObj o =>
      id ← get_prop o "id" ≫= as_string;
      courseId ← get_prop o "courseId" ≫= as_string;
      noteId ← match get_prop o "noteId" with
               | None => Some None
               | Some i => Some <$> as_string i
               end;
      name ← get_prop o "name" ≫= as_string;
      type ← get_prop o "type" ≫= as_type;
      url ← get_prop o "url" ≫= as_string;
      addedAt ← get_prop o "addedAt" ≫= as_integer;
      Some (Material.mk id courseId noteId name type url addedAt)
  | _ => None
  end.

Definition array_of_js {A : Type} (f : json → option A) (v : json)
    : option (list A) :=
  match v with
  | JArr l => mapM f l
  | _ => None
  end.

(** ** Persistence (the two [useEffect] hooks) *)

(** What the three [useState] cells hold after [JSON.parse]: the parsed
    values, taken at the declared types without a check. *)
Record Loaded := mkLoaded {
  loaded_courses : json;
  loaded_notes : json;
  loaded_materials : json
}.

(** [useState([])] for each of the three. *)
Definition initial : Loaded := mkLoaded (JArr []) (JArr []) (JArr []).

Definition js_of_store (s : Store) : Loaded :=
  mkLoaded (JArr (js_of_course <$> courses s))
           (JArr (js_of_note <$> notes s))
           (JArr (js_of_material <$> materials s)).

Definition store_of_loaded (l : Loaded) : option Store :=
  cs ← array_of_js course_of_js (loaded_courses l);
  ns ← array_of_js note_of_js (loaded_notes l);
  ms ← array_of_js material_of_js (loaded_materials l);
  Some (mkStore cs ns ms).

(** A timestamp is a number that a double holds exactly (a safe
    integer); these are the numbers written with all their digits. *)
Definition safe_integer (n : Z) : Prop := (- 2 ^ 53 < n < 2 ^ 53)%Z.

Definition valid_store (s : Store) : Prop :=
  Forall (λ c, safe_integer (Course.createdAt c)) (courses s) ∧
  Forall (λ n, safe_integer (Note.updatedAt n)) (notes s) ∧
  Forall (λ m, safe_integer (Material.addedAt m)) (materials s).

Global Instance valid_store_dec s : Decision (valid_store s).
Proof. unfold valid_store, safe_integer. apply _. Defined.

(** [localStorage.getItem(key)] is [ls !! key], [null] being [None]. *)
Definition setItem (key value : string) (ls : gmap string string)
    : gmap string string :=
  <[key := value]> ls.

(** [if (saved)]: a string is truthy unless it is empty; [null] is not. *)
Definition truthy (saved : option string) : bool :=
  match saved with
  | Some text => negb (bool_decide (text = ""))
  | None => false
  end.

(** [if (saved) setX(JSON.parse(saved))] on one cell; [None] is the
    [SyntaxError] of [JSON.parse] leaving the effect. *)
Definition load_cell (saved : option string) (cell : json) : option json :=
  match saved with
  | Some text => if truthy saved then JSON_parse text else Some cell
  | None => Some cell
  end.

(** The mount effect. *)
Definition load (ls : gmap string string) (st : Loaded) : option Loaded :=
  let savedCourses := ls !! "uni_courses" in
  let savedNotes := ls !! "uni_notes" in
  let savedMaterials := ls !! "uni_materials" in
  cs ← load_cell savedCourses (loaded_courses st);
  ns ← load_cell savedNotes (loaded_notes st);
  ms ← load_cell savedMaterials (loaded_materials st);
  Some (mkLoaded cs ns ms).

(** The three keys, and the cell each of them fills. *)
Definition storage_keys : list string :=
  ["uni_courses"; "uni_notes"; "uni_materials"].

Definition cell_of (key : string) (l : Loaded) : json :=
  if decide (key = "uni_courses") then loaded_courses l
  else if decide (key = "uni_notes") then loaded_notes l
  else loaded_materials l.

(** The effect on [[courses, notes, materials]]. *)
Definition save (s : Store) (ls : gmap string string) : gmap string string :=
  let ls1 := setItem "uni_courses"
               (JSON_stringify (JArr (js_of_course <$> courses s))) ls in
  let ls2 := setItem "uni_notes"
               (JSON_stringify (JArr (js_of_note <$> notes s))) ls1 in
  setItem "uni_materials"
    (JSON_stringify (JArr (js_of_material <$> materials s))) ls2.

(** ** Sample data

    The scenario of the design document: course A ("Biology 101") with the
    notes N1, N2, N3 in that order, and an unrelated course B. *)

Definition courseA : Course.t := Course.mk "A" "Biology 101" "" THEME_COLOR 1000.
Definition courseB : Course.t := Course.mk "B" "Chemistry" "Organic" THEME_COLOR 1001.

Definition N1 : Note.t := Note.mk "n1" "A" "Cell Structure" "Membranes" 2000.
Definition N2 : Note.t := Note.mk "n2" "A" "Genetics" "Heredity" 2001.
Definition N3 : Note.t := Note.mk "n3" "A" "Evolution" "Selection" 2002.
Definition NB : Note.t := Note.mk "nb" "B" "Alkanes" "Chains" 2003.

Definition syllabus : Material.t :=
  Material.mk "m1" "A" None "Syllabus PDF" File "/files/syllabus.pdf" 3000.
Definition slides : Material.t :=
  Material.mk "m2" "A" (Some "n1") "Slides" Link "https://example.org/s" 3001.
Definition handout : Material.t :=
  Material.mk "m3" "B" (Some "nb") "Handout" Reference "shelf 4" 3002.

Definition sample_store : Store :=
  mkStore [courseA; courseB] [N1; NB; N2; N3] [syllabus; slides; handout].

(** A session: every kind of operation once. *)
Definition sample_ops : list Op :=
  [ AddCourse "C" "Physics" "Mechanics" 4000;
    AddNote "C" "n4" "Forces" "Newton" 4001;
    MoveNote (Some "A") 1 up;
    UpdateNote N2 "Genes" "DNA" 4002;
    AddMaterial (Some "n4") "C" "m4" "Notes" "/files/forces.pdf" File 4003;
    DeleteNote "n3" true;
    DeleteMaterial "m1";
    MoveNote (Some "A") 0 down;
    DeleteCourse "B" true ].

(** The component before any analysis was asked for, and the events of
    one click on "Analyze Content" (both calls are started) followed by the
    failure of the questions call while the summary call is pending. *)
Definition idle_app : AppState := mkApp sample_store false None [] [].


(** A storage whose courses blob is present and empty, and one whose notes
    blob is cut off. *)
Definition empty_blob_storage : gmap string string :=
  {[ "uni_courses" := "" ]}.

Definition broken_storage : gmap string string :=
  <[ "uni_notes" := "[{" ]> (save sample_store ∅).

(** A store in which a note and a material carry the [courseId] of a course
    that is not in [courses]. *)
Definition orphan_store : Store :=
  mkStore [courseB] [N1; NB] [syllabus; handout].

(** ** Further views and guards of the component *)

(** The resources listed under a note entry:
    [materials.filter(m => m.noteId === note.id)]. *)
Definition materialsForNote (noteId : string) (materials : list Material.t)
    : list Material.t :=
  filter (λ m, Material.noteId m = Some noteId) materials.

(** I1: every note and every material names a course of the store. *)
Definition referential_integrity (s : Store) : Prop :=
  (∀ n, n ∈ notes s → Note.courseId n ∈ Course.id <$> courses s) ∧
  (∀ m, m ∈ materials s → Material.courseId m ∈ Course.id <$> courses s).

(** The forms for a new note and a new resource are opened from the detail
    view, which is rendered for [selectedCourse] only: the selected id is
    that of a course. *)
Definition selection_exists (o : Op) (s : Store) : Prop :=
  match o with
  | AddNote sel _ _ _ _ => sel ∈ Course.id <$> courses s
  | AddMaterial _ sel _ _ _ _ _ => sel ∈ Course.id <$> courses s
  | _ => True
  end.

Fixpoint selections_exist (ops : list Op) (s : Store) : Prop :=
  match ops with
  | [] => True
  | o :: ops' =>
      selection_exists o s ∧
      match exec o s with
      | Some s' => selections_exist ops' s'
      | None => True
      end
  end.

Global Instance selection_exists_dec o s : Decision (selection_exists o s).
Proof. destruct o; simpl; apply _. Defined.

Global Instance selections_exist_dec ops : ∀ s, Decision (selections_exist ops s).
Proof.
  induction ops as [|o ops IH]; intros s; simpl; [apply _|].
  destruct (exec o s); apply _.
Defined.

(** The number of notes of the selected course. *)
Definition course_size (sel : option string) (l : list Note.t) : Z :=
  Z.of_nat (length (currentCourseNotes sel l)).

(** ** The insight panel *)

(** [aiSummary || studyQuestions.length > 0 || aiLoading]: the panel is
    rendered for a summary that is neither [null] nor empty, for a question,
    or while loading. *)
Definition panel_visible (a : AppState) : bool :=
  match aiSummary a with
  | Some t => negb (bool_decide (t = ""))
  | None => false
  end
  || negb (bool_decide (studyQuestions a = []))
  || aiLoading a.

(** The number of settlements of a trace that are rejections. *)
Definition is_rejection (e : AiEvent) : bool :=
  match e with
  | SettleSummary Rejected | SettleQuestions Rejected => true
  | _ => false
  end.

Definition is_invoke (e : AiEvent) : bool :=
  match e with
  | InvokeSummary _ | InvokeQuestions _ => true
  | _ => false
  end.

(** ** The Gemini service ([services/geminiService.ts]) *)

(** [getAI]: [!process.env.API_KEY] holds for a variable that is not set
    and for the empty string; the client is made of the key otherwise. *)
Definition getAI (API_KEY : option string) : option string :=
  match API_KEY with
  | Some k => if decide (k = "") then None else Some k
  | None => None
  end.

(** [summarizeNote]: [response] is how [ai.models.generateContent] settles,
    with [response.text], a string or [undefined], when it is fulfilled.  An
    [async] function turns the [throw] of [getAI] into a rejection. *)
Definition summarizeNote (API_KEY : option string)
    (response : Settled (option string)) : Settled (option string) :=
  match getAI API_KEY with
  | None => Rejected
  | Some _ => response
  end.

(** [generateStudyQuestions]: [JSON.parse(response.text || "[]")]. *)
Definition text_or_empty_array (text : option string) : string :=
  match text with
  | Some t => if decide (t = "") then "[]" else t
  | None => "[]"
  end.

Definition generateStudyQuestions (API_KEY : option string)
    (response : Settled (option string)) : Settled json :=
  match getAI API_KEY with
  | None => Rejected
  | Some _ =>
      match response with
      | Rejected => Rejected
      | Fulfilled text =>
          match JSON_parse (text_or_empty_array text) with
          | Some v => Fulfilled v
          | None => Rejected
          end
      end
  end.

(** The parsed answer at the type the state declares,
    [{question: string, answer: string}[]]. *)
Definition question_of_js (v : json) : option StudyQuestion :=
  match v with
  | JObj o =>
      q ← get_prop o "question" ≫= as_string;
      a ← get_prop o "answer" ≫= as_string;
      Some (mkQuestion q a)
  | _ => None
  end.

Definition js_of_question (q : StudyQuestion) : json :=
  JObj [("question", JStr (question q)); ("answer", JStr (answer q))].

(** The message a rejection hands to [alert]. *)
Definition rejection_message (e : AiEvent) : option string :=
  match e with
  | SettleSummary Rejected => Some "Error generating summary."
  | SettleQuestions Rejected => Some "Error generating questions."
  | _ => None
  end.

(** One click on "Analyze Content" with the service behind it:
    [runAISummary(note.content); runAIQuestions(note.content)], then the
    two calls settle, the summary first or the questions first.  The parsed
    questions are taken at the declared type. *)
Definition typed_questions (r : Settled json)
    : option (Settled (list StudyQuestion)) :=
  match r with
  | Rejected => Some Rejected
  | Fulfilled v => Fulfilled <$> array_of_js question_of_js v
  end.

Definition analyze (API_KEY : option string) (content : string)
    (summary_response questions_response : Settled (option string))
    (summary_first : bool) (a : AppState) : option AppState :=
  qs ← typed_questions (generateStudyQuestions API_KEY questions_response);
  let started := [InvokeSummary content; InvokeQuestions content] in
  let s := SettleSummary (summarizeNote API_KEY summary_response) in
  let q := SettleQuestions qs in
  Some (ai_run a (started ++ if summary_first then [s; q] else [q; s])).

Definition sample_questions : list StudyQuestion :=
  [ mkQuestion "What bounds a cell?" "The membrane.";
    mkQuestion "What carries heredity?" "DNA." ].

(** ** The backup ([exportData]) *)

Fixpoint spaces (n : nat) : string :=
  match n with
  | O => EmptyString
  | S n' => String " " (spaces n')
  end.

(** A line feed and the indentation of nesting depth [depth], two spaces
    a level. *)
Definition newline (depth : nat) : string :=
  String "010"%char (spaces (2 * depth)).

(** [JSON.stringify(value, null, 2)] for a value at nesting depth
    [depth]: an array or object that is not empty has each entry on a line
    of its own, one level deeper, and its closing bracket on a line at its
    own level; a member is written with a space after the colon. *)
Fixpoint stringify_indented (depth : nat) (v : json) : string :=
  match v with
  | JArr [] => "[]"
  | JArr l =>
      "[" +:+ newline (S depth)
      +:+ String.concat ("," +:+ newline (S depth))
            (map (stringify_indented (S depth)) l)
      +:+ newline depth +:+ "]"
  | JObj [] => "{}"
  | JObj l =>
      "{" +:+ newline (S depth)
      +:+ String.concat ("," +:+ newline (S depth))
            (map (λ p, quote p.1 +:+ ": " +:+ stringify_indented (S depth) p.2) l)
      +:+ newline depth +:+ "}"
  | _ => JSON_stringify v
  end.

Definition elements_indented (depth : nat) (l : list json) : string :=
  String.concat ("," +:+ newline depth) (map (stringify_indented depth) l).

Definition member_indented (depth : nat) (p : string * json) : string :=
  quote p.1 +:+ ": " +:+ stringify_indented depth p.2.

Definition members_indented (depth : nat) (l : list (string * json)) : string :=
  String.concat ("," +:+ newline depth) (map (member_indented depth) l).

(** [s.split('T')[0]]: the part of [s] before the first [T]. *)
Fixpoint before_T (s : string) : string :=
  match s with
  | EmptyString => EmptyString
  | String c r => if (N_of_ascii c =? 84)%N then EmptyString
                  else String c (before_T r)
  end.

(** The object [{ courses, notes, materials }] of the backup. *)
Definition backup_data (s : Store) : json :=
  JObj [("courses", JArr (js_of_course <$> courses s));
        ("notes", JArr (js_of_note <$> notes s));
        ("materials", JArr (js_of_material <$> materials s))].

(** [exportData]: the text of the blob and the name of the download;
    [iso] is [new Date().toISOString()]. *)
Definition exportData (iso : string) (s : Store) : string * string :=
  (stringify_indented 0 (backup_data s),
   "unisphere_backup_" +:+ before_T iso +:+ ".json").

(** Reading a backup at the declared types. *)
Definition store_of_backup (v : json) : option Store :=
  match v with
  | JObj o =>
      cs ← get_prop o "courses" ≫= array_of_js course_of_js;
      ns ← get_prop o "notes" ≫= array_of_js note_of_js;
      ms ← get_prop o "materials" ≫= array_of_js material_of_js;
      Some (mkStore cs ns ms)
  | _ => None
  end.

(** What may follow a value in an indented text: nothing, a separator, or
    a line feed. *)
Definition value_end (rest : string) : Prop :=
  match rest with
  | EmptyString => True
  | String c _ =>
      N_of_ascii c = 44%N ∨ N_of_ascii c = 93%N ∨ N_of_ascii c = 125%N
      ∨ N_of_ascii c = 10%N
  end.

(** ** Further sample data *)


(** A store whose course carries a version 4 UUID, and an [AddCourse] for
    which [crypto.randomUUID()] gives that UUID again. *)
Definition physics_uuid : string := "3f2b8c1e-5d4a-4e6f-9a7b-0c1d2e3f4a5b".

Definition uuid_store : Store :=
  mkStore [Course.mk physics_uuid "Physics" "Mechanics" THEME_COLOR 4000] [] [].

Definition colliding_ops : list Op :=
  [ AddCourse physics_uuid "Chemistry" "Organic" 4001 ].

(** ** The course search on every JavaScript string

    A JavaScript string is a sequence of UTF-16 code units.
    [String.prototype.toLowerCase] maps it by the case mapping of the
    Unicode standard, which looks at the context of a letter (a capital
    sigma at the end of a word has its own lower case form) and can change
    the length of the string.  The mapping is no code of the repository:
    it is a parameter of the search.  [trim] and [includes] work on the
    code units. *)
Module Utf16.

Definition jsstring := list N.

(** WhiteSpace and LineTerminator of ECMAScript, the code units that
    [trim] strips: TAB, LF, VT, FF, CR, SP, NBSP, the other space
    separators, LS, PS and the byte order mark. *)
Definition white_space (c : N) : Prop :=
  (9 ≤ c ≤ 13 ∨ c = 32 ∨ c = 160 ∨ c = 5760 ∨ 8192 ≤ c ≤ 8202 ∨ c = 8232
   ∨ c = 8233 ∨ c = 8239 ∨ c = 8287 ∨ c = 12288 ∨ c = 65279)%N.

Global Instance white_space_dec c : Decision (white_space c).
Proof. unfold white_space. apply _. Defined.

Definition is_white (c : N) : bool := bool_decide (white_space c).

Fixpoint trimStart (s : jsstring) : jsstring :=
  match s with
  | [] => []
  | c :: r => if is_white c then trimStart r else s
  end.

Fixpoint trimEnd (s : jsstring) : jsstring :=
  match s with
  | [] => []
  | c :: r =>
      match trimEnd r with
      | [] => if is_white c then [] else [c]
      | r' => c :: r'
      end
  end.

Definition trim (s : jsstring) : jsstring := trimEnd (trimStart s).

Fixpoint startsWith (t s : jsstring) : bool :=
  match t, s with
  | [], _ => true
  | a :: t', b :: s' => bool_decide (a = b) && startsWith t' s'
  | _ :: _, [] => false
  end.

(** [s.includes(t)] *)
Fixpoint includes (s t : jsstring) : bool :=
  startsWith t s ||
  match s with
  | [] => false
  | _ :: s' => includes s' t
  end.

(** [Course] of [types.ts]. *)
Record Course := mkCourse {
  id : jsstring;
  name : jsstring;
  description : jsstring;
  color : jsstring;
  createdAt : Z
}.

Section CaseMapping.
Variable toLowerCase : jsstring → jsstring.

(** [filteredCourses]; [!cleanQuery] holds for the empty string. *)
Definition filteredCourses (searchQuery : jsstring) (courses : list Course)
    : list Course :=
  let cleanQuery := trim (toLowerCase searchQuery) in
  if decide (cleanQuery = []) then courses
  else filter (λ c, includes (toLowerCase (name c)) cleanQuery
                    || includes (toLowerCase (description c)) cleanQuery)
              courses.

(** [t] is a part of [s]. *)
Definition contains (s t : jsstring) : Prop := ∃ pre post, s = pre ++ t ++ post.

(** [s] contains [q] case-insensitively: the two are compared in their
    lower case forms. *)
Definition contains_ci (s q : jsstring) : Prop :=
  contains (toLowerCase s) (toLowerCase q).


End CaseMapping.

(** A query without any character other than white space. *)
Definition all_white (s : jsstring) : bool := forallb is_white s.

(** [l'] is exactly the subsequence of the elements of [l] that satisfy
    [P], in the order of [l]. *)
Inductive exactly_those {A : Type} (P : A → Prop) : list A → list A → Prop :=
| exactly_nil : exactly_those P [] []
| exactly_keep x l l' :
    P x → exactly_those P l l' → exactly_those P (x :: l) (x :: l')
| exactly_skip x l l' :
    ¬ P x → exactly_those P l l' → exactly_those P (x :: l) l'.

(** The code units of a Latin-1 text. *)
Definition units (s : string) : jsstring :=
  N_of_ascii <$> list_ascii_of_string s.

(** The case mapping where it works unit by unit: the letters [A-Z],
    [À-Ö] and [Ø-Þ] move to their lower case forms, every other code unit
    stays.  It is [toLowerCase] on Latin-1 text and serves the examples. *)
Definition lower_unit (c : N) : N :=
  if decide (65 ≤ c ≤ 90 ∨ 192 ≤ c ≤ 214 ∨ 216 ≤ c ≤ 222)%N
  then (c + 32)%N else c.

Definition latin1_lower (s : jsstring) : jsstring := lower_unit <$> s.

(** A course of Latin-1 texts as a course of code unit sequences. *)
Definition of_course (c : Course.t) : Course :=
  mkCourse (units (Course.id c)) (units (Course.name c))
           (units (Course.description c)) (units (Course.color c))
           (Course.createdAt c).



End Utf16.

(** * Properties *)

(** ** Lists *)

Section filter_facts.
Context {A : Type} (P : A → Prop) `{!∀ x, Decision (P x)}.

Lemma filter_all (l : list A) : Forall P l → filter P l = l.
Proof.
  induction 1 as [|x l Hx _ IH]; [done|].
  by rewrite filter_cons_True, IH.
Qed.

(** Filtering by [P] keeps the part of the list that a property [Q],
    stronger than [P], selects. *)
Lemma filter_keeps (Q : A → Prop) `{!∀ x, Decision (Q x)} (l : list A) :
  (∀ x, Q x → P x) → filter Q (filter P l) = filter Q l.
Proof.
  intros HQP. rewrite list_filter_filter.
  apply list_filter_iff. intros x. split; [tauto|auto].
Qed.

End filter_facts.

(** Under distinct keys, filtering one key out removes one element. *)
Lemma filter_remove_unique {A : Type} (key : A → string) (l : list A)
    (k : string) :
  NoDup (key <$> l) → k ∈ key <$> l →
  S (length (filter (λ x, key x ≠ k) l)) = length l.
Proof.
  induction l as [|x l IH]; simpl; intros Hnd Hin.
  - by apply elem_of_nil in Hin.
  - apply NoDup_cons in Hnd as [Hx Hnd].
    destruct (decide (key x = k)) as [<-|Hne].
    + rewrite filter_cons_False by (intros ?; done).
      rewrite filter_all; [done|].
      apply Forall_forall. intros y Hy Heq. apply Hx.
      rewrite <- Heq. by apply list_elem_of_fmap_2.
    + rewrite filter_cons_True by done. simpl. f_equal.
      apply IH; [done|]. by apply elem_of_cons in Hin as [?|?].
Qed.

(** ** The entity store *)

(** C1.  A confirmed [handleDeleteCourse id] keeps exactly the courses
    whose [id] differs and the notes and materials whose [courseId]
    differs, each in its order; what belongs to any other course is the same
    sequence before and after.  The three collections are unchanged when no
    course has that [id], in every store whose notes and materials name
    courses of the store; more generally when no course has that [id] and
    no note and no material refers to it. *)
Theorem handleDeleteCourse_cascade (s : Store) (id : string) :
  let s' := handleDeleteCourse id true s in
  (∀ c, c ∈ courses s' ↔ c ∈ courses s ∧ Course.id c ≠ id) ∧
  (∀ n, n ∈ notes s' ↔ n ∈ notes s ∧ Note.courseId n ≠ id) ∧
  (∀ m, m ∈ materials s' ↔ m ∈ materials s ∧ Material.courseId m ≠ id) ∧
  (courses s' `sublist_of` courses s ∧ notes s' `sublist_of` notes s ∧
   materials s' `sublist_of` materials s) ∧
  (∀ id', id' ≠ id →
     filter (λ c, Course.id c = id') (courses s')
       = filter (λ c, Course.id c = id') (courses s) ∧
     filter (λ n, Note.courseId n = id') (notes s')
       = filter (λ n, Note.courseId n = id') (notes s) ∧
     filter (λ m, Material.courseId m = id') (materials s')
       = filter (λ m, Material.courseId m = id') (materials s)) ∧
  (referential_integrity s →
   (∀ c, c ∈ courses s → Course.id c ≠ id) →
   s' = s) ∧
  ((∀ c, c ∈ courses s → Course.id c ≠ id) →
   (∀ n, n ∈ notes s → Note.courseId n ≠ id) →
   (∀ m, m ∈ materials s → Material.courseId m ≠ id) →
   s' = s).
Proof.
  assert (Hnoop : (∀ c, c ∈ courses s → Course.id c ≠ id) →
                  (∀ n, n ∈ notes s → Note.courseId n ≠ id) →
                  (∀ m, m ∈ materials s → Material.courseId m ≠ id) →
                  handleDeleteCourse id true s = s).
  { intros Hc Hn Hm. destruct s as [cs ns ms]; simpl in *.
    unfold handleDeleteCourse. simpl.
    f_equal; apply filter_all, Forall_forall; done. }
  simpl. split_and!.
  - intros c. rewrite list_elem_of_filter. tauto.
  - intros n. rewrite list_elem_of_filter. tauto.
  - intros m. rewrite list_elem_of_filter. tauto.
  - apply sublist_filter.
  - apply sublist_filter.
  - apply sublist_filter.
  - intros id' Hne. split_and!; apply filter_keeps; by intros ? ->.
  - intros [Hnotes Hmaterials] Hc. apply Hnoop; [done| |].
    + intros n Hn Heq. apply Hnotes in Hn.
      apply list_elem_of_fmap in Hn as (c & Hid & Hin).
      apply (Hc c Hin). congruence.
    + intros m Hm Heq. apply Hmaterials in Hm.
      apply list_elem_of_fmap in Hm as (c & Hid & Hin).
      apply (Hc c Hin). congruence.
  - exact Hnoop.
Qed.

(** No course of [sample_store] has the id ["Z"]. *)
Lemma handleDeleteCourse_cascade_witness :
  handleDeleteCourse "Z" true sample_store = sample_store.
Proof.
  destruct (handleDeleteCourse_cascade sample_store "Z")
    as (_ & _ & _ & _ & _ & Hnoop & _).
  apply Hnoop.
  - split; apply Forall_forall; repeat constructor; compute_done.
  - apply Forall_forall; repeat constructor; done.
Defined.

(** C9.  A confirmed [deleteNote id] keeps exactly the notes whose [id]
    differs, in their order, and changes neither the materials, those
    referring to the deleted note included, nor the courses.  Under
    distinct note ids, one note is removed when a note has that [id]. *)
Theorem deleteNote_no_cascade (s : Store) (id : string) :
  let s' := deleteNote id true s in
  materials s' = materials s ∧
  courses s' = courses s ∧
  (∀ n, n ∈ notes s' ↔ n ∈ notes s ∧ Note.id n ≠ id) ∧
  notes s' `sublist_of` notes s ∧
  (∀ id', id' ≠ id →
     filter (λ n, Note.id n = id') (notes s')
       = filter (λ n, Note.id n = id') (notes s)) ∧
  (∀ m, m ∈ materials s → Material.noteId m = Some id → m ∈ materials s') ∧
  (NoDup (Note.id <$> notes s) → id ∈ Note.id <$> notes s →
   S (length (notes s')) = length (notes s)).
Proof.
  simpl. split_and!; try done.
  - intros n. rewrite list_elem_of_filter. tauto.
  - apply sublist_filter.
  - intros id' Hne. apply filter_keeps. by intros ? ->.
  - apply filter_remove_unique.
Qed.

(** Deleting N1 of [sample_store]: one note less, its slides still there. *)
Lemma deleteNote_no_cascade_witness :
  S (length (notes (deleteNote "n1" true sample_store)))
    = length (notes sample_store) ∧
  slides ∈ materials (deleteNote "n1" true sample_store).
Proof.
  pose proof (deleteNote_no_cascade sample_store "n1") as (_ & _ & _ & _ & _ & Hm & Hlen).
  split.
  - apply Hlen; compute_done.
  - apply Hm; compute_done.
Defined.

(** C8.  Saving the form with an [activeNote] gives every note whose [id]
    is that of [activeNote] the new title and content and the current time,
    at the position it has; [id] and [courseId] of every note stay, every
    other note stays, and so do courses and materials.  When no note has
    that [id] the store is unchanged. *)
Theorem handleSaveNote_update (s : Store) (a : Note.t)
    (sel uuid title content : string) (now : Z) :
  let s' := handleSaveNote (Some a) sel uuid title content now s in
  courses s' = courses s ∧
  materials s' = materials s ∧
  length (notes s') = length (notes s) ∧
  (∀ i n, notes s !! i = Some n →
     Note.id n = Note.id a →
     notes s' !! i = Some (Note.mk (Note.id n) (Note.courseId n)
                                   title content now)) ∧
  (∀ i n, notes s !! i = Some n →
     Note.id n ≠ Note.id a → notes s' !! i = Some n) ∧
  Note.id <$> notes s' = Note.id <$> notes s ∧
  Note.courseId <$> notes s' = Note.courseId <$> notes s ∧
  ((∀ n, n ∈ notes s → Note.id n ≠ Note.id a) → s' = s).
Proof.
  simpl. split_and!; try done.
  - by rewrite length_fmap.
  - intros i n Hi Hid. rewrite list_lookup_fmap, Hi. simpl.
    by rewrite decide_True.
  - intros i n Hi Hid. rewrite list_lookup_fmap, Hi. simpl.
    by rewrite decide_False.
  - rewrite <- list_fmap_compose. apply list_fmap_ext.
    intros i n _. simpl. by case_decide.
  - rewrite <- list_fmap_compose. apply list_fmap_ext.
    intros i n _. simpl. by case_decide.
  - intros Hn. destruct s as [cs ns ms]; simpl in *. f_equal.
    rewrite <- (list_fmap_id ns) at 2. apply list_fmap_ext.
    intros i n Hi. simpl. rewrite decide_False; [done|].
    apply Hn. by eapply list_elem_of_lookup_2.
Qed.

(** Editing N2 of [sample_store], and editing a note that is gone. *)
Lemma handleSaveNote_update_witness :
  notes (handleSaveNote (Some N2) "A" "" "Genes" "DNA" 5000 sample_store) !! 2
    = Some (Note.mk "n2" "A" "Genes" "DNA" 5000) ∧
  notes (handleSaveNote (Some N2) "A" "" "Genes" "DNA" 5000 sample_store) !! 1
    = Some NB ∧
  handleSaveNote (Some (Note.mk "gone" "A" "" "" 0)) "A" "" "Genes" "DNA" 5000
    sample_store = sample_store.
Proof.
  pose proof (handleSaveNote_update sample_store N2 "A" "" "Genes" "DNA" 5000)
    as (_ & _ & _ & Hhit & Hmiss & _).
  pose proof (handleSaveNote_update sample_store (Note.mk "gone" "A" "" "" 0)
                "A" "" "Genes" "DNA" 5000) as (_ & _ & _ & _ & _ & _ & _ & Hnone).
  split_and!.
  - by apply (Hhit 2 N2).
  - by apply (Hmiss 1 NB).
  - apply Hnone. apply Forall_forall. repeat constructor; done.
Defined.

(** ** Reordering *)

Section positions.
Context {A : Type} (P : A → Prop) `{!∀ x, Decision (P x)}.

Lemma positions_from_shift (o : nat) (l : list A) :
  positions_from P (S o) l = S <$> positions_from P o l.
Proof.
  revert o. induction l as [|x l IH]; intros o; simpl; [done|].
  case_decide; simpl; by rewrite IH.
Qed.

Lemma positions_from_cons (x : A) (l : list A) :
  positions_from P 0 (x :: l)
  = (if decide (P x) then [0] else []) ++ (S <$> positions_from P 0 l).
Proof. simpl. rewrite positions_from_shift. by case_decide. Qed.

Lemma positions_from_length (l : list A) :
  length (positions_from P 0 l) = length (filter P l).
Proof.
  induction l as [|x l IH]; [done|].
  rewrite positions_from_cons, filter_cons.
  case_decide; simpl; rewrite length_fmap; by rewrite IH.
Qed.

(** The [r]-th element of the filtered list is the element at the [r]-th
    collected position. *)
Lemma filter_lookup_positions (l : list A) (r : nat) :
  filter P l !! r = positions_from P 0 l !! r ≫= (l !!.).
Proof.
  revert r. induction l as [|x l IH]; intros r; [done|].
  rewrite positions_from_cons, filter_cons.
  case_decide; simpl.
  - destruct r as [|r]; simpl; [done|].
    rewrite IH, list_lookup_fmap. by destruct (positions_from P 0 l !! r).
  - rewrite IH, list_lookup_fmap. by destruct (positions_from P 0 l !! r).
Qed.

Lemma positions_from_spec (l : list A) (k : nat) :
  k ∈ positions_from P 0 l ↔ ∃ x, l !! k = Some x ∧ P x.
Proof.
  revert k. induction l as [|x l IH]; intros k.
  - simpl. split; [by intros ?%elem_of_nil|by intros (? & ? & _)].
  - rewrite positions_from_cons, elem_of_app, list_elem_of_fmap.
    split.
    + intros [Hk|(k' & -> & Hk')].
      * case_decide; [|by apply elem_of_nil in Hk].
        apply list_elem_of_singleton in Hk as ->. eauto.
      * apply IH in Hk'. done.
    + intros (y & Hk & Hy). destruct k as [|k]; simpl in Hk.
      * left. simplify_eq. rewrite decide_True by done. by left.
      * right. exists k. split; [done|]. apply IH. eauto.
Qed.

Lemma positions_from_NoDup (l : list A) : NoDup (positions_from P 0 l).
Proof.
  induction l as [|x l IH]; [constructor|].
  rewrite positions_from_cons.
  assert (NoDup (S <$> positions_from P 0 l)) as Hnd
    by (apply NoDup_fmap_2; [intros ?? [=]; done|done]).
  case_decide; simpl; [|done].
  constructor; [|done].
  intros (k & [=] & _)%list_elem_of_fmap.
Qed.

(** Replacing an element by one that agrees with it on [P] moves no
    collected position. *)
Lemma positions_from_insert (l : list A) (i : nat) (x y : A) :
  l !! i = Some y → (P x ↔ P y) →
  positions_from P 0 (<[i := x]> l) = positions_from P 0 l.
Proof.
  revert i. induction l as [|z l IH]; intros i Hi Hxy; [done|].
  destruct i as [|i]; simpl in Hi.
  - simplify_eq. change (<[0 := x]> (y :: l)) with (x :: l).
    rewrite !positions_from_cons.
    destruct (decide (P x)), (decide (P y)); tauto || done.
  - change (<[S i := x]> (z :: l)) with (z :: <[i := x]> l).
    rewrite !positions_from_cons. by rewrite (IH i).
Qed.

(** Replacing an element outside [P] by another one outside [P] leaves the
    filtered list as it is. *)
Lemma filter_insert_outside (l : list A) (i : nat) (x y : A) :
  l !! i = Some y → ¬ P x → ¬ P y → filter P (<[i := x]> l) = filter P l.
Proof.
  revert i. induction l as [|z l IH]; intros i Hi Hx Hy; [done|].
  destruct i as [|i]; simpl in Hi.
  - simplify_eq. change (<[0 := x]> (y :: l)) with (x :: l).
    by rewrite !filter_cons_False.
  - change (<[S i := x]> (z :: l)) with (z :: <[i := x]> l).
    rewrite !filter_cons. by rewrite (IH i).
Qed.
End positions.

Lemma reduce_from_positions (sel : option string) (l : list Note.t)
    (o : nat) (acc : list nat) :
  reduce_from (λ acc note index,
                 if decide (in_course sel note) then acc ++ [index] else acc)
              o acc l
  = acc ++ positions_from (in_course sel) o l.
Proof.
  revert o acc. induction l as [|x l IH]; intros o acc; simpl.
  - by rewrite app_nil_r.
  - rewrite IH. case_decide; [|done]. by rewrite <- app_assoc.
Qed.

Lemma courseNotesIndices_positions (sel : option string) (l : list Note.t) :
  courseNotesIndices sel l = positions_from (in_course sel) 0 l.
Proof. unfold courseNotesIndices, reduce. by rewrite reduce_from_positions. Qed.

Lemma at_index_nat {A : Type} (l : list A) (i : Z) :
  (0 ≤ i)%Z → at_index l i = l !! Z.to_nat i.
Proof. intros Hi. unfold at_index. by rewrite decide_True. Qed.

Lemma at_index_None {A : Type} (l : list A) (i : Z) :
  ¬ (0 ≤ i < Z.of_nat (length l))%Z → at_index l i = None.
Proof.
  intros Hi. unfold at_index. case_decide; [|done].
  apply lookup_ge_None. lia.
Qed.

Lemma slot_set_inside {A : Type} (arr : list (option A)) (i : nat)
    (v : option A) :
  i < length arr → slot_set arr (Some i) v = <[i := v]> arr.
Proof. intros Hi. unfold slot_set. by rewrite decide_True. Qed.

Lemma slot_get_defined {A : Type} (l : list A) (i : nat) :
  slot_get (Some <$> l) (Some i) = l !! i.
Proof. unfold slot_get. rewrite list_lookup_fmap. by destruct (l !! i). Qed.

(** The array [handleMoveNote] builds when both subscripts are positions
    of notes. *)
Lemma swap_slots (l : list Note.t) (i j : nat) (ni nj : Note.t) :
  l !! i = Some ni → l !! j = Some nj →
  slot_set
    (slot_set (Some <$> l) (Some i) (slot_get (Some <$> l) (Some j)))
    (Some j) (slot_get (Some <$> l) (Some i))
  = Some <$> <[j := ni]> (<[i := nj]> l).
Proof.
  intros Hi Hj.
  pose proof (lookup_lt_Some _ _ _ Hi). pose proof (lookup_lt_Some _ _ _ Hj).
  rewrite !slot_get_defined, Hi, Hj.
  rewrite (slot_set_inside (Some <$> l)) by (by rewrite length_fmap).
  rewrite slot_set_inside by (by rewrite length_insert, length_fmap).
  by rewrite !list_fmap_insert.
Qed.

Lemma handleMoveNote_target (sel : option string) (rel : Z) (dir : Direction)
    (l : list Note.t) :
  handleMoveNote sel rel dir l
  = match at_index (courseNotesIndices sel l) (target_index rel dir) with
    | None => Some <$> l
    | Some t =>
        slot_set
          (slot_set (Some <$> l) (at_index (courseNotesIndices sel l) rel)
             (slot_get (Some <$> l) (Some t)))
          (Some t)
          (slot_get (Some <$> l) (at_index (courseNotesIndices sel l) rel))
    end.
Proof.
  unfold handleMoveNote, target_index.
  destruct dir; by destruct (at_index _ _).
Qed.

(** C2.  For a position [rel] of the rendered list of the selected course:
    moving the first note up or the last note down leaves the notes as they
    are; any other move exchanges the notes at the global positions of the
    within-course positions [rel] and [rel - 1] (up) or [rel + 1] (down),
    so that these two change places in the list of the course, and every
    other note, of this course or of another, keeps its place. *)
Theorem handleMoveNote_swaps_neighbours (sel : option string)
    (l : list Note.t) (rel : Z) (dir : Direction) :
  let view := currentCourseNotes sel l in
  let idxs := courseNotesIndices sel l in
  let rel' := target_index rel dir in
  (0 ≤ rel < Z.of_nat (length view))%Z →
  ∃ l', handleMoveNote sel rel dir l = Some <$> l' ∧
    (dir = up → rel = 0%Z → l' = l) ∧
    (dir = down → rel = (Z.of_nat (length view) - 1)%Z → l' = l) ∧
    ((0 ≤ rel' < Z.of_nat (length view))%Z →
     ∃ i j, idxs !! Z.to_nat rel = Some i ∧ idxs !! Z.to_nat rel' = Some j ∧
       i ≠ j ∧
       length l' = length l ∧
       l' !! i = l !! j ∧ l' !! j = l !! i ∧
       (∀ k, k ≠ i → k ≠ j → l' !! k = l !! k) ∧
       currentCourseNotes sel l' !! Z.to_nat rel = view !! Z.to_nat rel' ∧
       currentCourseNotes sel l' !! Z.to_nat rel' = view !! Z.to_nat rel ∧
       (∀ r, r ≠ Z.to_nat rel → r ≠ Z.to_nat rel' →
          currentCourseNotes sel l' !! r = view !! r) ∧
       (∀ other, other ≠ sel →
          currentCourseNotes other l' = currentCourseNotes other l)).
Proof.
  intros view idxs rel' Hrel.
  assert (length idxs = length view) as Hlen.
  { unfold idxs. rewrite courseNotesIndices_positions.
    apply positions_from_length. }
  rewrite handleMoveNote_target. fold idxs rel'.
  destruct (decide (0 ≤ rel' < Z.of_nat (length view))%Z) as [Hrel'|Hout].
  2:{ rewrite at_index_None by (by rewrite Hlen).
      exists l. split_and!; done. }
  rewrite !at_index_nat by lia.
  destruct (lookup_lt_is_Some_2 idxs (Z.to_nat rel)) as [i Hi]; [lia|].
  destruct (lookup_lt_is_Some_2 idxs (Z.to_nat rel')) as [j Hj]; [lia|].
  rewrite Hi, Hj.
  assert (Hpos : ∀ r k, idxs !! r = Some k →
                        ∃ n, l !! k = Some n ∧ in_course sel n).
  { intros r k Hr. apply (positions_from_spec (in_course sel)).
    rewrite <- courseNotesIndices_positions. by eapply list_elem_of_lookup_2. }
  destruct (Hpos _ _ Hi) as (ni & Hni & Pi).
  destruct (Hpos _ _ Hj) as (nj & Hnj & Pj).
  assert (NoDup idxs) as Hnd.
  { unfold idxs. rewrite courseNotesIndices_positions.
    apply positions_from_NoDup. }
  assert (rel ≠ rel') as Hne by (unfold rel', target_index; destruct dir; lia).
  assert (i ≠ j) as Hij.
  { intros ->. apply Hne.
    pose proof (NoDup_lookup _ _ _ _ Hnd Hi Hj). lia. }
  rewrite (swap_slots l i j ni nj) by done.
  set (l' := <[j := ni]> (<[i := nj]> l)).
  assert (Hli : i < length l) by by eapply lookup_lt_Some.
  assert (Hlj : j < length l) by by eapply lookup_lt_Some.
  assert (l' !! i = Some nj) as Hi'.
  { unfold l'. rewrite list_lookup_insert_ne by done.
    by apply list_lookup_insert_eq. }
  assert (l' !! j = Some ni) as Hj'.
  { unfold l'. apply list_lookup_insert_eq. by rewrite length_insert. }
  assert (∀ k, k ≠ i → k ≠ j → l' !! k = l !! k) as Hk'.
  { intros k ??. unfold l'. by rewrite !list_lookup_insert_ne. }
  assert (courseNotesIndices sel l' = idxs) as Hidxs'.
  { unfold idxs, l'. rewrite !courseNotesIndices_positions.
    rewrite (positions_from_insert _ _ j ni nj); [| |done].
    - by rewrite (positions_from_insert _ _ i nj ni).
    - by rewrite list_lookup_insert_ne. }
  assert (Hview : ∀ l0 r, currentCourseNotes sel l0 !! r
                          = courseNotesIndices sel l0 !! r ≫= (l0 !!.)).
  { intros l0 r. rewrite courseNotesIndices_positions.
    apply filter_lookup_positions. }
  exists l'. split; [done|]. split_and!.
  - intros -> ->. unfold rel' in Hrel'. simpl in Hrel'. lia.
  - intros -> ->. unfold rel' in Hrel'. simpl in Hrel'. lia.
  - intros _. exists i, j. split_and!; try done.
    + unfold l'. by rewrite !length_insert.
    + by rewrite Hi', Hnj.
    + by rewrite Hj', Hni.
    + unfold view. rewrite !Hview, Hidxs'. fold idxs. rewrite Hi, Hj. simpl.
      by rewrite Hi', Hnj.
    + unfold view. rewrite !Hview, Hidxs'. fold idxs. rewrite Hi, Hj. simpl.
      by rewrite Hj', Hni.
    + intros r Hr Hr'. unfold view. rewrite !Hview, Hidxs'. fold idxs.
      destruct (idxs !! r) as [k|] eqn:Hk; [simpl|done].
      apply Hk'.
      * intros ->. apply Hr. by apply (NoDup_lookup _ _ _ _ Hnd Hk Hi).
      * intros ->. apply Hr'. by apply (NoDup_lookup _ _ _ _ Hnd Hk Hj).
    + intros other Hother. unfold currentCourseNotes, l'.
      assert (∀ n, in_course sel n → ¬ in_course other n) as Hex.
      { unfold in_course. intros n <- <-. done. }
      rewrite (filter_insert_outside _ _ j ni nj); [| |by auto..].
      * by rewrite (filter_insert_outside _ _ i nj ni) by auto.
      * by rewrite list_lookup_insert_ne.
Qed.

(** Moving N3 up, with a note of course B between the notes of A. *)
Lemma handleMoveNote_swaps_neighbours_witness :
  ∃ l', handleMoveNote (Some "A") 2 up [N1; NB; N2; N3] = Some <$> l' ∧
        currentCourseNotes (Some "A") l' !! 2 = Some N2 ∧
        currentCourseNotes (Some "A") l' !! 1 = Some N3 ∧
        currentCourseNotes (Some "A") l' !! 0 = Some N1 ∧
        currentCourseNotes (Some "B") l' = [NB].
Proof.
  destruct (handleMoveNote_swaps_neighbours (Some "A") [N1; NB; N2; N3] 2 up)
    as (l' & Hl' & _ & _ & Hswap); [vm_compute; split; congruence|].
  destruct Hswap as (i & j & _ & _ & _ & _ & _ & _ & _ & H2 & H1 & H0 & HB);
    [vm_compute; split; congruence|].
  exists l'. split; [exact Hl'|]. split_and!.
  - exact H2.
  - exact H1.
  - by rewrite (H0 0%nat).
  - by rewrite (HB (Some "B")).
Defined.

(** P6: course A with the notes N1, N2, N3 in that order; moving N3 up
    gives the order N1, N3, N2. *)
Example handleMoveNote_scenario :
  handleMoveNote (Some "A") 2 up [N1; N2; N3] = [Some N1; Some N3; Some N2].
Proof. reflexivity. Qed.

(** A subscript outside the list of the course, next to a note of the
    course: the write through the [undefined] subscript is no element, and
    the second write puts [undefined] where the neighbour was. *)
Lemma handleMoveNote_hole (sel : option string) (l : list Note.t) (rel : Z)
    (dir : Direction) (j : nat) :
  ¬ (0 ≤ rel < Z.of_nat (length (currentCourseNotes sel l)))%Z →
  at_index (courseNotesIndices sel l) (target_index rel dir) = Some j →
  j < length l ∧ handleMoveNote sel rel dir l = <[j := None]> (Some <$> l).
Proof.
  intros Hrel Hj.
  assert (j < length l) as Hlt.
  { unfold at_index in Hj. case_decide; [|done].
    apply list_elem_of_lookup_2 in Hj.
    rewrite courseNotesIndices_positions in Hj.
    apply positions_from_spec in Hj as (n & Hn & _).
    by eapply lookup_lt_Some. }
  split; [done|].
  rewrite handleMoveNote_target, Hj.
  rewrite at_index_None.
  - simpl. by rewrite decide_True by (by rewrite length_fmap).
  - by rewrite courseNotesIndices_positions, positions_from_length.
Qed.

(** Every outcome of [handleMoveNote]: the notes as they were, two notes
    exchanged, or, for a subscript outside the list of the course, a slot
    holding [undefined]. *)
Lemma handleMoveNote_cases (sel : option string) (rel : Z) (dir : Direction)
    (l : list Note.t) :
  handleMoveNote sel rel dir l = Some <$> l ∨
  (∃ i j ni nj, l !! i = Some ni ∧ l !! j = Some nj ∧
     handleMoveNote sel rel dir l = Some <$> <[j := ni]> (<[i := nj]> l)) ∨
  (¬ (0 ≤ rel < Z.of_nat (length (currentCourseNotes sel l)))%Z ∧
   ∃ j, j < length l ∧
     handleMoveNote sel rel dir l = <[j := None]> (Some <$> l)).
Proof.
  destruct (at_index (courseNotesIndices sel l) (target_index rel dir))
    as [j|] eqn:Hj.
  2:{ left. by rewrite handleMoveNote_target, Hj. }
  right.
  destruct (decide (0 ≤ rel < Z.of_nat (length (currentCourseNotes sel l)))%Z)
    as [Hrel|Hrel].
  2:{ right. split; [done|]. exists j. by apply handleMoveNote_hole. }
  left.
  assert (Hpos : ∀ k, k ∈ courseNotesIndices sel l → is_Some (l !! k)).
  { intros k Hk. rewrite courseNotesIndices_positions in Hk.
    apply positions_from_spec in Hk as (n & -> & _). eauto. }
  destruct (lookup_lt_is_Some_2 (courseNotesIndices sel l) (Z.to_nat rel))
    as [i Hi].
  { rewrite courseNotesIndices_positions, positions_from_length.
    unfold currentCourseNotes in Hrel. lia. }
  destruct (Hpos i) as [ni Hni]; [by eapply list_elem_of_lookup_2|].
  destruct (Hpos j) as [nj Hnj].
  { unfold at_index in Hj. case_decide; [|done].
    by eapply list_elem_of_lookup_2. }
  exists i, j, ni, nj. split_and!; [done..|].
  rewrite handleMoveNote_target, Hj, at_index_nat, Hi by lia.
  by apply swap_slots.
Qed.

Lemma defined_notes_all (l : list Note.t) : defined_notes (Some <$> l) = Some l.
Proof. unfold defined_notes. by apply mapM_fmap_Some. Qed.

Lemma defined_notes_hole (l : list Note.t) (j : nat) :
  j < length l → defined_notes (<[j := None]> (Some <$> l)) = None.
Proof.
  intros Hj. unfold defined_notes. apply mapM_None, Exists_exists.
  exists None. split; [|done].
  apply list_elem_of_lookup. exists j.
  apply list_lookup_insert_eq. by rewrite length_fmap.
Qed.

(** C3 (as stated) fails at the subscript it names: with the subscript
    equal to the number of notes of the course and the direction up, or the
    subscript [-1] and the direction down, the array given to [setNotes]
    holds [undefined] in the place of a note, which is lost. *)
Theorem handleMoveNote_undefined_slot :
  handleMoveNote (Some "A") 3 up [N1; NB; N2; N3]
    = [Some N1; Some NB; Some N2; None] ∧
  handleMoveNote (Some "A") (-1) down [N1; NB; N2; N3]
    = [None; Some NB; Some N2; Some N3] ∧
  handleMoveNote (Some "A") 1 up [N1] = [None] ∧
  defined_notes (handleMoveNote (Some "A") 3 up [N1; NB; N2; N3]) = None.
Proof. split_and!; reflexivity. Qed.

(** ** Identifier uniqueness *)

Lemma NoDup_fmap_filter {A B : Type} (f : A → B) (P : A → Prop)
    `{!∀ x, Decision (P x)} (l : list A) :
  NoDup (f <$> l) → NoDup (f <$> filter P l).
Proof.
  induction l as [|x l IH]; [done|].
  rewrite fmap_cons, NoDup_cons. intros [Hx Hnd].
  rewrite filter_cons. case_decide; [|by apply IH].
  rewrite fmap_cons. apply NoDup_cons. split; [|by apply IH].
  intros (y & Hy & Hin%list_elem_of_filter)%list_elem_of_fmap.
  apply Hx, list_elem_of_fmap. exists y. tauto.
Qed.

Lemma NoDup_fmap_snoc {A B : Type} (f : A → B) (l : list A) (x : A) :
  NoDup (f <$> l) → f x ∉ f <$> l → NoDup (f <$> (l ++ [x])).
Proof.
  intros Hnd Hx. rewrite fmap_app. apply NoDup_app. split_and!; [done| |].
  - intros y Hy ->%list_elem_of_singleton. done.
  - apply NoDup_singleton.
Qed.

(** Exchanging two elements keeps their keys distinct. *)
Lemma NoDup_fmap_swap {A B : Type} (f : A → B) (l : list A) (i j : nat)
    (xi xj : A) :
  l !! i = Some xi → l !! j = Some xj →
  NoDup (f <$> l) → NoDup (f <$> <[j := xi]> (<[i := xj]> l)).
Proof.
  intros Hi Hj Hnd.
  pose proof (lookup_lt_Some _ _ _ Hi) as Hli.
  pose proof (lookup_lt_Some _ _ _ Hj) as Hlj.
  set (σ := λ k : nat, if decide (k = i) then j else if decide (k = j) then i else k).
  assert (Hσ : ∀ k, <[j := xi]> (<[i := xj]> l) !! k = l !! σ k).
  { intros k. unfold σ. destruct (decide (k = j)) as [->|Hkj].
    - rewrite list_lookup_insert_eq by (by rewrite length_insert).
      case_decide; by subst.
    - rewrite list_lookup_insert_ne by done.
      destruct (decide (k = i)) as [->|Hki].
      + by rewrite list_lookup_insert_eq.
      + by rewrite list_lookup_insert_ne. }
  assert (Hinj : ∀ a b, σ a = σ b → a = b).
  { intros a b. unfold σ. repeat case_decide; congruence. }
  apply NoDup_alt. intros a b y Ha Hb.
  rewrite list_lookup_fmap, Hσ, <- list_lookup_fmap in Ha.
  rewrite list_lookup_fmap, Hσ, <- list_lookup_fmap in Hb.
  apply Hinj. by eapply NoDup_lookup.
Qed.

Lemma handleSaveNote_ids (s : Store) (a : Note.t)
    (sel uuid title content : string) (now : Z) :
  Note.id <$> notes (handleSaveNote (Some a) sel uuid title content now s)
  = Note.id <$> notes s.
Proof.
  simpl. rewrite <- list_fmap_compose. apply list_fmap_ext.
  intros i n _. simpl. by case_decide.
Qed.

(** One operation keeps the ids distinct. *)
Lemma exec_unique_ids (o : Op) (s s' : Store) :
  unique_ids s → fresh_uuid o s → exec o s = Some s' → unique_ids s'.
Proof.
  intros (Hc & Hn & Hm) Hfresh Hexec. unfold unique_ids.
  destruct o; simpl in Hexec, Hfresh; simplify_option_eq.
  - split_and!; [|done..]. by apply NoDup_fmap_snoc.
  - destruct confirmed; [|done]. simpl.
    split_and!; by apply NoDup_fmap_filter.
  - split_and!; [done| |done]. by apply NoDup_fmap_snoc.
  - split_and!; [done| |done].
    pose proof (handleSaveNote_ids s activeNote "" "" title content now) as Hids.
    simpl in Hids. by rewrite Hids.
  - destruct confirmed; [|done]. simpl.
    split_and!; [done| |done]. by apply NoDup_fmap_filter.
  - simpl. split_and!; [done| |done].
    destruct (handleMoveNote_cases selectedCourseId relativeIndex direction
                (notes s)) as [Heq|[(i & j & ni & nj & Hi & Hj & Heq)|(_ & j & Hj & Heq)]];
      rewrite Heq in *.
    + rewrite defined_notes_all in Heqo. by simplify_eq.
    + rewrite defined_notes_all in Heqo. simplify_eq.
      by apply NoDup_fmap_swap.
    + by rewrite defined_notes_hole in Heqo.
  - split_and!; [done..|]. by apply NoDup_fmap_snoc.
  - simpl. split_and!; [done..|]. by apply NoDup_fmap_filter.
Qed.

(** A move from a rendered position is carried out. *)
Lemma exec_rendered (o : Op) (s : Store) :
  rendered_index o s → is_Some (exec o s).
Proof.
  destruct o; simpl; try by eauto.
  intros Hrel.
  destruct (handleMoveNote_cases selectedCourseId relativeIndex direction
              (notes s)) as [Heq|[(i & j & ni & nj & Hi & Hj & Heq)|(Hout & _)]];
    [| |done]; rewrite Heq, defined_notes_all; simpl; eauto.
Qed.

(** C6 (as amended).  From a store with distinct ids, after any sequence
    of store operations in which every id drawn from [crypto.randomUUID()]
    is new to its collection, the ids of the courses, of the notes and of
    the materials are distinct; and the sequence is carried out to its end
    when every move comes from a rendered position. *)
Theorem run_unique_ids (ops : list Op) (s : Store) :
  unique_ids s → fresh_uuids ops s →
  (∀ s', run ops s = Some s' → unique_ids s') ∧
  (rendered_indices ops s → is_Some (run ops s)).
Proof.
  revert s. induction ops as [|o ops IH]; intros s Huniq Hfresh.
  - split; [by intros ? [= <-]|by eauto].
  - destruct Hfresh as [Ho Hrest]. simpl. split.
    + intros s' Hrun. destruct (exec o s) as [s1|] eqn:Hexec; [|done].
      simpl in Hrun.
      by apply (IH s1); [eapply exec_unique_ids|..].
    + intros [Hr Hrs]. destruct (exec_rendered o s Hr) as [s1 Hexec].
      rewrite Hexec in *. simpl.
      by apply (IH s1); [eapply exec_unique_ids|..].
Qed.

(** The session [sample_ops] from [sample_store]. *)
Lemma run_unique_ids_witness :
  ∃ s', run sample_ops sample_store = Some s' ∧ unique_ids s'.
Proof.
  destruct (run_unique_ids sample_ops sample_store) as [Huniq Htotal];
    [compute_done..|].
  destruct Htotal as [s' Hs']; [compute_done|].
  exists s'. split; [exact Hs'|]. by apply Huniq.
Defined.

(** C6 (as stated) fails: the code does not compare a drawn id with the ids
    in use.  From a store with distinct ids, an [AddCourse] whose
    [crypto.randomUUID()] gives the id of the course that is there leaves
    two courses with one id. *)
Lemma run_uuid_collision :
  unique_ids uuid_store ∧
  run colliding_ops uuid_store
    = Some (mkStore [Course.mk physics_uuid "Physics" "Mechanics" THEME_COLOR 4000;
                     Course.mk physics_uuid "Chemistry" "Organic" THEME_COLOR 4001]
                    [] []) ∧
  ¬ unique_ids
      (mkStore [Course.mk physics_uuid "Physics" "Mechanics" THEME_COLOR 4000;
                Course.mk physics_uuid "Chemistry" "Organic" THEME_COLOR 4001]
               [] []).
Proof.
  split_and!; [compute_done|reflexivity|].
  intros (Hnd & _). apply NoDup_cons in Hnd as [Hin _]. apply Hin. left.
Qed.

(** ** Strings *)

Lemma string_app_cons (x : ascii) (a b : string) :
  String x a +:+ b = String x (a +:+ b).
Proof. reflexivity. Qed.

Lemma string_app_nil_l (b : string) : "" +:+ b = b.
Proof. reflexivity. Qed.

Create Rewrite HintDb str.
#[local] Hint Rewrite string_app_cons string_app_nil_l : str.

Ltac str_simpl :=
  simpl in *; repeat (progress autorewrite with str in *; simpl in *).

Lemma string_app_assoc (a b c : string) : (a +:+ b) +:+ c = a +:+ b +:+ c.
Proof. induction a as [|x a IH]; str_simpl; [done|]. by f_equal. Qed.

(** Appends to the right, characters to the front. *)
Ltac str_norm :=
  repeat first [ rewrite string_app_cons | rewrite string_app_assoc
               | rewrite string_app_nil_l ].

Lemma string_app_nil_r (a : string) : a +:+ "" = a.
Proof. induction a as [|x a IH]; str_simpl; [done|]. by f_equal. Qed.

Lemma string_app_length (a b : string) :
  String.length (a +:+ b) = String.length a + String.length b.
Proof. induction a as [|x a IH]; str_simpl; [done|]. by f_equal. Qed.

Lemma toLowerCase_app (a b : string) :
  toLowerCase (a +:+ b) = toLowerCase a +:+ toLowerCase b.
Proof. induction a as [|x a IH]; str_simpl; [done|]. by f_equal. Qed.

Lemma lower_char_white (c : ascii) : is_white (lower_char c) = is_white c.
Proof. destruct c as [[] [] [] [] [] [] [] []]; reflexivity. Qed.

Lemma lower_char_idemp (c : ascii) : lower_char (lower_char c) = lower_char c.
Proof. destruct c as [[] [] [] [] [] [] [] []]; reflexivity. Qed.

Lemma toLowerCase_idemp (s : string) :
  toLowerCase (toLowerCase s) = toLowerCase s.
Proof.
  induction s as [|c s IH]; simpl; [done|]. by rewrite lower_char_idemp, IH.
Qed.

Lemma trimStart_toLowerCase (s : string) :
  trimStart (toLowerCase s) = toLowerCase (trimStart s).
Proof.
  induction s as [|c s IH]; simpl; [done|].
  rewrite lower_char_white. by destruct (is_white c).
Qed.

Lemma trimEnd_toLowerCase (s : string) :
  trimEnd (toLowerCase s) = toLowerCase (trimEnd s).
Proof.
  induction s as [|c s IH]; simpl; [done|].
  rewrite IH, lower_char_white.
  destruct (trimEnd s); simpl; [|done]. by destruct (is_white c).
Qed.

(** Trimming and lower-casing commute: the query is matched trimmed. *)
Lemma trim_toLowerCase (s : string) :
  trim (toLowerCase s) = toLowerCase (trim s).
Proof. unfold trim. by rewrite trimStart_toLowerCase, trimEnd_toLowerCase. Qed.

Lemma trimEnd_empty (s : string) : trimEnd s = "" ↔ all_white s = true.
Proof.
  induction s as [|c s IH]; simpl; [done|].
  destruct (trimEnd s) eqn:Ht.
  - destruct (is_white c); simpl; [|by split].
    split; [intros _; by apply IH|done].
  - split; [done|]. intros [_ Hs]%andb_true_iff.
    by apply IH in Hs.
Qed.

Lemma trimStart_white (s : string) :
  all_white (trimStart s) = all_white s.
Proof.
  induction s as [|c s IH]; simpl; [done|].
  destruct (is_white c) eqn:Hc; simpl; [done|]. by rewrite Hc.
Qed.

Lemma trim_empty (s : string) : trim s = "" ↔ all_white s = true.
Proof. unfold trim. by rewrite trimEnd_empty, trimStart_white. Qed.

Lemma startsWith_spec (t s : string) :
  startsWith t s = true ↔ ∃ post, s = t +:+ post.
Proof.
  revert s. induction t as [|a t IH]; intros s; simpl.
  - split; [by exists s|done].
  - destruct s as [|b s].
    + split; [done|by intros (? & ?)].
    + rewrite andb_true_iff, bool_decide_eq_true, IH. split.
      * intros (-> & post & ->). by exists post.
      * intros (post & Heq). str_simpl. injection Heq as -> ->. eauto.
Qed.

Lemma includes_spec (s t : string) :
  includes s t = true ↔ ∃ pre post, s = pre +:+ t +:+ post.
Proof.
  induction s as [|c s IH].
  - simpl. rewrite orb_false_r, startsWith_spec. split.
    + intros (post & ->). by exists "", post.
    + intros ([|??] & post & Heq); str_simpl; [by exists post|done].
  - cbn [includes]. rewrite orb_true_iff, startsWith_spec, IH. split.
    + intros [(post & ->)|(pre & post & ->)].
      * by exists "", post.
      * by exists (String c pre), post.
    + intros ([|x pre] & post & Heq); str_simpl.
      * left. by exists post.
      * right. injection Heq as -> ->. by exists pre, post.
Qed.

(** ** The AI insight adapter *)

Lemma ai_run_cons (a : AppState) (e : AiEvent) (t : list AiEvent) :
  ai_run a (e :: t) = ai_run (ai_step a e) t.
Proof. reflexivity. Qed.









(** ** JSON text: the parser reads what the printer writes *)

Lemma skip_ws_head (c : ascii) (r : string) :
  is_json_ws c = false → skip_ws (String c r) = String c r.
Proof. intros Hc. simpl. by rewrite Hc. Qed.

(** *** Strings *)

Lemma parse_string_body_char (c : ascii) (tail : string) :
  parse_string_body (quote_char c +:+ tail)
  = '(body, rest) ← parse_string_body tail; Some (String c body, rest).
Proof.
  destruct c as [[] [] [] [] [] [] [] []];
    match goal with
    | |- context [quote_char ?c] =>
        let q := eval vm_compute in (quote_char c) in
        change (quote_char c) with q
    end;
    rewrite ?string_app_cons, ?string_app_nil_l; reflexivity.
Qed.

Lemma parse_string_body_quote (s rest : string) :
  parse_string_body (quote_body s +:+ String "034"%char rest) = Some (s, rest).
Proof.
  induction s as [|c s IH].
  - reflexivity.
  - cbn [quote_body]. rewrite string_app_assoc, parse_string_body_char, IH.
    reflexivity.
Qed.

(** *** Numbers *)

Lemma digit_of_char_None_terminated (rest : string) :
  terminated rest →
  match rest with
  | EmptyString => True
  | String c _ =>
      digit_of_char c = None ∧ N_of_ascii c ≠ 46%N ∧
      N_of_ascii c ≠ 101%N ∧ N_of_ascii c ≠ 69%N
  end.
Proof.
  destruct rest as [|c r]; [done|]. unfold digit_of_char. simpl.
  intros [-> | [-> | ->]]; done.
Qed.

Lemma take_digits_stop (rest : string) :
  no_digit_ahead rest →
  take_digits rest = (Decimal.Nil, rest).
Proof. destruct rest as [|c r]; [done|]. simpl. by intros ->. Qed.

Lemma take_digits_print (d : Decimal.uint) (rest : string) :
  no_digit_ahead rest →
  take_digits (NilEmpty.string_of_uint d +:+ rest) = (d, rest).
Proof.
  intros Hrest. induction d; cbn [NilEmpty.string_of_uint];
    rewrite ?string_app_cons, ?string_app_nil_l;
    [by apply take_digits_stop|..];
    cbn [take_digits]; rewrite IHd; reflexivity.
Qed.

Lemma to_uint_unorm (n : N) : Decimal.unorm (N.to_uint n) = N.to_uint n.
Proof.
  rewrite <- (DecimalN.Unsigned.to_of (N.to_uint n)).
  by rewrite DecimalN.Unsigned.of_to.
Qed.

(** The digits of a number are ["0"], or start with a digit other than
    [0]. *)
Lemma to_uint_shape (n : N) :
  N.to_uint n = Decimal.D0 Decimal.Nil ∨
  (N.to_uint n ≠ Decimal.Nil ∧ ∀ d, N.to_uint n ≠ Decimal.D0 d).
Proof.
  pose proof (to_uint_unorm n) as Hn.
  destruct (N.to_uint n) as [|d| | | | | | | | |] eqn:Hd;
    try (right; split; [done|by intros ?]).
  rewrite DecimalFacts.unorm_D0 in Hn. unfold Decimal.unorm in Hn.
  destruct (Decimal.nzhead d) eqn:Hz; try discriminate Hn.
  - injection Hn as <-. by left.
  - exfalso. by eapply DecimalFacts.nzhead_nonzero.
Qed.

Lemma take_int_print (n : N) (rest : string) :
  no_digit_ahead rest →
  take_int (NilEmpty.string_of_uint (N.to_uint n) +:+ rest)
  = Some (N.to_uint n, rest).
Proof.
  intros Hrest. destruct (to_uint_shape n) as [->|[Hnil Hzero]]; [done|].
  pose proof (take_digits_print (N.to_uint n) rest Hrest) as Htake.
  destruct (N.to_uint n) eqn:Hd; try done;
    try (by exfalso; eapply Hzero);
    cbn [NilEmpty.string_of_uint] in *; rewrite string_app_cons in *;
    unfold take_int; rewrite Htake; reflexivity.
Qed.

(** The first character of a printed integer. *)
Lemma string_of_uint_head (n : N) (rest : string) :
  ∃ c r, NilEmpty.string_of_uint (N.to_uint n) +:+ rest = String c r ∧
         is_Some (digit_of_char c).
Proof.
  destruct (to_uint_shape n) as [->|[Hnil _]]; [by eexists _, _|].
  destruct (N.to_uint n); try done;
    cbn [NilEmpty.string_of_uint]; rewrite string_app_cons;
    by eexists _, _.
Qed.

Lemma terminated_no_digit (rest : string) : terminated rest → no_digit_ahead rest.
Proof. intros H. by destruct rest, (digit_of_char_None_terminated _ H). Qed.

Lemma take_frac_none (rest : string) :
  terminated rest → take_frac rest = Some (None, rest).
Proof.
  intros H. destruct rest as [|c r]; [done|].
  destruct (digit_of_char_None_terminated _ H) as (_ & Hdot & _).
  unfold take_frac. by apply N.eqb_neq in Hdot as ->.
Qed.

Lemma take_exp_none (rest : string) :
  terminated rest → take_exp rest = Some (None, rest).
Proof.
  intros H. destruct rest as [|c r]; [done|].
  destruct (digit_of_char_None_terminated _ H) as (_ & _ & He & HE).
  unfold take_exp.
  by apply N.eqb_neq in He as ->; apply N.eqb_neq in HE as ->.
Qed.

(** A printed integer, sign and digits. *)
Lemma string_of_Z_split (n : Z) (rest : string) :
  string_of_Z n +:+ rest
  = (if decide (n < 0)%Z then "-" else "")
    +:+ NilEmpty.string_of_uint (N.to_uint (Z.abs_N n)) +:+ rest.
Proof. unfold string_of_Z. by rewrite string_app_assoc. Qed.

Lemma signed_abs (n : Z) :
  (if bool_decide (n < 0)%Z then (- Z.of_N (Z.abs_N n))%Z
   else Z.of_N (Z.abs_N n)) = n.
Proof. case_bool_decide; lia. Qed.

(** Reading the sign and the integer part of a printed integer. *)
Lemma number_prefix_print (n : Z) (rest : string) :
  no_digit_ahead rest →
  ∃ s1,
    (match string_of_Z n +:+ rest with
     | String c r =>
         if (N_of_ascii c =? 45)%N then (true, r)
         else (false, string_of_Z n +:+ rest)
     | EmptyString => (false, string_of_Z n +:+ rest)
     end) = (bool_decide (n < 0)%Z, s1) ∧
    take_int s1 = Some (N.to_uint (Z.abs_N n), rest).
Proof.
  intros Hrest. rewrite string_of_Z_split.
  exists (NilEmpty.string_of_uint (N.to_uint (Z.abs_N n)) +:+ rest).
  split; [|by apply take_int_print].
  case_decide.
  - rewrite string_app_cons, string_app_nil_l. simpl.
    by rewrite bool_decide_true.
  - rewrite string_app_nil_l, bool_decide_false by done.
    destruct (string_of_uint_head (Z.abs_N n) rest) as (c & r & -> & Hc).
    destruct (N_of_ascii c =? 45)%N eqn:Hm; [|done].
    apply N.eqb_eq in Hm. unfold digit_of_char in Hc. rewrite Hm in Hc.
    by destruct Hc.
Qed.

Lemma parse_number_print (n : Z) (rest : string) :
  terminated rest →
  parse_number (string_of_Z n +:+ rest) = Some (JNum n, rest).
Proof.
  intros Hrest.
  destruct (number_prefix_print n rest) as (s1 & Hsign & Hint);
    [by apply terminated_no_digit|].
  unfold parse_number. rewrite Hsign, Hint. cbn [mbind option_bind].
  rewrite take_frac_none by done. cbn [mbind option_bind].
  rewrite take_exp_none by done. cbn [mbind option_bind].
  by rewrite DecimalN.Unsigned.of_to, signed_abs.
Qed.

Lemma take_exp_print (e : Z) (rest : string) :
  no_digit_ahead rest →
  take_exp (String "e" (string_of_Z e +:+ rest)) = Some (Some e, rest).
Proof.
  intros Hrest. unfold take_exp.
  change (N_of_ascii "e" =? 101)%N with true. simpl orb. cbv iota.
  rewrite string_of_Z_split.
  pose proof (take_digits_print (N.to_uint (Z.abs_N e)) rest Hrest) as Htake.
  assert (N.to_uint (Z.abs_N e) ≠ Decimal.Nil) as Hnil.
  { destruct (to_uint_shape (Z.abs_N e)) as [->|[? _]]; done. }
  case_decide.
  - rewrite string_app_cons, string_app_nil_l.
    change (N_of_ascii "-" =? 45)%N with true. cbv iota.
    rewrite Htake. destruct (N.to_uint (Z.abs_N e)) eqn:Hd; try done;
      rewrite <- Hd, DecimalN.Unsigned.of_to; do 3 f_equal; lia.
  - rewrite string_app_nil_l.
    destruct (string_of_uint_head (Z.abs_N e) rest) as (c & r & Heq & Hc).
    rewrite Heq.
    assert ((N_of_ascii c =? 45)%N = false ∧ (N_of_ascii c =? 43)%N = false)
      as [-> ->].
    { unfold digit_of_char in Hc.
      split; apply N.eqb_neq; intros Hm; rewrite Hm in Hc; by destruct Hc. }
    rewrite <- Heq, Htake.
    destruct (N.to_uint (Z.abs_N e)) eqn:Hd; try done;
      rewrite <- Hd, DecimalN.Unsigned.of_to; do 3 f_equal; lia.
Qed.

Lemma parse_decimal_print (m e : Z) (rest : string) :
  terminated rest →
  parse_number (string_of_Z m +:+ "e" +:+ string_of_Z e +:+ rest)
  = Some (JDec m e, rest).
Proof.
  intros Hrest. rewrite string_app_cons, string_app_nil_l.
  destruct (number_prefix_print m (String "e" (string_of_Z e +:+ rest)))
    as (s1 & Hsign & Hint); [reflexivity|].
  unfold parse_number. rewrite Hsign, Hint. cbn [mbind option_bind].
  change (take_frac (String "e" ?r)) with (Some (@None Decimal.uint, String "e" r)).
  cbn [mbind option_bind].
  rewrite take_exp_print by (by apply terminated_no_digit).
  cbn [mbind option_bind default uint_length].
  rewrite DecimalFacts.app_nil_r, DecimalN.Unsigned.of_to, signed_abs.
  unfold id. by replace (e - Z.of_nat 0)%Z with e by lia.
Qed.

(** *** Values *)

Lemma json_nested_ind (P : json → Prop) :
  P JNull → (∀ b, P (JBool b)) → (∀ n, P (JNum n)) → (∀ m e, P (JDec m e)) →
  (∀ s, P (JStr s)) →
  (∀ l, Forall P l → P (JArr l)) →
  (∀ l, Forall (λ p, P p.2) l → P (JObj l)) →
  ∀ v, P v.
Proof.
  intros Hnull Hbool Hnum Hdec Hstr Harr Hobj.
  fix IH 1. intros [|b|n|m e|s|l|l].
  - apply Hnull.
  - apply Hbool.
  - apply Hnum.
  - apply Hdec.
  - apply Hstr.
  - apply Harr. induction l as [|x l IHl]; constructor; [apply IH|exact IHl].
  - apply Hobj. induction l as [|[k x] l IHl]; constructor; [apply IH|exact IHl].
Qed.

Lemma JSON_stringify_arr (l : list json) :
  JSON_stringify (JArr l) = "[" +:+ elements_text l +:+ "]".
Proof. reflexivity. Qed.

Lemma JSON_stringify_obj (l : list (string * json)) :
  JSON_stringify (JObj l) = "{" +:+ members_text l +:+ "}".
Proof. reflexivity. Qed.

Lemma concat_cons (sep x : string) (l : list string) :
  String.concat sep (x :: l)
  = x +:+ match l with [] => "" | _ => sep +:+ String.concat sep l end.
Proof. destruct l; simpl; [by rewrite string_app_nil_r|done]. Qed.

Lemma string_of_Z_head (n : Z) (tail : string) :
  ∃ c r, string_of_Z n +:+ tail = String c r ∧ number_start c = true.
Proof.
  rewrite string_of_Z_split. case_decide.
  - rewrite string_app_cons, string_app_nil_l. by eexists _, _.
  - rewrite string_app_nil_l.
    destruct (string_of_uint_head (Z.abs_N n) tail) as (c & r & -> & Hc).
    exists c, r. split; [done|].
    destruct c as [[] [] [] [] [] [] [] []]; try reflexivity;
      by destruct Hc as [? Hc]; vm_compute in Hc.
Qed.

Lemma number_start_dispatch (c : ascii) (r : string) (fuel : nat) :
  number_start c = true →
  parse_value (S fuel) (String c r) = parse_number (String c r) ∧
  is_json_ws c = false ∧ N_of_ascii c ≠ 93%N.
Proof.
  destruct c as [[] [] [] [] [] [] [] []]; intros H;
    try (by vm_compute in H); split_and!; reflexivity || done.
Qed.

Lemma parse_value_string (fuel : nat) (body : string) :
  parse_value (S fuel) (String "034"%char body)
  = '(str, rest) ← parse_string_body body; Some (JStr str, rest).
Proof. reflexivity. Qed.

Lemma parse_value_array (fuel : nat) (c : ascii) (r : string) :
  is_json_ws c = false → N_of_ascii c ≠ 93%N →
  parse_value (S fuel) (String "[" (String c r))
  = parse_elements fuel (String c r) [].
Proof.
  intros Hws Hc.
  change (parse_value (S fuel) (String "[" (String c r)))
    with (match skip_ws (String c r) with
          | String c' r' =>
              if (N_of_ascii c' =? 93)%N then Some (JArr [], r')
              else parse_elements fuel (String c r) []
          | EmptyString => None
          end).
  rewrite skip_ws_head by done. by apply N.eqb_neq in Hc as ->.
Qed.

Lemma parse_value_object (fuel : nat) (r : string) :
  parse_value (S fuel) (String "{" (String "034"%char r))
  = parse_members fuel (String "034"%char r) [].
Proof. reflexivity. Qed.

Lemma parse_elements_unfold (fuel : nat) (s : string) (acc : list json) :
  parse_elements (S fuel) s acc
  = '(v, r) ← parse_value fuel s;
    match skip_ws r with
    | String c r' =>
        if (N_of_ascii c =? 44)%N then parse_elements fuel r' (acc ++ [v])
        else if (N_of_ascii c =? 93)%N then Some (JArr (acc ++ [v]), r')
        else None
    | EmptyString => None
    end.
Proof. reflexivity. Qed.

Lemma parse_members_unfold (fuel : nat) (body : string)
    (acc : list (string * json)) :
  parse_members (S fuel) (String "034"%char body) acc
  = '(k, r1) ← parse_string_body body;
    match skip_ws r1 with
    | String c r2 =>
        if (N_of_ascii c =? 58)%N then
          '(v, r3) ← parse_value fuel r2;
          match skip_ws r3 with
          | String c' r4 =>
              if (N_of_ascii c' =? 44)%N
              then parse_members fuel r4 (obj_set k v acc)
              else if (N_of_ascii c' =? 125)%N
              then Some (JObj (obj_set k v acc), r4)
              else None
          | EmptyString => None
          end
        else None
    | EmptyString => None
    end.
Proof. reflexivity. Qed.

Lemma obj_set_fresh (k : string) (v : json) (o : list (string * json)) :
  k ∉ o.*1 → obj_set k v o = o ++ [(k, v)].
Proof.
  induction o as [|[k' v'] o IH]; [done|]. simpl.
  intros [Hne Hk]%not_elem_of_cons. rewrite decide_False by done.
  by rewrite IH.
Qed.

(** The first character of the text of a value. *)
Lemma JSON_stringify_head (v : json) (tail : string) :
  ∃ c r, JSON_stringify v +:+ tail = String c r ∧
         is_json_ws c = false ∧ N_of_ascii c ≠ 93%N.
Proof.
  destruct v as [|[]|n|m e|s|l|l]; try (by eexists _, _).
  - destruct (string_of_Z_head n tail) as (c & r & Heq & Hc).
    exists c, r. split; [done|]. by apply (number_start_dispatch c r 0).
  - cbn [JSON_stringify]. rewrite string_app_assoc.
    destruct (string_of_Z_head m (("e" +:+ string_of_Z e) +:+ tail))
      as (c & r & Heq & Hc).
    exists c, r. split; [done|]. by apply (number_start_dispatch c r 0).
Qed.

Lemma elements_text_cons (x : json) (l : list json) (tail : string) :
  elements_text (x :: l) +:+ tail
  = JSON_stringify x +:+
    match l with
    | [] => tail
    | _ => String "," (elements_text l +:+ tail)
    end.
Proof.
  unfold elements_text. cbn [map]. rewrite concat_cons, string_app_assoc.
  by destruct l.
Qed.

Lemma members_text_cons (k : string) (v : json) (l : list (string * json))
    (tail : string) :
  members_text ((k, v) :: l) +:+ tail
  = String "034"%char (quote_body k +:+ String "034"%char (String ":" (
      JSON_stringify v +:+
      match l with
      | [] => tail
      | _ => String "," (members_text l +:+ tail)
      end))).
Proof.
  unfold members_text. cbn [map]. rewrite concat_cons.
  unfold member_text at 1, quote. cbn [fst snd].
  str_norm. by destruct l.
Qed.

(** With fuel above the size of the value, the parser reads back the text
    of a well-formed value and stops behind it. *)
Lemma parse_stringify (fuel : nat) :
  (∀ v rest, json_size v < fuel → wf_json v → terminated rest →
     parse_value fuel (JSON_stringify v +:+ rest) = Some (v, rest)) ∧
  (∀ l acc rest, l ≠ [] → elements_size l < fuel → wf_elements l →
     parse_elements fuel (elements_text l +:+ String "]" rest) acc
     = Some (JArr (acc ++ l), rest)) ∧
  (∀ l acc rest, l ≠ [] → members_size l < fuel → wf_members l →
     NoDup ((acc ++ l).*1) →
     parse_members fuel (members_text l +:+ String "}" rest) acc
     = Some (JObj (acc ++ l), rest)).
Proof.
  induction fuel as [|fuel (IHv & IHe & IHm)]; [split_and!; intros; lia|].
  split_and!.
  - intros v rest Hsize Hwf Hrest.
    destruct v as [|[]|n|m e|s|l|l]; try reflexivity.
    + destruct (string_of_Z_head n rest) as (c & r & Heq & Hc).
      cbn [JSON_stringify]. rewrite Heq.
      destruct (number_start_dispatch c r fuel Hc) as (-> & _).
      rewrite <- Heq. by apply parse_number_print.
    + cbn [JSON_stringify]. rewrite !string_app_assoc.
      destruct (string_of_Z_head m ("e" +:+ string_of_Z e +:+ rest))
        as (c & r & Heq & Hc).
      rewrite Heq.
      destruct (number_start_dispatch c r fuel Hc) as (-> & _).
      rewrite <- Heq. by apply parse_decimal_print.
    + cbn [JSON_stringify]. unfold quote.
      rewrite string_app_cons, parse_value_string.
      rewrite string_app_assoc, string_app_cons, string_app_nil_l.
      by rewrite parse_string_body_quote.
    + rewrite JSON_stringify_arr. str_norm.
      destruct l as [|x l]; [reflexivity|].
      rewrite elements_text_cons.
      destruct (JSON_stringify_head x
                  match l with
                  | [] => String "]" rest
                  | _ => String "," (elements_text l +:+ String "]" rest)
                  end) as (c & r & Heq & Hws & Hc).
      rewrite Heq, parse_value_array by done.
      rewrite <- Heq, <- elements_text_cons.
      apply (IHe (x :: l) []); [done| |exact Hwf].
      cbn [json_size] in Hsize. unfold elements_size. lia.
    + rewrite JSON_stringify_obj. str_norm.
      destruct l as [|[k x] l]; [reflexivity|].
      rewrite members_text_cons, parse_value_object.
      rewrite <- members_text_cons.
      destruct Hwf as [Hnd Hwf].
      apply (IHm ((k, x) :: l) []); [done| |exact Hwf|exact Hnd].
      cbn [json_size] in Hsize. unfold members_size. lia.
  - intros l acc rest Hl Hsize Hwf.
    destruct l as [|x l]; [done|].
    destruct Hwf as [Hx Hwf]. cbn [elements_size foldr] in Hsize.
    fold (elements_size l) in Hsize.
    rewrite elements_text_cons, parse_elements_unfold.
    rewrite IHv; [|lia|done|by destruct l; simpl; auto].
    cbn [mbind option_bind].
    destruct l as [|y l].
    + rewrite skip_ws_head by done. reflexivity.
    + rewrite skip_ws_head by done.
      change (N_of_ascii "," =? 44)%N with true. cbv iota.
      rewrite IHe; [|done|lia|done].
      by rewrite <- app_assoc.
  - intros l acc rest Hl Hsize Hwf Hnd.
    destruct l as [|[k x] l]; [done|].
    destruct Hwf as [Hx Hwf]. cbn [members_size foldr snd] in Hsize.
    fold (members_size l) in Hsize.
    rewrite members_text_cons, parse_members_unfold.
    rewrite parse_string_body_quote. cbn [mbind option_bind].
    rewrite skip_ws_head by done.
    change (N_of_ascii ":" =? 58)%N with true. cbv iota.
    rewrite IHv; [|lia|done|by destruct l; simpl; auto].
    cbn [mbind option_bind].
    assert ((k ∉ acc.*1) ∧ NoDup (((acc ++ [(k, x)]) ++ l).*1)) as [Hk Hnd'].
    { rewrite <- app_assoc. split; [|done].
      rewrite fmap_app in Hnd. apply NoDup_app in Hnd as (_ & Hdisj & _).
      intros Hin. apply (Hdisj k Hin). left. }
    rewrite obj_set_fresh by done.
    destruct l as [|y l].
    + rewrite skip_ws_head by done. reflexivity.
    + rewrite skip_ws_head by done.
      change (N_of_ascii "," =? 44)%N with true. cbv iota.
      rewrite IHm; [|done|lia|done|done].
      by rewrite <- app_assoc.
Qed.

Lemma string_of_Z_length (n : Z) : (1 ≤ String.length (string_of_Z n))%nat.
Proof.
  destruct (string_of_Z_head n "") as (c & r & Heq & _).
  rewrite string_app_nil_r in Heq. rewrite Heq. simpl. lia.
Qed.

Lemma concat_length (x : string) (l : list string) :
  String.length (String.concat "," (x :: l))
  = String.length x
    + match l with [] => 0 | _ => S (String.length (String.concat "," l)) end.
Proof.
  rewrite concat_cons, string_app_length. destruct l; [done|].
  by rewrite string_app_cons, string_app_nil_l.
Qed.

(** The text of a value is at least as long as the value is large. *)
Lemma json_size_length (v : json) :
  (json_size v ≤ String.length (JSON_stringify v))%nat.
Proof.
  induction v as [|[]|n|m e|s|l IH|l IH] using json_nested_ind;
    try (simpl; lia).
  - apply string_of_Z_length.
  - cbn [JSON_stringify json_size]. rewrite string_app_length.
    pose proof (string_of_Z_length m). lia.
  - rewrite JSON_stringify_arr. cbn [json_size]. fold (elements_size l).
    rewrite string_app_cons, string_app_nil_l. cbn [String.length].
    rewrite string_app_length. simpl String.length.
    enough (elements_size l ≤ S (String.length (elements_text l)))%nat by lia.
    induction IH as [|x l Hx _ IHl]; [simpl; lia|].
    unfold elements_text. cbn [map]. rewrite concat_length.
    cbn [elements_size foldr]. fold (elements_size l).
    fold (elements_text l). destruct l; cbn [map]; [simpl; lia|lia].
  - rewrite JSON_stringify_obj. cbn [json_size]. fold (members_size l).
    rewrite string_app_cons, string_app_nil_l. cbn [String.length].
    rewrite string_app_length. simpl String.length.
    enough (members_size l ≤ S (String.length (members_text l)))%nat by lia.
    induction IH as [|[k x] l Hx _ IHl]; [simpl; lia|].
    unfold members_text. cbn [map]. rewrite concat_length.
    cbn [members_size foldr]. fold (members_size l).
    fold (members_text l).
    assert (json_size x ≤ String.length (member_text (k, x)))%nat.
    { unfold member_text. rewrite !string_app_length. simpl in *. lia. }
    destruct l; cbn [map snd] in *; [simpl in *; lia|lia].
Qed.

(** [JSON.parse(JSON.stringify(v))] is [v]. *)
Lemma JSON_parse_stringify (v : json) :
  wf_json v → JSON_parse (JSON_stringify v) = Some v.
Proof.
  intros Hwf. unfold JSON_parse.
  destruct (parse_stringify (S (String.length (JSON_stringify v))))
    as (Hv & _).
  rewrite <- (string_app_nil_r (JSON_stringify v)) at 2.
  rewrite Hv; [done| |done..].
  pose proof (json_size_length v). lia.
Qed.

(** The text of an array is not empty: the guard [if (saved)] lets it
    through. *)
Lemma JSON_stringify_arr_truthy (l : list json) :
  truthy (Some (JSON_stringify (JArr l))) = true.
Proof. by rewrite JSON_stringify_arr. Qed.

(** ** Persistence *)

Lemma wf_json_arr (l : list json) : Forall wf_json l → wf_json (JArr l).
Proof. induction 1; simpl; auto. Qed.

Lemma wf_js_of_course (c : Course.t) : wf_json (js_of_course c).
Proof. split; [compute_done|simpl; tauto]. Qed.

Lemma wf_js_of_note (n : Note.t) : wf_json (js_of_note n).
Proof. split; [compute_done|simpl; tauto]. Qed.

Lemma wf_js_of_material (m : Material.t) : wf_json (js_of_material m).
Proof.
  unfold js_of_material. destruct (Material.noteId m);
    (split; [compute_done|simpl; tauto]).
Qed.

Lemma course_of_js_of_course (c : Course.t) :
  course_of_js (js_of_course c) = Some c.
Proof. by destruct c. Qed.

Lemma note_of_js_of_note (n : Note.t) : note_of_js (js_of_note n) = Some n.
Proof. by destruct n. Qed.

Lemma material_of_js_of_material (m : Material.t) :
  material_of_js (js_of_material m) = Some m.
Proof. by destruct m as [? ? [?|] ? [] ? ?]. Qed.

(** Reading the entities back at their types gives the store. *)
Lemma store_of_loaded_js_of_store (s : Store) :
  store_of_loaded (js_of_store s) = Some s.
Proof.
  destruct s as [cs ns ms]. unfold store_of_loaded, js_of_store. simpl.
  rewrite (mapM_fmap_Some _ _ cs course_of_js_of_course).
  rewrite (mapM_fmap_Some _ _ ns note_of_js_of_note).
  by rewrite (mapM_fmap_Some _ _ ms material_of_js_of_material).
Qed.

(** A cell written by [save] is read back by [load]. *)
Lemma load_cell_stringify (l : list json) (cell : json) :
  Forall wf_json l →
  load_cell (Some (JSON_stringify (JArr l))) cell = Some (JArr l).
Proof.
  intros Hwf. unfold load_cell. rewrite JSON_stringify_arr_truthy.
  by apply JSON_parse_stringify, wf_json_arr.
Qed.

Lemma save_lookup (s : Store) (ls : gmap string string) :
  save s ls !! "uni_courses"
    = Some (JSON_stringify (JArr (js_of_course <$> courses s))) ∧
  save s ls !! "uni_notes"
    = Some (JSON_stringify (JArr (js_of_note <$> notes s))) ∧
  save s ls !! "uni_materials"
    = Some (JSON_stringify (JArr (js_of_material <$> materials s))) ∧
  (∀ k, k ∉ storage_keys → save s ls !! k = ls !! k).
Proof.
  unfold save, setItem. split_and!.
  - do 2 (rewrite lookup_insert_ne by done). by rewrite lookup_insert_eq.
  - rewrite lookup_insert_ne by done. by rewrite lookup_insert_eq.
  - by rewrite lookup_insert_eq.
  - intros k Hk. unfold storage_keys in Hk.
    rewrite !not_elem_of_cons in Hk. destruct Hk as (? & ? & ? & _).
    by rewrite !lookup_insert_ne.
Qed.

(** C4.  Saving a store of valid entities writes each collection as its
    own text under its own key, leaving every other key of the storage as
    it was; loading from the storage so written gives back the three
    collections, entity by entity and field by field, in their order,
    whatever the cells held before. *)
Theorem load_save_roundtrip (s : Store) (ls : gmap string string)
    (st : Loaded) :
  valid_store s →
  load (save s ls) st = Some (js_of_store s) ∧
  store_of_loaded (js_of_store s) = Some s ∧
  (load (save s ls) st ≫= store_of_loaded) = Some s ∧
  (∀ k, k ∉ storage_keys → save s ls !! k = ls !! k).
Proof.
  intros _.
  destruct (save_lookup s ls) as (Hc & Hn & Hm & Hother).
  assert (load (save s ls) st = Some (js_of_store s)) as Hload.
  { unfold load. rewrite Hc, Hn, Hm.
    rewrite !load_cell_stringify; [done|..];
      apply Forall_fmap, Forall_true; intros x.
    - apply wf_js_of_course.
    - apply wf_js_of_note.
    - apply wf_js_of_material. }
  split_and!; [done|apply store_of_loaded_js_of_store| |done].
  rewrite Hload. apply store_of_loaded_js_of_store.
Qed.

(** [sample_store] saved to an empty storage and loaded. *)
Lemma load_save_roundtrip_witness :
  (load (save sample_store ∅) initial ≫= store_of_loaded) = Some sample_store.
Proof.
  by apply (load_save_roundtrip sample_store ∅ initial); compute_done.
Defined.

Lemma load_cell_skipped (saved : option string) (cell : json) :
  saved = None ∨ saved = Some "" → load_cell saved cell = Some cell.
Proof. by intros [->| ->]. Qed.

Lemma load_cell_parsed (text : string) (cell : json) :
  text ≠ "" → load_cell (Some text) cell = JSON_parse text.
Proof.
  intros Hne. unfold load_cell, truthy. by rewrite bool_decide_false.
Qed.

Lemma load_Some (ls : gmap string string) (st r : Loaded) :
  load ls st = Some r ↔
  ∀ k, k ∈ storage_keys → load_cell (ls !! k) (cell_of k st) = Some (cell_of k r).
Proof.
  unfold load, storage_keys. split.
  - intros Hload k Hk. simplify_option_eq.
    repeat (apply elem_of_cons in Hk as [->|Hk]; [done|]).
    by apply elem_of_nil in Hk.
  - intros Hk.
    pose proof (Hk "uni_courses" ltac:(set_solver)) as Hc.
    pose proof (Hk "uni_notes" ltac:(set_solver)) as Hn.
    pose proof (Hk "uni_materials" ltac:(set_solver)) as Hm.
    change (cell_of "uni_courses" ?l) with (loaded_courses l) in Hc.
    change (cell_of "uni_notes" ?l) with (loaded_notes l) in Hn.
    change (cell_of "uni_materials" ?l) with (loaded_materials l) in Hm.
    rewrite Hc, Hn, Hm. simpl. by destruct r.
Qed.

Lemma load_None (ls : gmap string string) (st : Loaded) :
  load ls st = None ↔
  ∃ k, k ∈ storage_keys ∧ load_cell (ls !! k) (cell_of k st) = None.
Proof.
  unfold load, storage_keys. split.
  - intros Hload.
    destruct (load_cell (ls !! "uni_courses") _) eqn:Hc;
      [|exists "uni_courses"; split; [set_solver|done]].
    destruct (load_cell (ls !! "uni_notes") _) eqn:Hn;
      [|exists "uni_notes"; split; [set_solver|done]].
    destruct (load_cell (ls !! "uni_materials") _) eqn:Hm;
      [done|exists "uni_materials"; split; [set_solver|done]].
  - intros (k & Hk & Hnone).
    repeat (apply elem_of_cons in Hk as [->|Hk];
            [change (cell_of _ st) with (loaded_courses st) in Hnone ||
             change (cell_of _ st) with (loaded_notes st) in Hnone ||
             change (cell_of _ st) with (loaded_materials st) in Hnone;
             rewrite Hnone; simpl;
             repeat (destruct (load_cell _ _); simpl; try done)|]).
    by apply elem_of_nil in Hk.
Qed.

(** C5 (as amended).  [load] reads the three keys and nothing else, and
    fills each cell from the blob of its key alone.  A key that is absent,
    or whose blob is the empty string, leaves its cell as it is and is no
    cause of failure.  A blob that is present, not empty and malformed
    makes [load] fail with the error of [JSON.parse]; [load] fails in no
    other case. *)
Theorem load_absent_and_malformed (ls : gmap string string) (st : Loaded) :
  (∀ ls', (∀ k, k ∈ storage_keys → ls' !! k = ls !! k) →
          load ls' st = load ls st) ∧
  (∀ k r, k ∈ storage_keys → load ls st = Some r →
          ls !! k = None ∨ ls !! k = Some "" → cell_of k r = cell_of k st) ∧
  (∀ k r text, k ∈ storage_keys → load ls st = Some r →
          ls !! k = Some text → text ≠ "" →
          JSON_parse text = Some (cell_of k r)) ∧
  (∀ k text, k ∈ storage_keys → ls !! k = Some text → text ≠ "" →
          JSON_parse text = None → load ls st = None) ∧
  (load ls st = None →
   ∃ k text, k ∈ storage_keys ∧ ls !! k = Some text ∧ text ≠ "" ∧
             JSON_parse text = None) ∧
  ((∀ k, k ∈ storage_keys → ls !! k = None ∨ ls !! k = Some "") →
   load ls st = Some st).
Proof.
  split_and!.
  - intros ls' Heq. unfold load.
    by rewrite !Heq by (unfold storage_keys; set_solver).
  - intros k r Hk Hload Habs.
    pose proof (proj1 (load_Some ls st r) Hload k Hk) as Hcell.
    rewrite load_cell_skipped in Hcell by done. by injection Hcell.
  - intros k r text Hk Hload Htext Hne.
    pose proof (proj1 (load_Some ls st r) Hload k Hk) as Hcell.
    by rewrite Htext, load_cell_parsed in Hcell.
  - intros k text Hk Htext Hne Hbad.
    apply load_None. exists k. split; [done|].
    by rewrite Htext, load_cell_parsed.
  - intros (k & Hk & Hnone)%load_None.
    destruct (ls !! k) as [text|] eqn:Htext; [|done].
    destruct (decide (text = "")) as [->|Hne]; [done|].
    rewrite load_cell_parsed in Hnone by done. by exists k, text.
  - intros Habs. apply load_Some. intros k Hk.
    by apply load_cell_skipped, Habs.
Qed.

(** A cut-off notes blob, and an empty storage. *)
Lemma load_absent_and_malformed_witness :
  load broken_storage initial = None ∧
  load (∅ : gmap string string) initial = Some initial.
Proof.
  split.
  - apply (load_absent_and_malformed broken_storage initial)
      with (k := "uni_notes") (text := "[{"); compute_done.
  - apply (load_absent_and_malformed ∅ initial).
    intros k _. left. apply lookup_empty.
Defined.

(** C5 (as stated) fails: the courses blob of [empty_blob_storage] is
    present and is no JSON text, and [load] goes through, the cell left as
    it was. *)
Lemma load_empty_blob_not_propagated :
  empty_blob_storage !! "uni_courses" = Some "" ∧
  JSON_parse "" = None ∧
  load empty_blob_storage initial = Some initial.
Proof. split_and!; reflexivity. Qed.

(** * Further properties of the component *)

(** ** Creating and deleting *)

Lemma filter_snoc_out {A : Type} (P : A → Prop) `{!∀ x, Decision (P x)}
    (l : list A) (x : A) :
  Forall P l → ¬ P x → filter P (l ++ [x]) = l.
Proof.
  intros Hl Hx. rewrite filter_app, filter_all by done.
  rewrite filter_cons_False by done. apply app_nil_r.
Qed.

Lemma Forall_key_ne {A : Type} (key : A → string) (l : list A) (k : string) :
  k ∉ key <$> l → Forall (λ x, key x ≠ k) l.
Proof.
  intros Hk. apply Forall_forall. intros x Hx Heq. apply Hk.
  rewrite <- Heq. by apply list_elem_of_fmap_2.
Qed.

(** X1.  An entity created with an id that is new to its collection and
    then deleted by that id leaves the store as it was before the two
    steps: a course (when no note and no material carries the id as
    [courseId]), a note, a material. *)
Theorem create_then_delete_restores (s : Store) (uuid : string) :
  (∀ name description now,
     uuid ∉ Course.id <$> courses s →
     uuid ∉ Note.courseId <$> notes s →
     uuid ∉ Material.courseId <$> materials s →
     handleDeleteCourse uuid true
       (handleAddCourse uuid name description now s) = s) ∧
  (∀ sel title content now,
     uuid ∉ Note.id <$> notes s →
     deleteNote uuid true
       (handleSaveNote None sel uuid title content now s) = s) ∧
  (∀ target sel name url type now,
     uuid ∉ Material.id <$> materials s →
     handleDeleteMaterial uuid
       (handleAddMaterial target sel uuid name url type now s) = s).
Proof.
  destruct s as [cs ns ms]. split_and!.
  - intros name description now Hc Hn Hm.
    unfold handleDeleteCourse, handleAddCourse. simpl. f_equal.
    + apply filter_snoc_out; [by apply Forall_key_ne|]. simpl. by intros ?.
    + by apply filter_all, Forall_key_ne.
    + by apply filter_all, Forall_key_ne.
  - intros sel title content now Hn.
    unfold deleteNote, handleSaveNote. simpl. f_equal.
    apply filter_snoc_out; [by apply Forall_key_ne|]. simpl. by intros ?.
  - intros target sel name url type now Hm.
    unfold handleDeleteMaterial, handleAddMaterial. simpl. f_equal.
    apply filter_snoc_out; [by apply Forall_key_ne|]. simpl. by intros ?.
Qed.

(** Course "C", note "n9" and material "m9" are new to [sample_store]. *)
Lemma create_then_delete_restores_witness :
  handleDeleteCourse "C" true
    (handleAddCourse "C" "Physics" "Mechanics" 4000 sample_store)
    = sample_store ∧
  deleteNote "n9" true
    (handleSaveNote None "A" "n9" "Cells" "Mitosis" 4001 sample_store)
    = sample_store ∧
  handleDeleteMaterial "m9"
    (handleAddMaterial None "A" "m9" "Atlas" "/files/atlas.pdf" File 4002
       sample_store)
    = sample_store.
Proof.
  destruct (create_then_delete_restores sample_store "C") as (Hc & _ & _).
  destruct (create_then_delete_restores sample_store "n9") as (_ & Hn & _).
  destruct (create_then_delete_restores sample_store "m9") as (_ & _ & Hm).
  split_and!.
  - apply Hc; compute_done.
  - apply Hn; compute_done.
  - apply Hm; compute_done.
Defined.

Lemma positions_from_snoc {A : Type} (P : A → Prop) `{!∀ x, Decision (P x)}
    (l : list A) (x : A) (o : nat) :
  positions_from P o (l ++ [x])
  = positions_from P o l ++ (if decide (P x) then [o + length l] else []).
Proof.
  revert o. induction l as [|y l IH]; intros o.
  - simpl. rewrite Nat.add_0_r. by case_decide.
  - cbn [app positions_from length]. rewrite IH.
    replace (S o + length l) with (o + S (length l)) by lia.
    by destruct (decide (P y)).
Qed.

(** X2.  A new note is the last note of its course in the rendered list,
    at the global position that was the length of the sequence; the list of
    every other course, and courses and materials, are unchanged. *)
Theorem handleSaveNote_appends_to_course (s : Store)
    (sel uuid title content : string) (now : Z) :
  let s' := handleSaveNote None sel uuid title content now s in
  let newNote := Note.mk uuid sel title content now in
  currentCourseNotes (Some sel) (notes s')
    = currentCourseNotes (Some sel) (notes s) ++ [newNote] ∧
  courseNotesIndices (Some sel) (notes s')
    = courseNotesIndices (Some sel) (notes s) ++ [length (notes s)] ∧
  (∀ other, other ≠ Some sel →
     currentCourseNotes other (notes s') = currentCourseNotes other (notes s) ∧
     courseNotesIndices other (notes s') = courseNotesIndices other (notes s)) ∧
  courses s' = courses s ∧ materials s' = materials s.
Proof.
  simpl. unfold currentCourseNotes. split_and!; try done.
  - rewrite filter_app, filter_cons_True by done. done.
  - rewrite !courseNotesIndices_positions, positions_from_snoc.
    by rewrite decide_True by done.
  - intros other Hother.
    assert (¬ in_course other (Note.mk uuid sel title content now)) as Hout.
    { unfold in_course. simpl. congruence. }
    split.
    + rewrite filter_app, filter_cons_False by done. apply app_nil_r.
    + rewrite !courseNotesIndices_positions, positions_from_snoc.
      rewrite decide_False by done. apply app_nil_r.
Qed.

(** A note added to course A: the list of course B stays. *)
Lemma handleSaveNote_appends_to_course_witness :
  currentCourseNotes (Some "B")
    (notes (handleSaveNote None "A" "n9" "Mitosis" "Phases" 5000 sample_store))
  = [NB] ∧
  courseNotesIndices (Some "A")
    (notes (handleSaveNote None "A" "n9" "Mitosis" "Phases" 5000 sample_store))
  = [0; 2; 3; 4].
Proof.
  destruct (handleSaveNote_appends_to_course sample_store
              "A" "n9" "Mitosis" "Phases" 5000) as (_ & Hidx & Hother & _).
  split; [|exact Hidx].
  destruct (Hother (Some "B")) as [Hnotes _]; [done|exact Hnotes].
Defined.

(** ** Deleting *)

Lemma filter_comm {A : Type} (P Q : A → Prop) `{!∀ x, Decision (P x)}
    `{!∀ x, Decision (Q x)} (l : list A) :
  filter P (filter Q l) = filter Q (filter P l).
Proof.
  rewrite !list_filter_filter. apply list_filter_iff. intros x. tauto.
Qed.

Lemma filter_idemp {A : Type} (P : A → Prop) `{!∀ x, Decision (P x)}
    (l : list A) :
  filter P (filter P l) = filter P l.
Proof.
  rewrite list_filter_filter. apply list_filter_iff. intros x. tauto.
Qed.

(** X3.  Deleting a course twice is deleting it once, and course deletions
    can be done in either order; deleting a note or a material also
    commutes with deleting a course. *)
Theorem deletions_commute (s : Store) (a b : string) :
  handleDeleteCourse a true (handleDeleteCourse a true s)
    = handleDeleteCourse a true s ∧
  handleDeleteCourse a true (handleDeleteCourse b true s)
    = handleDeleteCourse b true (handleDeleteCourse a true s) ∧
  deleteNote b true (handleDeleteCourse a true s)
    = handleDeleteCourse a true (deleteNote b true s) ∧
  handleDeleteMaterial b (handleDeleteCourse a true s)
    = handleDeleteCourse a true (handleDeleteMaterial b s) ∧
  deleteNote a true (deleteNote a true s) = deleteNote a true s ∧
  handleDeleteMaterial a (handleDeleteMaterial a s) = handleDeleteMaterial a s.
Proof.
  unfold handleDeleteCourse, deleteNote, handleDeleteMaterial. simpl.
  split_and!; f_equal;
    solve [ apply filter_idemp | apply filter_comm | done ].
Qed.

(** ** Referential integrity *)

(** Exchanging two elements permutes the list. *)
Lemma swap_Permutation {A : Type} (l : list A) (i j : nat) (xi xj : A) :
  l !! i = Some xi → l !! j = Some xj →
  <[j := xi]> (<[i := xj]> l) ≡ₚ l.
Proof.
  intros Hi Hj.
  pose proof (lookup_lt_Some _ _ _ Hi) as Hli.
  pose proof (lookup_lt_Some _ _ _ Hj) as Hlj.
  apply Permutation_inj. split; [by rewrite !length_insert|].
  exists (λ k, if decide (k = i) then j else if decide (k = j) then i else k).
  split.
  - intros a b. repeat case_decide; congruence.
  - intros k. destruct (decide (k = j)) as [->|Hkj].
    + rewrite list_lookup_insert_eq by (by rewrite length_insert).
      case_decide; by subst.
    + rewrite list_lookup_insert_ne by done.
      destruct (decide (k = i)) as [->|Hki].
      * by rewrite list_lookup_insert_eq.
      * by rewrite list_lookup_insert_ne.
Qed.

Lemma elem_of_ids_filter (cs : list Course.t) (id k : string) :
  k ∈ Course.id <$> cs → k ≠ id →
  k ∈ Course.id <$> filter (λ c, Course.id c ≠ id) cs.
Proof.
  intros (c & -> & Hc)%list_elem_of_fmap Hne.
  apply list_elem_of_fmap. exists c. split; [done|].
  by apply list_elem_of_filter.
Qed.

(** One operation keeps every reference to a course live. *)
Lemma exec_referential_integrity (o : Op) (s s' : Store) :
  referential_integrity s → selection_exists o s → exec o s = Some s' →
  referential_integrity s'.
Proof.
  intros [Hn Hm] Hsel Hexec. unfold referential_integrity.
  destruct o; simpl in Hexec, Hsel; simplify_option_eq.
  - simpl. rewrite fmap_app. split; intros x Hx; apply elem_of_app; left; auto.
  - destruct confirmed; [|done]. simpl.
    split; intros x [Hne Hx]%list_elem_of_filter;
      apply elem_of_ids_filter; auto.
  - simpl. split; [|done]. intros n [Hx| ->%list_elem_of_singleton]%elem_of_app;
      [auto|done].
  - simpl. split; [|done].
    intros n (n0 & -> & Hn0)%list_elem_of_fmap.
    case_decide; simpl; auto.
  - destruct confirmed; [|done]. simpl. split; [|done].
    intros n [_ Hx]%list_elem_of_filter. auto.
  - simpl. split; [|done].
    destruct (handleMoveNote_cases selectedCourseId relativeIndex direction
                (notes s)) as [Heq|[(i & j & ni & nj & Hi & Hj & Heq)|(_ & j & Hj & Heq)]];
      rewrite Heq in *.
    + rewrite defined_notes_all in Heqo. by simplify_eq.
    + rewrite defined_notes_all in Heqo. simplify_eq.
      intros n Hx. apply Hn.
      by rewrite <- (swap_Permutation (notes s) i j ni nj).
    + by rewrite defined_notes_hole in Heqo.
  - simpl. split; [done|].
    intros m [Hx| ->%list_elem_of_singleton]%elem_of_app; [auto|done].
  - simpl. split; [done|]. intros m [_ Hx]%list_elem_of_filter. auto.
Qed.

(** X4.  Referential integrity is kept along every sequence of store
    operations in which a note or a material is added to a course of the
    store, as the detail view has it: every note and every material names
    a course that is there, the cascade of a course deletion included. *)
Theorem run_referential_integrity (ops : list Op) (s s' : Store) :
  referential_integrity s → selections_exist ops s → run ops s = Some s' →
  referential_integrity s'.
Proof.
  revert s. induction ops as [|o ops IH]; intros s Hri Hsel Hrun.
  - by injection Hrun as <-.
  - destruct Hsel as [Ho Hrest]. simpl in Hrun.
    destruct (exec o s) as [s1|] eqn:Hexec; [|done].
    apply (IH s1); [by eapply exec_referential_integrity|done..].
Qed.

Lemma referential_integrity_sample : referential_integrity sample_store.
Proof. split; apply Forall_forall; repeat constructor; compute_done. Qed.

(** The session [sample_ops] from [sample_store]. *)
Lemma run_referential_integrity_witness :
  ∃ s', run sample_ops sample_store = Some s' ∧ referential_integrity s'.
Proof.
  destruct (run sample_ops sample_store) as [s'|] eqn:Hrun; [|by vm_compute in Hrun].
  exists s'. split; [done|].
  apply (run_referential_integrity sample_ops sample_store s');
    [apply referential_integrity_sample|compute_done|exact Hrun].
Defined.

(** ** The selected course *)

Lemma filter_none {A : Type} (P : A → Prop) `{!∀ x, Decision (P x)}
    (l : list A) :
  Forall (λ x, ¬ P x) l → filter P l = [].
Proof.
  induction 1 as [|x l Hx _ IH]; [done|]. by rewrite filter_cons_False.
Qed.

Lemma selectedCourse_Some (sel : option string) (cs : list Course.t)
    (c : Course.t) :
  selectedCourse sel cs = Some c ↔
  ∃ i, cs !! i = Some c ∧ Some (Course.id c) = sel ∧
       ∀ j c', cs !! j = Some c' → j < i → Some (Course.id c') ≠ sel.
Proof.
  unfold selectedCourse. split.
  - destruct (list_find _ cs) as [[i c0]|] eqn:Hfind; [|done].
    intros [= <-]. apply list_find_Some in Hfind. by exists i.
  - intros (i & Hi & Hsel & Hfirst).
    assert (list_find (λ c, Some (Course.id c) = sel) cs = Some (i, c)) as ->;
      [|done].
    by apply list_find_Some.
Qed.

Lemma selectedCourse_None (sel : option string) (cs : list Course.t) :
  selectedCourse sel cs = None ↔ ∀ c, c ∈ cs → Some (Course.id c) ≠ sel.
Proof.
  unfold selectedCourse.
  destruct (list_find _ cs) as [[i c0]|] eqn:Hfind; simpl.
  - apply list_find_Some in Hfind as (Hi & Hc & _).
    split; [done|]. intros Hall. destruct (Hall c0); [|done].
    by eapply list_elem_of_lookup_2.
  - split; [|done]. intros _. apply list_find_None in Hfind.
    by apply Forall_forall.
Qed.

(** X5.  [selectedCourse] is the first course with the selected id: none
    for the [null] selection and for an id no course has, the course itself
    under distinct ids.  Once the selected course is deleted there is no
    selected course and the list of its notes is empty, so the detail view
    has nothing to render. *)
Theorem selectedCourse_after_delete (s : Store) (id : string) :
  selectedCourse None (courses s) = None ∧
  (selectedCourse (Some id) (courses s) = None ↔
   id ∉ Course.id <$> courses s) ∧
  (∀ c, selectedCourse (Some id) (courses s) = Some c →
        c ∈ courses s ∧ Course.id c = id) ∧
  (∀ c, NoDup (Course.id <$> courses s) → c ∈ courses s →
        selectedCourse (Some (Course.id c)) (courses s) = Some c) ∧
  selectedCourse (Some id) (courses (handleDeleteCourse id true s)) = None ∧
  currentCourseNotes (Some id) (notes (handleDeleteCourse id true s)) = [] ∧
  courseNotesIndices (Some id) (notes (handleDeleteCourse id true s)) = [].
Proof.
  split_and!.
  - apply selectedCourse_None. by intros c _.
  - rewrite selectedCourse_None. split.
    + intros Hall (c & -> & Hc)%list_elem_of_fmap. by apply (Hall c).
    + intros Hid c Hc [= <-]. apply Hid. by apply list_elem_of_fmap_2.
  - intros c (i & Hi & [= Hid] & _)%selectedCourse_Some.
    split; [by eapply list_elem_of_lookup_2|done].
  - intros c Hnd (i & Hi)%list_elem_of_lookup.
    apply selectedCourse_Some. exists i. split_and!; [done..|].
    intros j c' Hj Hlt [= Heq].
    assert (j = i); [|lia].
    apply (NoDup_lookup _ _ _ (Course.id c) Hnd);
      rewrite list_lookup_fmap; [rewrite Hj; simpl; by rewrite Heq|by rewrite Hi].
  - apply selectedCourse_None. simpl.
    intros c [Hne _]%list_elem_of_filter [= Heq]. done.
  - simpl. unfold currentCourseNotes. rewrite list_filter_filter.
    apply filter_none, Forall_forall.
    intros n _ [[= Heq] Hne]. done.
  - rewrite courseNotesIndices_positions.
    apply length_zero_iff_nil. rewrite positions_from_length. simpl.
    rewrite list_filter_filter. unfold currentCourseNotes.
    rewrite (filter_none _ (notes s)); [done|].
    apply Forall_forall. intros n _ [[= Heq] Hne]. done.
Qed.

(** Course A of [sample_store], selected and then deleted. *)
Lemma selectedCourse_after_delete_witness :
  selectedCourse (Some "A") (courses sample_store) = Some courseA ∧
  selectedCourse (Some "Z") (courses sample_store) = None.
Proof.
  destruct (selectedCourse_after_delete sample_store "Z")
    as (_ & Hnone & _ & Hsome & _).
  split.
  - apply (Hsome courseA); compute_done.
  - apply Hnone. compute_done.
Defined.

(** ** Resources of a note *)

(** X6.  A resource added without a target note, or with the empty string
    as target, is listed under no note; one added for the note [t] is the
    last resource listed under [t] and is listed under no other note.
    Resources already listed stay where they are. *)
Theorem handleAddMaterial_listing (s : Store) (target : option string)
    (sel uuid name url : string) (type : MaterialType) (now : Z) :
  let s' := handleAddMaterial target sel uuid name url type now s in
  (target = None ∨ target = Some "" →
   ∀ noteId, materialsForNote noteId (materials s')
             = materialsForNote noteId (materials s)) ∧
  (∀ t, target = Some t → t ≠ "" →
     materialsForNote t (materials s')
       = materialsForNote t (materials s)
         ++ [Material.mk uuid sel (Some t) name type url now] ∧
     ∀ noteId, noteId ≠ t →
       materialsForNote noteId (materials s')
         = materialsForNote noteId (materials s)) ∧
  courses s' = courses s ∧ notes s' = notes s.
Proof.
  simpl. unfold materialsForNote. split_and!; try done.
  - intros Htarget noteId. rewrite filter_app.
    rewrite filter_cons_False; [apply app_nil_r|].
    simpl. by destruct Htarget as [-> | ->].
  - intros t -> Hne. unfold noteId_of_target. rewrite decide_False by done.
    split.
    + by rewrite filter_app, filter_cons_True.
    + intros noteId Hother. rewrite filter_app.
      rewrite filter_cons_False; [apply app_nil_r|].
      simpl. congruence.
Qed.

(** A course-level syllabus and a resource for N1, added to [sample_store]. *)
Lemma handleAddMaterial_listing_witness :
  materialsForNote "n1"
    (materials (handleAddMaterial None "A" "m9" "Atlas" "/a" File 1 sample_store))
    = materialsForNote "n1" (materials sample_store) ∧
  materialsForNote "n1"
    (materials (handleAddMaterial (Some "n1") "A" "m9" "Atlas" "/a" File 1
                  sample_store))
    = materialsForNote "n1" (materials sample_store)
      ++ [Material.mk "m9" "A" (Some "n1") "Atlas" File "/a" 1].
Proof.
  split.
  - apply (handleAddMaterial_listing sample_store None). by left.
  - by apply (handleAddMaterial_listing sample_store (Some "n1")).
Defined.

(** ** More on reordering *)

Lemma at_index_Some_range {A : Type} (l : list A) (i : Z) (x : A) :
  at_index l i = Some x → (0 ≤ i < Z.of_nat (length l))%Z.
Proof.
  unfold at_index. case_decide; [|done].
  intros Hx%lookup_lt_Some. lia.
Qed.

Lemma at_index_is_Some {A : Type} (l : list A) (i : Z) :
  (0 ≤ i < Z.of_nat (length l))%Z → is_Some (at_index l i).
Proof.
  intros Hi. rewrite at_index_nat by lia. apply lookup_lt_is_Some_2. lia.
Qed.

Lemma courseNotesIndices_length (sel : option string) (l : list Note.t) :
  Z.of_nat (length (courseNotesIndices sel l)) = course_size sel l.
Proof.
  unfold course_size, currentCourseNotes.
  by rewrite courseNotesIndices_positions, positions_from_length.
Qed.

(** A move between two positions of the course: the two slots, and the
    array that results. *)
Lemma handleMoveNote_in_range (sel : option string) (rel : Z)
    (dir : Direction) (l : list Note.t) :
  (0 ≤ rel < course_size sel l)%Z →
  (0 ≤ target_index rel dir < course_size sel l)%Z →
  ∃ i j ni nj,
    courseNotesIndices sel l !! Z.to_nat rel = Some i ∧
    courseNotesIndices sel l !! Z.to_nat (target_index rel dir) = Some j ∧
    l !! i = Some ni ∧ l !! j = Some nj ∧
    in_course sel ni ∧ in_course sel nj ∧
    handleMoveNote sel rel dir l = Some <$> <[j := ni]> (<[i := nj]> l).
Proof.
  intros Hrel Htarget. rewrite <- courseNotesIndices_length in Hrel, Htarget.
  destruct (lookup_lt_is_Some_2 (courseNotesIndices sel l) (Z.to_nat rel))
    as [i Hi]; [lia|].
  destruct (lookup_lt_is_Some_2 (courseNotesIndices sel l)
              (Z.to_nat (target_index rel dir))) as [j Hj]; [lia|].
  assert (Hpos : ∀ r k, courseNotesIndices sel l !! r = Some k →
                        ∃ n, l !! k = Some n ∧ in_course sel n).
  { intros r k Hr. apply (positions_from_spec (in_course sel)).
    rewrite <- courseNotesIndices_positions. by eapply list_elem_of_lookup_2. }
  destruct (Hpos _ _ Hi) as (ni & Hni & Pi).
  destruct (Hpos _ _ Hj) as (nj & Hnj & Pj).
  exists i, j, ni, nj. split_and!; [done..|].
  rewrite handleMoveNote_target, !at_index_nat, Hi, Hj by lia.
  by apply swap_slots.
Qed.

Lemma swap_indices_stable (sel : option string) (l : list Note.t)
    (i j : nat) (ni nj : Note.t) :
  l !! i = Some ni → l !! j = Some nj → in_course sel ni → in_course sel nj →
  courseNotesIndices sel (<[j := ni]> (<[i := nj]> l))
  = courseNotesIndices sel l.
Proof.
  intros Hi Hj Pi Pj. rewrite !courseNotesIndices_positions.
  destruct (decide (i = j)) as [->|Hij].
  - rewrite list_insert_insert_eq. simplify_eq.
    by rewrite (positions_from_insert _ _ j ni ni).
  - rewrite (positions_from_insert _ _ j ni nj); [| |done].
    + by rewrite (positions_from_insert _ _ i nj ni).
    + by rewrite list_lookup_insert_ne.
Qed.

Lemma swap_twice {A : Type} (l : list A) (i j : nat) (xi xj : A) :
  l !! i = Some xi → l !! j = Some xj →
  <[j := xj]> (<[i := xi]> (<[j := xi]> (<[i := xj]> l))) = l.
Proof.
  intros Hi Hj.
  pose proof (lookup_lt_Some _ _ _ Hi) as Hli.
  pose proof (lookup_lt_Some _ _ _ Hj) as Hlj.
  apply list_eq. intros k.
  destruct (decide (k = j)) as [->|Hkj].
  - by rewrite list_lookup_insert_eq by (by rewrite !length_insert).
  - rewrite list_lookup_insert_ne by done.
    destruct (decide (k = i)) as [->|Hki].
    + by rewrite list_lookup_insert_eq by (by rewrite !length_insert).
    + by rewrite !list_lookup_insert_ne.
Qed.

Lemma swap_back {A : Type} (l : list A) (i j : nat) (xi xj : A) :
  l !! i = Some xi → l !! j = Some xj →
  <[i := xi]> (<[j := xj]> (<[j := xi]> (<[i := xj]> l))) = l.
Proof.
  intros Hi Hj.
  pose proof (lookup_lt_Some _ _ _ Hi) as Hli.
  pose proof (lookup_lt_Some _ _ _ Hj) as Hlj.
  apply list_eq. intros k.
  destruct (decide (k = i)) as [->|Hki].
  - by rewrite list_lookup_insert_eq by (by rewrite !length_insert).
  - rewrite list_lookup_insert_ne by done.
    destruct (decide (k = j)) as [->|Hkj].
    + by rewrite list_lookup_insert_eq by (by rewrite !length_insert).
    + by rewrite !list_lookup_insert_ne.
Qed.

(** X7.  A move between two positions of the course is undone by the same
    move made again, and by the opposite move made from the neighbouring
    position: up from [rel] and then down from [rel - 1], or down from
    [rel] and then up from [rel + 1], gives back the note sequence. *)
Theorem handleMoveNote_undo (sel : option string) (rel : Z)
    (dir : Direction) (l : list Note.t) :
  (0 ≤ rel < course_size sel l)%Z →
  (0 ≤ target_index rel dir < course_size sel l)%Z →
  ∃ l', handleMoveNote sel rel dir l = Some <$> l' ∧
        handleMoveNote sel rel dir l' = Some <$> l ∧
        handleMoveNote sel (target_index rel dir)
          (match dir with up => down | down => up end) l' = Some <$> l.
Proof.
  intros Hrel Htarget.
  destruct (handleMoveNote_in_range sel rel dir l Hrel Htarget)
    as (i & j & ni & nj & Hi & Hj & Hni & Hnj & Pi & Pj & Heq).
  set (l' := <[j := ni]> (<[i := nj]> l)) in *.
  assert (courseNotesIndices sel l' = courseNotesIndices sel l) as Hidx
    by by apply swap_indices_stable.
  assert (course_size sel l' = course_size sel l) as Hsize
    by by rewrite <- !courseNotesIndices_length, Hidx.
  assert (i < length l) as Hli by by eapply lookup_lt_Some.
  assert (j < length l) as Hlj by by eapply lookup_lt_Some.
  assert (l' !! j = Some ni) as Hj'.
  { unfold l'. apply list_lookup_insert_eq. by rewrite length_insert. }
  assert (l' !! i = Some nj) as Hi'.
  { unfold l'. destruct (decide (i = j)) as [->|Hij].
    - rewrite list_lookup_insert_eq by (by rewrite length_insert). congruence.
    - rewrite list_lookup_insert_ne by done. by apply list_lookup_insert_eq. }
  exists l'. split_and!; [done| |].
  - rewrite handleMoveNote_target, Hidx, !at_index_nat, Hi, Hj by lia.
    rewrite (swap_slots l' i j nj ni) by done.
    unfold l'. by rewrite swap_twice.
  - assert (target_index (target_index rel dir)
              (match dir with up => down | down => up end) = rel) as Hback
      by (destruct dir; simpl; lia).
    rewrite handleMoveNote_target, Hback, Hidx, !at_index_nat, Hi, Hj by lia.
    rewrite (swap_slots l' j i ni nj) by done.
    unfold l'. by rewrite swap_back.
Qed.

(** N3 moved up and back, with a note of course B in between. *)
Lemma handleMoveNote_undo_witness :
  ∃ l', handleMoveNote (Some "A") 2 up [N1; NB; N2; N3] = Some <$> l' ∧
        handleMoveNote (Some "A") 2 up l' = Some <$> [N1; NB; N2; N3] ∧
        handleMoveNote (Some "A") 1 down l' = Some <$> [N1; NB; N2; N3].
Proof.
  apply (handleMoveNote_undo (Some "A") 2 up [N1; NB; N2; N3]);
    vm_compute; split; congruence.
Defined.

(** X8.  What a move does, for every subscript.  From a position of the
    course the notes are permuted: none is lost, none is doubled.  The
    array holds [undefined] exactly when the course has a note and the
    move is up from the subscript just past the last note or down from the
    subscript [-1].  Every other subscript, and any move while the course
    has no note or no course is selected, leaves the notes as they are. *)
Theorem handleMoveNote_outcomes (sel : option string) (rel : Z)
    (dir : Direction) (l : list Note.t) :
  let n := course_size sel l in
  ((0 ≤ rel < n)%Z →
   ∃ l', handleMoveNote sel rel dir l = Some <$> l' ∧ l' ≡ₚ l) ∧
  (defined_notes (handleMoveNote sel rel dir l) = None ↔
   (0 < n)%Z ∧ (rel = n ∧ dir = up ∨ rel = (-1)%Z ∧ dir = down)) ∧
  ((rel < -1)%Z ∨ (n < rel)%Z ∨ n = 0%Z →
   handleMoveNote sel rel dir l = Some <$> l) ∧
  handleMoveNote None rel dir l = Some <$> l.
Proof.
  intros n.
  assert (Htarget : ∀ j,
            at_index (courseNotesIndices sel l) (target_index rel dir) = Some j →
            (0 ≤ target_index rel dir < n)%Z).
  { intros j Hj%at_index_Some_range.
    by rewrite courseNotesIndices_length in Hj. }
  assert (Hnone : ∀ sel', course_size sel' l = 0%Z ∨ (rel < -1)%Z
                          ∨ (course_size sel' l < rel)%Z →
            handleMoveNote sel' rel dir l = Some <$> l).
  { intros sel' Hout. rewrite handleMoveNote_target, at_index_None; [done|].
    rewrite courseNotesIndices_length. destruct dir; simpl; lia. }
  split_and!.
  - intros Hrel.
    destruct (handleMoveNote_cases sel rel dir l)
      as [Heq|[(i & j & ni & nj & Hi & Hj & Heq)|(Hout & _)]].
    + by exists l.
    + eexists. split; [done|]. by eapply swap_Permutation.
    + by destruct Hout.
  - destruct (at_index (courseNotesIndices sel l) (target_index rel dir))
      as [j|] eqn:Hj.
    2:{ rewrite handleMoveNote_target, Hj, defined_notes_all.
        split; [done|]. intros (Hn & Hcase). exfalso.
        destruct (at_index_is_Some (courseNotesIndices sel l)
                    (target_index rel dir)) as [x Hx]; [|congruence].
        rewrite courseNotesIndices_length. fold n.
        destruct Hcase as [[-> ->]|[-> ->]]; simpl; lia. }
    pose proof (Htarget j eq_refl) as Ht.
    destruct (decide (0 ≤ rel < n)%Z) as [Hrel|Hrel].
    + destruct (handleMoveNote_in_range sel rel dir l Hrel Ht)
        as (i & j' & ni & nj & _ & _ & _ & _ & _ & _ & ->).
      rewrite defined_notes_all. split; [done|].
      intros (_ & [[-> _]|[-> _]]); lia.
    + destruct (handleMoveNote_hole sel l rel dir j) as (Hlt & ->); [done..|].
      rewrite defined_notes_hole by done. split; [|done]. intros _.
      unfold target_index in Ht. destruct dir; split; try lia.
      * left. split; [lia|done].
      * right. split; [lia|done].
  - intros Hout. apply Hnone. fold n. lia.
  - apply Hnone. left. unfold course_size, currentCourseNotes.
    rewrite filter_none; [done|]. apply Forall_forall. by intros x _ ?.
Qed.

(** A rendered move on the notes of [sample_store]. *)
Lemma handleMoveNote_outcomes_witness :
  (∃ l', handleMoveNote (Some "A") 1 down [N1; NB; N2; N3] = Some <$> l' ∧
         l' ≡ₚ [N1; NB; N2; N3]) ∧
  handleMoveNote (Some "A") 7 up [N1; NB; N2; N3] = Some <$> [N1; NB; N2; N3].
Proof.
  destruct (handleMoveNote_outcomes (Some "A") 1 down [N1; NB; N2; N3])
    as (Hperm & _).
  destruct (handleMoveNote_outcomes (Some "A") 7 up [N1; NB; N2; N3])
    as (_ & _ & Hfar & _).
  split.
  - apply Hperm. vm_compute. split; congruence.
  - apply Hfar. right. left. by vm_compute.
Defined.

(** ** More on persistence *)

Lemma load_after_save (s : Store) (ls : gmap string string) (st : Loaded) :
  load (save s ls) st = Some (js_of_store s).
Proof.
  unfold load. destruct (save_lookup s ls) as (-> & -> & -> & _).
  rewrite !load_cell_stringify; [done|..];
    apply Forall_fmap, Forall_true; intros x;
    first [apply wf_js_of_course|apply wf_js_of_note|apply wf_js_of_material].
Qed.

(** X9.  [save] rewrites the three blobs in full: what an earlier [save]
    wrote is gone, saving the same store again changes nothing, and [load]
    after two saves gives the store saved last (its timestamps being safe
    integers). *)
Theorem save_overwrites (s1 s2 : Store) (ls : gmap string string)
    (st : Loaded) :
  save s2 (save s1 ls) = save s2 ls ∧
  save s2 (save s2 ls) = save s2 ls ∧
  (valid_store s2 →
   (load (save s2 (save s1 ls)) st ≫= store_of_loaded) = Some s2).
Proof.
  assert (Hover : ∀ a b, save b (save a ls) = save b ls).
  { intros a b. unfold save, setItem. apply map_eq. intros k.
    rewrite !lookup_insert. by repeat case_decide. }
  split_and!; [apply Hover..|]. intros _.
  rewrite Hover, load_after_save. apply store_of_loaded_js_of_store.
Qed.

(** [orphan_store] saved, then [sample_store] saved over it. *)
Lemma save_overwrites_witness :
  (load (save sample_store (save orphan_store ∅)) initial ≫= store_of_loaded)
  = Some sample_store.
Proof.
  destruct (save_overwrites orphan_store sample_store ∅ initial)
    as (_ & _ & Hload).
  apply Hload. compute_done.
Defined.

(** ** The filtered course list on Latin-1 text *)

Lemma trimStart_white_app (w s : string) :
  all_white w = true → trimStart (w +:+ s) = trimStart s.
Proof.
  induction w as [|c w IH]; [done|]. str_simpl.
  intros [Hc Hw]%andb_true_iff. rewrite Hc. by apply IH.
Qed.

Lemma trimEnd_app_white (s w : string) :
  all_white w = true → trimEnd (s +:+ w) = trimEnd s.
Proof.
  intros Hw. induction s as [|c s IH]; str_simpl.
  - by apply trimEnd_empty.
  - by rewrite IH.
Qed.

Lemma trimStart_nonwhite_app (s w : string) :
  all_white s = false → trimStart (s +:+ w) = trimStart s +:+ w.
Proof.
  induction s as [|c s IH]; [done|]. str_simpl.
  destruct (is_white c); simpl; [done|]. intros _. by str_simpl.
Qed.

(** White space around a query does not count. *)
Lemma trim_padding (w1 w2 q : string) :
  all_white w1 = true → all_white w2 = true →
  trim (w1 +:+ q +:+ w2) = trim q.
Proof.
  intros H1 H2. unfold trim. rewrite trimStart_white_app by done.
  destruct (all_white q) eqn:Hq.
  - assert (all_white (q +:+ w2) = true) as Hqw.
    { clear -Hq H2. induction q as [|c q IH]; str_simpl; [done|].
      apply andb_true_iff in Hq as [-> Hq]. by apply IH. }
    apply trim_empty in Hq, Hqw. unfold trim in Hq, Hqw. by rewrite Hq, Hqw.
  - rewrite trimStart_nonwhite_app by done. by apply trimEnd_app_white.
Qed.

Lemma all_white_toLowerCase (s : string) :
  all_white (toLowerCase s) = all_white s.
Proof.
  induction s as [|c s IH]; [done|]. simpl. by rewrite lower_char_white, IH.
Qed.

(** Containment of strings is transitive. *)
Lemma includes_trans (s t u : string) :
  includes s t = true → includes t u = true → includes s u = true.
Proof.
  rewrite !includes_spec.
  intros (pre & post & ->) (pre' & post' & ->).
  exists (pre +:+ pre'), (post' +:+ post). by rewrite !string_app_assoc.
Qed.

Lemma filter_sublist_impl {A : Type} (P Q : A → Prop)
    `{!∀ x, Decision (P x)} `{!∀ x, Decision (Q x)} (l : list A) :
  (∀ x, P x → Q x) → filter P l `sublist_of` filter Q l.
Proof.
  intros HPQ. rewrite <- (filter_keeps Q P l HPQ). apply sublist_filter.
Qed.

(** X10.  The search ignores the case of the query and white space around
    it, and a query that contains another one (a query typed further) never
    finds a course the shorter one does not find: its result is a
    subsequence of the other result. *)
Theorem filteredCourses_query (cs : list Course.t) :
  (∀ q1 q2, toLowerCase q1 = toLowerCase q2 →
            filteredCourses q1 cs = filteredCourses q2 cs) ∧
  (∀ w1 w2 q, all_white w1 = true → all_white w2 = true →
              filteredCourses (w1 +:+ q +:+ w2) cs = filteredCourses q cs) ∧
  (∀ q1 q2,
     includes (trim (toLowerCase q2)) (trim (toLowerCase q1)) = true →
     filteredCourses q2 cs `sublist_of` filteredCourses q1 cs).
Proof.
  split_and!.
  - intros q1 q2 Heq. unfold filteredCourses. by rewrite Heq.
  - intros w1 w2 q H1 H2. unfold filteredCourses.
    rewrite !toLowerCase_app, trim_padding;
      [done|by rewrite all_white_toLowerCase..].
  - intros q1 q2 Hinc. unfold filteredCourses.
    destruct (decide (trim (toLowerCase q2) = "")) as [Hq2|Hq2].
    + rewrite Hq2 in Hinc. simpl in Hinc. rewrite orb_false_r in Hinc.
      destruct (trim (toLowerCase q1)); [|done]. by rewrite decide_True.
    + case_decide; [apply sublist_filter|].
      apply filter_sublist_impl. intros c.
      rewrite !orb_True, !Is_true_true.
      intros [?|?]; [left|right]; by eapply includes_trans.
Qed.

(** The queries ["bio"] and ["biology"] typed with blanks and capitals. *)
Lemma filteredCourses_query_witness :
  filteredCourses (" " +:+ "Bio" +:+ "  ") [courseA; courseB]
    = filteredCourses "Bio" [courseA; courseB] ∧
  filteredCourses "BIOLOGY" [courseA; courseB]
    `sublist_of` filteredCourses "bio" [courseA; courseB].
Proof.
  destruct (filteredCourses_query [courseA; courseB]) as (_ & Hpad & Hnarrow).
  split; [by apply Hpad|by apply Hnarrow].
Defined.

(** X11.  Searching commutes with editing the course list: after a course
    is added the result is the old result, followed by the new course when
    the query selects it; after a course is deleted it is the old result
    without that course; and searching within a result with the same query
    changes nothing. *)
Theorem filteredCourses_after_edit (s : Store) (q : string) :
  (∀ uuid name description now,
     filteredCourses q (courses (handleAddCourse uuid name description now s))
     = filteredCourses q (courses s)
       ++ filteredCourses q [Course.mk uuid name description THEME_COLOR now]) ∧
  (∀ id,
     filteredCourses q (courses (handleDeleteCourse id true s))
     = filter (λ c, Course.id c ≠ id) (filteredCourses q (courses s))) ∧
  filteredCourses q (filteredCourses q (courses s))
    = filteredCourses q (courses s).
Proof.
  unfold filteredCourses. split_and!.
  - intros uuid name description now. simpl.
    case_decide; [done|]. by rewrite filter_app.
  - intros id. simpl. case_decide; [done|]. apply filter_comm.
  - case_decide; [done|]. apply filter_idemp.
Qed.

(** ** More on the insight panel *)

(** X12.  A summary call that is fulfilled always leaves a summary to show:
    the text of the answer, or the fixed text ["Failed to generate
    summary."] when the answer has no text or an empty one; the panel is
    then rendered and the spinner is off. *)
Theorem fulfilled_summary_is_shown (a : AppState) (result : option string) :
  let a' := runAISummary_settle (Fulfilled result) a in
  (∃ t, aiSummary a' = Some t ∧ t ≠ "") ∧
  panel_visible a' = true ∧
  aiLoading a' = false ∧
  (result = None ∨ result = Some "" →
   aiSummary a' = Some "Failed to generate summary.") ∧
  (∀ t, result = Some t → t ≠ "" → aiSummary a' = Some t).
Proof.
  simpl. unfold panel_visible, summary_or_default. simpl.
  destruct result as [t|]; [destruct (decide (t = "")) as [->|Hne]|].
  - split_and!; [by eexists|done|done|done|].
    by intros t [= <-].
  - split_and!; [by exists t|by rewrite bool_decide_false|done| |].
    + intros [?|?]; congruence.
    + by intros t' [= <-] _.
  - split_and!; [by eexists|done|done|done|done].
Qed.

(** An answer without text, and an answer with text. *)
Lemma fulfilled_summary_is_shown_witness :
  aiSummary (runAISummary_settle (Fulfilled None) idle_app)
    = Some "Failed to generate summary." ∧
  aiSummary (runAISummary_settle (Fulfilled (Some "Cells.")) idle_app)
    = Some "Cells.".
Proof.
  destruct (fulfilled_summary_is_shown idle_app None)
    as (_ & _ & _ & Hdefault & _).
  destruct (fulfilled_summary_is_shown idle_app (Some "Cells."))
    as (_ & _ & _ & _ & Htext).
  split; [apply Hdefault; by left|by apply Htext].
Defined.

Lemma ai_run_snoc (a : AppState) (t : list AiEvent) (e : AiEvent) :
  ai_run a (t ++ [e]) = ai_step (ai_run a t) e.
Proof. unfold ai_run. by rewrite fold_left_app. Qed.

(** X13.  Along any sequence of adapter events the messages given to
    [alert] are exactly one per rejected call, in the order of the
    rejections, after those that were there; and the loading flag is what
    the last event made it, on after a start and off after a settlement,
    whatever calls are pending. *)
Theorem ai_trace_log (a : AppState) (t : list AiEvent) :
  alerts (ai_run a t) = alerts a ++ omap rejection_message t ∧
  (∀ t' e, t = t' ++ [e] → aiLoading (ai_run a t) = is_invoke e).
Proof.
  split.
  - revert a. induction t as [|e t IH]; intros a.
    + simpl. by rewrite app_nil_r.
    + rewrite ai_run_cons, IH.
      destruct e as [c|[r|]|c|[r|]]; simpl; try done;
        by rewrite <- app_assoc.
  - intros t' e ->. rewrite ai_run_snoc.
    by destruct e as [c|[r|]|c|[r|]].
Qed.

(** A summary call that is rejected while the questions are loading. *)
Lemma ai_trace_log_witness :
  aiLoading (ai_run idle_app
               [InvokeSummary "Membranes"; InvokeQuestions "Membranes";
                SettleSummary Rejected]) = false ∧
  alerts (ai_run idle_app
            [InvokeSummary "Membranes"; InvokeQuestions "Membranes";
             SettleSummary Rejected]) = ["Error generating summary."].
Proof.
  destruct (ai_trace_log idle_app
              [InvokeSummary "Membranes"; InvokeQuestions "Membranes";
               SettleSummary Rejected]) as (Halerts & Hlast).
  split; [|exact Halerts].
  by apply (Hlast [InvokeSummary "Membranes"; InvokeQuestions "Membranes"]
                  (SettleSummary Rejected)).
Defined.

(** ** The Gemini service *)

Lemma wf_js_of_question (q : StudyQuestion) : wf_json (js_of_question q).
Proof. split; [compute_done|simpl; tauto]. Qed.

Lemma question_of_js_of_question (q : StudyQuestion) :
  question_of_js (js_of_question q) = Some q.
Proof. by destruct q. Qed.

(** Without a key [getAI] throws, and both calls are rejected. *)
Lemma service_without_key (API_KEY : option string) :
  getAI API_KEY = None →
  (∀ r, summarizeNote API_KEY r = Rejected) ∧
  (∀ r, generateStudyQuestions API_KEY r = Rejected).
Proof.
  intros Hkey. unfold summarizeNote, generateStudyQuestions.
  by rewrite Hkey.
Qed.

Lemma summarizeNote_with_key (API_KEY : option string)
    (r : Settled (option string)) :
  getAI API_KEY ≠ None → summarizeNote API_KEY r = r.
Proof. unfold summarizeNote. by destruct (getAI API_KEY). Qed.

(** An answer that is the JSON text of questions is parsed to them. *)
Lemma generateStudyQuestions_parsed (API_KEY : option string)
    (qs : list StudyQuestion) :
  getAI API_KEY ≠ None →
  generateStudyQuestions API_KEY
    (Fulfilled (Some (JSON_stringify (JArr (js_of_question <$> qs)))))
  = Fulfilled (JArr (js_of_question <$> qs)) ∧
  array_of_js question_of_js (JArr (js_of_question <$> qs)) = Some qs.
Proof.
  intros Hkey. unfold generateStudyQuestions.
  destruct (getAI API_KEY) as [k|]; [|done]. split.
  - assert (text_or_empty_array
              (Some (JSON_stringify (JArr (js_of_question <$> qs))))
            = JSON_stringify (JArr (js_of_question <$> qs))) as ->.
    { unfold text_or_empty_array. rewrite decide_False; [done|].
      by rewrite JSON_stringify_arr. }
    rewrite JSON_parse_stringify; [done|].
    apply wf_json_arr, Forall_fmap, Forall_true. intros q.
    apply wf_js_of_question.
  - simpl. apply mapM_fmap_Some, question_of_js_of_question.
Qed.

(** X14.  Without an API key (not set, or empty) both service calls are
    rejected whatever the model would answer.  With a key, [summarizeNote]
    settles as the model call does, and [generateStudyQuestions] gives the
    empty array for an answer without text or with an empty one, the parsed
    questions for an answer that is the JSON text of questions, and is
    rejected for an answer that is no JSON text. *)
Theorem gemini_service_outcomes (API_KEY : option string) :
  (getAI API_KEY = None ↔ API_KEY = None ∨ API_KEY = Some "") ∧
  (getAI API_KEY = None →
   ∀ r, summarizeNote API_KEY r = Rejected ∧
        generateStudyQuestions API_KEY r = Rejected) ∧
  (getAI API_KEY ≠ None →
   (∀ r, summarizeNote API_KEY r = r) ∧
   generateStudyQuestions API_KEY Rejected = Rejected ∧
   generateStudyQuestions API_KEY (Fulfilled None) = Fulfilled (JArr []) ∧
   generateStudyQuestions API_KEY (Fulfilled (Some "")) = Fulfilled (JArr []) ∧
   (∀ qs,
      generateStudyQuestions API_KEY
        (Fulfilled (Some (JSON_stringify (JArr (js_of_question <$> qs)))))
      = Fulfilled (JArr (js_of_question <$> qs)) ∧
      array_of_js question_of_js (JArr (js_of_question <$> qs)) = Some qs) ∧
   (∀ text, text ≠ "" → JSON_parse text = None →
      generateStudyQuestions API_KEY (Fulfilled (Some text)) = Rejected)).
Proof.
  split_and!.
  - unfold getAI. destruct API_KEY as [k|]; [|by split; [left|]].
    case_decide; subst; split; try done; [by right|by intros [|[=]]].
  - intros Hkey r. destruct (service_without_key _ Hkey) as [Hs Hq].
    by rewrite Hs, Hq.
  - intros Hkey.
    split; [intros r; by apply summarizeNote_with_key|].
    split_and!; try (intros qs; by apply generateStudyQuestions_parsed);
      unfold generateStudyQuestions;
      (destruct (getAI API_KEY) as [k|]; [|done]); try done.
    intros text Hne Hbad. unfold text_or_empty_array.
    by rewrite decide_False, Hbad.
Qed.

(** An empty key, and a key with an answer cut off. *)
Lemma gemini_service_outcomes_witness :
  generateStudyQuestions (Some "") (Fulfilled (Some "[]")) = Rejected ∧
  generateStudyQuestions (Some "k") (Fulfilled (Some "[{")) = Rejected ∧
  generateStudyQuestions (Some "k") (Fulfilled None) = Fulfilled (JArr []).
Proof.
  destruct (gemini_service_outcomes (Some "")) as (_ & Hmissing & _).
  destruct (gemini_service_outcomes (Some "k")) as (_ & _ & Hkey).
  destruct Hkey as (_ & _ & Hnone & _ & _ & Hbad); [done|].
  split_and!.
  - by apply Hmissing.
  - by apply Hbad.
  - exact Hnone.
Defined.

(** X15.  One click on "Analyze Content" without an API key: whatever the
    order in which the two calls settle, the user gets one alert for each
    call, no summary and no question are kept, the spinner is off, the
    panel is not rendered, and the entity store is untouched.  With a key
    and answers that are a text and the JSON text of questions, the panel
    shows that text and those questions. *)
Theorem analyze_outcomes (API_KEY : option string) (content : string)
    (r1 r2 : Settled (option string)) (summary_first : bool) (a : AppState) :
  (getAI API_KEY = None →
   ∃ a', analyze API_KEY content r1 r2 summary_first a = Some a' ∧
         aiSummary a' = None ∧ studyQuestions a' = [] ∧
         aiLoading a' = false ∧ panel_visible a' = false ∧
         store a' = store a ∧
         alerts a' = alerts a ++
           (if summary_first
            then ["Error generating summary."; "Error generating questions."]
            else ["Error generating questions."; "Error generating summary."])) ∧
  (getAI API_KEY ≠ None →
   ∀ text qs, text ≠ "" →
     r1 = Fulfilled (Some text) →
     r2 = Fulfilled (Some (JSON_stringify (JArr (js_of_question <$> qs)))) →
     ∃ a', analyze API_KEY content r1 r2 summary_first a = Some a' ∧
           aiSummary a' = Some text ∧ studyQuestions a' = qs ∧
           aiLoading a' = false ∧ alerts a' = alerts a ∧
           store a' = store a).
Proof.
  split.
  - intros Hnone. destruct (service_without_key _ Hnone) as [Hs Hq].
    unfold analyze. rewrite Hs, Hq. simpl.
    eexists. split; [done|].
    destruct summary_first; simpl; split_and!; try done;
      by rewrite <- app_assoc.
  - intros Hsome text qs Hne -> ->.
    destruct (generateStudyQuestions_parsed API_KEY qs Hsome)
      as [Hparse Hcast].
    unfold analyze. rewrite summarizeNote_with_key, Hparse by done.
    unfold typed_questions.
    rewrite Hcast. simpl.
    eexists. split; [done|].
    destruct summary_first; simpl; unfold summary_or_default;
      by rewrite decide_False by done.
Qed.

(** A click without a key, and one with a key and two good answers. *)
Lemma analyze_outcomes_witness :
  (∃ a', analyze None "Membranes" Rejected Rejected true idle_app = Some a' ∧
         panel_visible a' = false) ∧
  (∃ a', analyze (Some "k") "Membranes" (Fulfilled (Some "Cells."))
           (Fulfilled (Some (JSON_stringify
                               (JArr (js_of_question <$> sample_questions)))))
           false idle_app = Some a' ∧
         studyQuestions a' = sample_questions).
Proof.
  destruct (analyze_outcomes None "Membranes" Rejected Rejected true idle_app)
    as (Hmissing & _).
  destruct (analyze_outcomes (Some "k") "Membranes" (Fulfilled (Some "Cells."))
              (Fulfilled (Some (JSON_stringify
                                  (JArr (js_of_question <$> sample_questions)))))
              false idle_app) as (_ & Hkey).
  split.
  - destruct Hmissing as (a' & Ha' & _ & _ & _ & Hpanel & _); [done|].
    by exists a'.
  - destruct (Hkey ltac:(done) "Cells." sample_questions)
      as (a' & Ha' & _ & Hqs & _); [done..|].
    by exists a'.
Defined.

(** ** The backup text *)

Lemma skip_ws_idemp (s : string) : skip_ws (skip_ws s) = skip_ws s.
Proof.
  induction s as [|c s IH]; [done|]. simpl.
  destruct (is_json_ws c) eqn:Hc; [done|]. simpl. by rewrite Hc.
Qed.

Lemma skip_ws_spaces (n : nat) (s : string) :
  skip_ws (spaces n +:+ s) = skip_ws s.
Proof. induction n as [|n IH]; [done|]. simpl spaces. by rewrite string_app_cons. Qed.

Lemma skip_ws_newline (d : nat) (s : string) :
  skip_ws (newline d +:+ s) = skip_ws s.
Proof.
  unfold newline. rewrite string_app_cons.
  change (skip_ws (String "010" ?r)) with (skip_ws r).
  apply skip_ws_spaces.
Qed.

(** White space before a value, an element or a member is passed over. *)
Lemma parse_value_skip (fuel : nat) (s : string) :
  parse_value fuel (skip_ws s) = parse_value fuel s.
Proof. destruct fuel; [done|]. simpl. by rewrite skip_ws_idemp. Qed.

Lemma parse_elements_skip (fuel : nat) (s : string) (acc : list json) :
  parse_elements fuel (skip_ws s) acc = parse_elements fuel s acc.
Proof.
  destruct fuel; [done|]. by rewrite !parse_elements_unfold, parse_value_skip.
Qed.

Lemma parse_members_skip (fuel : nat) (s : string)
    (acc : list (string * json)) :
  parse_members fuel (skip_ws s) acc = parse_members fuel s acc.
Proof. destruct fuel; [done|]. simpl. by rewrite skip_ws_idemp. Qed.

Lemma parse_value_newline (fuel d : nat) (s : string) :
  parse_value fuel (newline d +:+ s) = parse_value fuel s.
Proof.
  by rewrite <- parse_value_skip, skip_ws_newline, parse_value_skip.
Qed.

Lemma parse_elements_newline (fuel d : nat) (s : string) (acc : list json) :
  parse_elements fuel (newline d +:+ s) acc = parse_elements fuel s acc.
Proof.
  by rewrite <- parse_elements_skip, skip_ws_newline, parse_elements_skip.
Qed.

Lemma parse_members_newline (fuel d : nat) (s : string)
    (acc : list (string * json)) :
  parse_members fuel (newline d +:+ s) acc = parse_members fuel s acc.
Proof.
  by rewrite <- parse_members_skip, skip_ws_newline, parse_members_skip.
Qed.

(** *** Numbers before a line feed *)

Lemma value_end_chars (rest : string) :
  value_end rest →
  match rest with
  | EmptyString => True
  | String c _ =>
      digit_of_char c = None ∧ N_of_ascii c ≠ 46%N ∧
      N_of_ascii c ≠ 101%N ∧ N_of_ascii c ≠ 69%N
  end.
Proof.
  destruct rest as [|c r]; [done|]. unfold digit_of_char. simpl.
  intros [-> | [-> | [-> | ->]]]; done.
Qed.

Lemma value_end_no_digit (rest : string) : value_end rest → no_digit_ahead rest.
Proof. intros H. by destruct rest, (value_end_chars _ H). Qed.

Lemma take_frac_value_end (rest : string) :
  value_end rest → take_frac rest = Some (None, rest).
Proof.
  intros H. destruct rest as [|c r]; [done|].
  destruct (value_end_chars _ H) as (_ & Hdot & _).
  unfold take_frac. by apply N.eqb_neq in Hdot as ->.
Qed.

Lemma take_exp_value_end (rest : string) :
  value_end rest → take_exp rest = Some (None, rest).
Proof.
  intros H. destruct rest as [|c r]; [done|].
  destruct (value_end_chars _ H) as (_ & _ & He & HE).
  unfold take_exp.
  by apply N.eqb_neq in He as ->; apply N.eqb_neq in HE as ->.
Qed.

Lemma parse_number_value_end (n : Z) (rest : string) :
  value_end rest →
  parse_number (string_of_Z n +:+ rest) = Some (JNum n, rest).
Proof.
  intros Hrest.
  destruct (number_prefix_print n rest) as (s1 & Hsign & Hint);
    [by apply value_end_no_digit|].
  unfold parse_number. rewrite Hsign, Hint. cbn [mbind option_bind].
  rewrite take_frac_value_end by done. cbn [mbind option_bind].
  rewrite take_exp_value_end by done. cbn [mbind option_bind].
  by rewrite DecimalN.Unsigned.of_to, signed_abs.
Qed.

Lemma parse_decimal_value_end (m e : Z) (rest : string) :
  value_end rest →
  parse_number (string_of_Z m +:+ "e" +:+ string_of_Z e +:+ rest)
  = Some (JDec m e, rest).
Proof.
  intros Hrest. rewrite string_app_cons, string_app_nil_l.
  destruct (number_prefix_print m (String "e" (string_of_Z e +:+ rest)))
    as (s1 & Hsign & Hint); [reflexivity|].
  unfold parse_number. rewrite Hsign, Hint. cbn [mbind option_bind].
  change (take_frac (String "e" ?r)) with (Some (@None Decimal.uint, String "e" r)).
  cbn [mbind option_bind].
  rewrite take_exp_print by (by apply value_end_no_digit).
  cbn [mbind option_bind default uint_length].
  rewrite DecimalFacts.app_nil_r, DecimalN.Unsigned.of_to, signed_abs.
  unfold id. by replace (e - Z.of_nat 0)%Z with e by lia.
Qed.

(** *** Arrays and objects over several lines *)

Lemma parse_value_array_ws (fuel : nat) (r : string) (c : ascii) (r' : string) :
  skip_ws r = String c r' → N_of_ascii c ≠ 93%N →
  parse_value (S fuel) (String "[" r) = parse_elements fuel r [].
Proof.
  intros Hskip Hc.
  change (parse_value (S fuel) (String "[" r))
    with (match skip_ws r with
          | String c' r'' =>
              if (N_of_ascii c' =? 93)%N then Some (JArr [], r'')
              else parse_elements fuel r []
          | EmptyString => None
          end).
  rewrite Hskip. by apply N.eqb_neq in Hc as ->.
Qed.

Lemma parse_value_object_ws (fuel : nat) (r : string) (c : ascii) (r' : string) :
  skip_ws r = String c r' → N_of_ascii c ≠ 125%N →
  parse_value (S fuel) (String "{" r) = parse_members fuel r [].
Proof.
  intros Hskip Hc.
  change (parse_value (S fuel) (String "{" r))
    with (match skip_ws r with
          | String c' r'' =>
              if (N_of_ascii c' =? 125)%N then Some (JObj [], r'')
              else parse_members fuel r []
          | EmptyString => None
          end).
  rewrite Hskip. by apply N.eqb_neq in Hc as ->.
Qed.

Lemma stringify_indented_arr (d : nat) (x : json) (l : list json) :
  stringify_indented d (JArr (x :: l))
  = "[" +:+ newline (S d) +:+ elements_indented (S d) (x :: l)
    +:+ newline d +:+ "]".
Proof. reflexivity. Qed.

Lemma stringify_indented_obj (d : nat) (p : string * json)
    (l : list (string * json)) :
  stringify_indented d (JObj (p :: l))
  = "{" +:+ newline (S d) +:+ members_indented (S d) (p :: l)
    +:+ newline d +:+ "}".
Proof. reflexivity. Qed.

Lemma elements_indented_cons (d : nat) (x : json) (l : list json)
    (tail : string) :
  elements_indented d (x :: l) +:+ tail
  = stringify_indented d x +:+
    match l with
    | [] => tail
    | _ => String "," (newline d +:+ elements_indented d l +:+ tail)
    end.
Proof.
  unfold elements_indented. cbn [map]. rewrite concat_cons, string_app_assoc.
  destruct l; [done|]. cbn [map]. by str_norm.
Qed.

Lemma members_indented_cons (d : nat) (k : string) (v : json)
    (l : list (string * json)) (tail : string) :
  members_indented d ((k, v) :: l) +:+ tail
  = String "034"%char (quote_body k +:+ String "034"%char (String ":" (String " " (
      stringify_indented d v +:+
      match l with
      | [] => tail
      | _ => String "," (newline d +:+ members_indented d l +:+ tail)
      end)))).
Proof.
  unfold members_indented. cbn [map]. rewrite concat_cons.
  unfold member_indented at 1, quote. cbn [fst snd].
  str_norm. destruct l; [done|]. cbn [map]. by str_norm.
Qed.

(** The first character of an indented text. *)
Lemma stringify_indented_head (d : nat) (v : json) (tail : string) :
  ∃ c r, stringify_indented d v +:+ tail = String c r ∧
         is_json_ws c = false ∧ N_of_ascii c ≠ 93%N.
Proof.
  destruct v as [| | | | |l|l];
    try (apply (JSON_stringify_head _ tail)).
  - destruct l; by eexists _, _.
  - destruct l; by eexists _, _.
Qed.

Lemma value_end_separator (d : nat) (s : string) :
  value_end (String "," s) ∧ value_end (newline d +:+ s).
Proof. split; simpl; auto. Qed.

(** With fuel above the size of the value, the parser reads back the
    indented text of a well-formed value and stops behind it. *)
Lemma parse_indented (fuel : nat) :
  (∀ v d rest, json_size v < fuel → wf_json v → value_end rest →
     parse_value fuel (stringify_indented d v +:+ rest) = Some (v, rest)) ∧
  (∀ l d d' acc rest, l ≠ [] → elements_size l < fuel → wf_elements l →
     parse_elements fuel
       (elements_indented d l +:+ newline d' +:+ String "]" rest) acc
     = Some (JArr (acc ++ l), rest)) ∧
  (∀ l d d' acc rest, l ≠ [] → members_size l < fuel → wf_members l →
     NoDup ((acc ++ l).*1) →
     parse_members fuel
       (members_indented d l +:+ newline d' +:+ String "}" rest) acc
     = Some (JObj (acc ++ l), rest)).
Proof.
  induction fuel as [|fuel (IHv & IHe & IHm)]; [split_and!; intros; lia|].
  split_and!.
  - intros v d rest Hsize Hwf Hrest.
    destruct v as [|[]|n|m e|s|l|l]; try reflexivity.
    + destruct (string_of_Z_head n rest) as (c & r & Heq & Hc).
      cbn [stringify_indented JSON_stringify]. rewrite Heq.
      destruct (number_start_dispatch c r fuel Hc) as (-> & _).
      rewrite <- Heq. by apply parse_number_value_end.
    + cbn [stringify_indented JSON_stringify]. rewrite !string_app_assoc.
      destruct (string_of_Z_head m ("e" +:+ string_of_Z e +:+ rest))
        as (c & r & Heq & Hc).
      rewrite Heq.
      destruct (number_start_dispatch c r fuel Hc) as (-> & _).
      rewrite <- Heq. by apply parse_decimal_value_end.
    + cbn [stringify_indented JSON_stringify]. unfold quote.
      rewrite string_app_cons, parse_value_string.
      rewrite string_app_assoc, string_app_cons, string_app_nil_l.
      by rewrite parse_string_body_quote.
    + destruct l as [|x l]; [reflexivity|].
      rewrite stringify_indented_arr. str_norm.
      destruct (stringify_indented_head (S d) x
                  match l with
                  | [] => newline d +:+ String "]" rest
                  | _ => String "," (newline (S d) +:+
                           elements_indented (S d) l +:+
                           newline d +:+ String "]" rest)
                  end) as (c & r & Heq & Hws & Hc).
      rewrite (parse_value_array_ws fuel _ c r);
        [|rewrite skip_ws_newline, elements_indented_cons, Heq;
          by apply skip_ws_head|done].
      rewrite parse_elements_newline.
      apply (IHe (x :: l) (S d) d []); [done| |exact Hwf].
      cbn [json_size] in Hsize. unfold elements_size. lia.
    + destruct l as [|[k x] l]; [reflexivity|].
      rewrite stringify_indented_obj. str_norm.
      rewrite (parse_value_object_ws fuel _ "034"%char
                 (quote_body k +:+ String "034"%char (String ":" (String " " (
                    stringify_indented (S d) x +:+
                    match l with
                    | [] => newline d +:+ String "}" rest
                    | _ => String "," (newline (S d) +:+
                             members_indented (S d) l +:+
                             newline d +:+ String "}" rest)
                    end)))));
        [|rewrite skip_ws_newline, members_indented_cons;
          by apply skip_ws_head|done].
      rewrite parse_members_newline.
      destruct Hwf as [Hnd Hwf].
      apply (IHm ((k, x) :: l) (S d) d []); [done| |exact Hwf|exact Hnd].
      cbn [json_size] in Hsize. unfold members_size. lia.
  - intros l d d' acc rest Hl Hsize Hwf.
    destruct l as [|x l]; [done|].
    destruct Hwf as [Hx Hwf]. cbn [elements_size foldr] in Hsize.
    fold (elements_size l) in Hsize.
    rewrite elements_indented_cons, parse_elements_unfold.
    rewrite IHv; [|lia|done|by destruct l; apply value_end_separator].
    cbn [mbind option_bind].
    destruct l as [|y l].
    + rewrite skip_ws_newline, skip_ws_head by done. reflexivity.
    + rewrite skip_ws_head by done.
      change (N_of_ascii "," =? 44)%N with true. cbv iota.
      rewrite parse_elements_newline.
      rewrite IHe; [|done|lia|done].
      by rewrite <- app_assoc.
  - intros l d d' acc rest Hl Hsize Hwf Hnd.
    destruct l as [|[k x] l]; [done|].
    destruct Hwf as [Hx Hwf]. cbn [members_size foldr snd] in Hsize.
    fold (members_size l) in Hsize.
    rewrite members_indented_cons, parse_members_unfold.
    rewrite parse_string_body_quote. cbn [mbind option_bind].
    rewrite skip_ws_head by done.
    change (N_of_ascii ":" =? 58)%N with true. cbv iota.
    rewrite <- parse_value_skip.
    change (skip_ws (String " " ?r)) with (skip_ws r).
    rewrite parse_value_skip.
    rewrite IHv; [|lia|done|by destruct l; apply value_end_separator].
    cbn [mbind option_bind].
    assert ((k ∉ acc.*1) ∧ NoDup (((acc ++ [(k, x)]) ++ l).*1)) as [Hk Hnd'].
    { rewrite <- app_assoc. split; [|done].
      rewrite fmap_app in Hnd. apply NoDup_app in Hnd as (_ & Hdisj & _).
      intros Hin. apply (Hdisj k Hin). left. }
    rewrite obj_set_fresh by done.
    destruct l as [|y l].
    + rewrite skip_ws_newline, skip_ws_head by done. reflexivity.
    + rewrite skip_ws_head by done.
      change (N_of_ascii "," =? 44)%N with true. cbv iota.
      rewrite parse_members_newline.
      rewrite IHm; [|done|lia|done|done].
      by rewrite <- app_assoc.
Qed.

Lemma concat_sep_length (sep x : string) (l : list string) :
  String.length (String.concat sep (x :: l))
  = (String.length x
     + match l with
       | [] => 0
       | _ => String.length sep + String.length (String.concat sep l)
       end)%nat.
Proof.
  rewrite concat_cons, string_app_length. destruct l; [done|].
  by rewrite string_app_length.
Qed.

(** The indented text of a value is at least as long as the value is
    large. *)
Lemma json_size_length_indented (v : json) (d : nat) :
  (json_size v ≤ String.length (stringify_indented d v))%nat.
Proof.
  revert d.
  induction v as [|[]|n|m e|s|l IH|l IH] using json_nested_ind; intros d;
    try (simpl; lia).
  - apply string_of_Z_length.
  - cbn [stringify_indented JSON_stringify json_size].
    rewrite string_app_length. pose proof (string_of_Z_length m). lia.
  - destruct l as [|x l]; [simpl; lia|].
    rewrite stringify_indented_arr. cbn [json_size].
    fold (elements_size (x :: l)).
    rewrite string_app_cons, string_app_nil_l. cbn [String.length].
    rewrite !string_app_length.
    enough (∀ l', Forall (λ v, ∀ d, json_size v ≤ String.length (stringify_indented d v))%nat l' →
                  elements_size l' ≤ S (String.length (elements_indented (S d) l')))%nat
      as Hen by (specialize (Hen _ IH); simpl String.length at 4; lia).
    clear. intros l IH.
    induction IH as [|x l Hx _ IHl]; [simpl; lia|].
    unfold elements_indented. cbn [map]. rewrite concat_sep_length.
    cbn [elements_size foldr]. fold (elements_size l).
    fold (elements_indented (S d) l). specialize (Hx (S d)).
    destruct l; cbn [map]; [simpl; lia|].
    rewrite string_app_length. simpl String.length at 2. lia.
  - destruct l as [|p l]; [simpl; lia|].
    rewrite stringify_indented_obj. cbn [json_size].
    fold (members_size (p :: l)).
    rewrite string_app_cons, string_app_nil_l. cbn [String.length].
    rewrite !string_app_length.
    enough (∀ l', Forall (λ p : string * json, ∀ d, json_size p.2 ≤ String.length (stringify_indented d p.2))%nat l' →
                  members_size l' ≤ S (String.length (members_indented (S d) l')))%nat
      as Hen by (specialize (Hen _ IH); simpl String.length at 4; lia).
    clear. intros l IH.
    induction IH as [|[k x] l Hx _ IHl]; [simpl; lia|].
    unfold members_indented. cbn [map]. rewrite concat_sep_length.
    cbn [members_size foldr]. fold (members_size l).
    fold (members_indented (S d) l). specialize (Hx (S d)).
    assert (json_size x ≤ String.length (member_indented (S d) (k, x)))%nat.
    { unfold member_indented. rewrite !string_app_length. simpl in *. lia. }
    destruct l; cbn [map snd] in *; [simpl in *; lia|].
    rewrite string_app_length. simpl String.length at 2. lia.
Qed.

(** [JSON.parse(JSON.stringify(v, null, 2))] is [v]. *)
Lemma JSON_parse_stringify_indented (v : json) :
  wf_json v → JSON_parse (stringify_indented 0 v) = Some v.
Proof.
  intros Hwf. unfold JSON_parse.
  destruct (parse_indented (S (String.length (stringify_indented 0 v))))
    as (Hv & _).
  rewrite <- (string_app_nil_r (stringify_indented 0 v)) at 2.
  rewrite Hv; [done| |done..].
  pose proof (json_size_length_indented v 0). lia.
Qed.

Lemma wf_backup_data (s : Store) : wf_json (backup_data s).
Proof.
  split; [compute_done|]. cbn [foldr snd].
  split_and!; [..|done]; apply wf_json_arr, Forall_fmap, Forall_forall;
    intros x _.
  - exact (wf_js_of_course x).
  - exact (wf_js_of_note x).
  - exact (wf_js_of_material x).
Qed.

Lemma store_of_backup_data (s : Store) : store_of_backup (backup_data s) = Some s.
Proof.
  destruct s as [cs ns ms]. unfold store_of_backup, backup_data. simpl.
  rewrite (mapM_fmap_Some _ _ cs course_of_js_of_course).
  rewrite (mapM_fmap_Some _ _ ns note_of_js_of_note).
  by rewrite (mapM_fmap_Some _ _ ms material_of_js_of_material).
Qed.

Lemma before_T_app (date time : string) :
  Forall (λ c, c ≠ "T"%char) (list_ascii_of_string date) →
  before_T (date +:+ String "T" time) = date.
Proof.
  induction date as [|c date IH]; [done|]. simpl list_ascii_of_string.
  intros [Hc Hdate]%Forall_cons. rewrite string_app_cons. simpl.
  destruct (N.eqb_spec (N_of_ascii c) 84) as [Heq|_].
  - exfalso. apply Hc. rewrite <- (ascii_N_embedding c), Heq. reflexivity.
  - by rewrite IH.
Qed.

(** X16.  The export ([exportData]): for a store whose timestamps are safe
    integers, the text of the downloaded blob,
    [JSON.stringify({courses, notes, materials}, null, 2)], parses back with
    [JSON.parse] to the object of the three arrays, from which the whole
    store is read again; and when the ISO time stamp is [date], a [T] and
    the time of day, the download is named [unisphere_backup_<date>.json]. *)
Theorem exportData_backup (date time : string) (s : Store) :
  valid_store s →
  Forall (λ c, c ≠ "T"%char) (list_ascii_of_string date) →
  let out := exportData (date +:+ "T" +:+ time) s in
  JSON_parse out.1 = Some (backup_data s) ∧
  (JSON_parse out.1 ≫= store_of_backup) = Some s ∧
  out.2 = "unisphere_backup_" +:+ date +:+ ".json".
Proof.
  intros _ Hdate out. unfold out, exportData. cbn [fst snd].
  rewrite JSON_parse_stringify_indented by apply wf_backup_data.
  split_and!; [done|apply store_of_backup_data|].
  change ("T" +:+ time) with (String "T" time). by rewrite before_T_app.
Qed.

(** [sample_store] exported on 1 November 2026. *)
Lemma exportData_backup_witness :
  let out := exportData "2026-11-01T10:00:00.000Z" sample_store in
  JSON_parse out.1 = Some (backup_data sample_store) ∧
  (JSON_parse out.1 ≫= store_of_backup) = Some sample_store ∧
  out.2 = "unisphere_backup_2026-11-01.json".
Proof.
  apply (exportData_backup "2026-11-01" "10:00:00.000Z" sample_store).
  - compute_done.
  - repeat constructor; discriminate.
Defined.

(** ** Editing and reordering *)

Lemma positions_from_fmap {A : Type} (P : A → Prop) `{!∀ x, Decision (P x)}
    (f : A → A) (l : list A) (o : nat) :
  (∀ x, P (f x) ↔ P x) →
  positions_from P o (f <$> l) = positions_from P o l.
Proof.
  intros Hf. revert o. induction l as [|x l IH]; intros o; [done|].
  cbn [fmap list_fmap positions_from]. rewrite IH.
  destruct (decide (P (f x))) as [Hfx|Hfx], (decide (P x)) as [Hx|Hx];
    try done; exfalso; rewrite Hf in Hfx; tauto.
Qed.

Lemma slot_get_fmap {A : Type} (f : A → A) (arr : list (option A))
    (k : option nat) :
  slot_get (fmap (M:=option) f <$> arr) k = f <$> slot_get arr k.
Proof.
  destruct k as [i|]; [|done]. simpl. rewrite list_lookup_fmap.
  by destruct (arr !! i) as [[x|]|].
Qed.

Lemma slot_set_fmap {A : Type} (f : A → A) (arr : list (option A))
    (k : option nat) (v : option A) :
  slot_set (fmap (M:=option) f <$> arr) k (f <$> v)
  = fmap (M:=option) f <$> slot_set arr k v.
Proof.
  destruct k as [i|]; [|done]. unfold slot_set. rewrite length_fmap.
  case_decide.
  - by rewrite list_fmap_insert.
  - rewrite !fmap_app, fmap_replicate. done.
Qed.

(** A move sees only the [courseId] of the notes: it commutes with any
    change of the notes that keeps their [courseId]. *)
Lemma handleMoveNote_fmap (f : Note.t → Note.t) (sel : option string)
    (rel : Z) (dir : Direction) (l : list Note.t) :
  (∀ n, Note.courseId (f n) = Note.courseId n) →
  handleMoveNote sel rel dir (f <$> l)
  = fmap (M:=option) f <$> handleMoveNote sel rel dir l.
Proof.
  intros Hf.
  assert (Some <$> (f <$> l) = fmap (M:=option) f <$> (Some <$> l)) as Hsome.
  { rewrite <- !list_fmap_compose. by apply list_fmap_ext. }
  assert (courseNotesIndices sel (f <$> l) = courseNotesIndices sel l) as Hidx.
  { rewrite !courseNotesIndices_positions. apply positions_from_fmap.
    intros n. unfold in_course. by rewrite Hf. }
  rewrite !handleMoveNote_target, Hidx.
  destruct (at_index (courseNotesIndices sel l) (target_index rel dir))
    as [t|]; [|done].
  by rewrite Hsome, !slot_get_fmap, !slot_set_fmap.
Qed.

(** X17.  Editing a note and reordering commute: a move from a position of
    the course gives, after an edit, the sequence that the edit gives after
    the move; the edit changes no position and the move no content. *)
Theorem handleMoveNote_after_edit (s : Store) (a : Note.t)
    (sel' uuid title content : string) (now : Z)
    (sel : option string) (rel : Z) (dir : Direction) :
  (0 ≤ rel < course_size sel (notes s))%Z →
  let edit := handleSaveNote (Some a) sel' uuid title content now in
  ∃ moved,
    handleMoveNote sel rel dir (notes s) = Some <$> moved ∧
    handleMoveNote sel rel dir (notes (edit s))
      = Some <$> notes (edit (mkStore (courses s) moved (materials s))) ∧
    courseNotesIndices sel (notes (edit s)) = courseNotesIndices sel (notes s).
Proof.
  intros Hrel edit.
  set (f := λ n : Note.t, if decide (Note.id n = Note.id a)
                          then Note.with_body n title content now else n).
  assert (Hf : ∀ n, Note.courseId (f n) = Note.courseId n).
  { intros n. unfold f. by case_decide. }
  destruct (handleMoveNote_cases sel rel dir (notes s))
    as [Hsame|[(i & j & ni & nj & _ & _ & Hswap)|(Hout & _)]];
    [| |by unfold course_size in Hrel].
  - exists (notes s). split; [done|].
    unfold edit. simpl. fold f. split.
    + rewrite handleMoveNote_fmap, Hsame by done.
      rewrite <- !list_fmap_compose. by apply list_fmap_ext.
    + rewrite !courseNotesIndices_positions. apply positions_from_fmap.
      intros n. unfold in_course. by rewrite Hf.
  - exists (<[j := ni]> (<[i := nj]> (notes s))). split; [done|].
    unfold edit. simpl. fold f. split.
    + rewrite handleMoveNote_fmap, Hswap by done.
      rewrite <- !list_fmap_compose. by apply list_fmap_ext.
    + rewrite !courseNotesIndices_positions. apply positions_from_fmap.
      intros n. unfold in_course. by rewrite Hf.
Qed.

(** N2 edited and moved up in [sample_store]. *)
Lemma handleMoveNote_after_edit_witness :
  ∃ moved,
    handleMoveNote (Some "A") 1 up (notes sample_store) = Some <$> moved ∧
    handleMoveNote (Some "A") 1 up
      (notes (handleSaveNote (Some N2) "A" "" "Genes" "DNA" 5000 sample_store))
    = Some <$> notes (handleSaveNote (Some N2) "A" "" "Genes" "DNA" 5000
                        (mkStore (courses sample_store) moved
                                 (materials sample_store))) ∧
    courseNotesIndices (Some "A")
      (notes (handleSaveNote (Some N2) "A" "" "Genes" "DNA" 5000 sample_store))
    = courseNotesIndices (Some "A") (notes sample_store).
Proof.
  apply (handleMoveNote_after_edit sample_store N2 "A" "" "Genes" "DNA" 5000
           (Some "A") 1 up).
  compute_done.
Defined.

(** ** A move from any subscript *)

(** C3 (as amended).  For every note sequence, every direction and every
    integer subscript other than the two next to the list of the course
    (the number of its notes with the direction up, and [-1] with the
    direction down, when the course has a note), a move leaves the same
    notes: the sequence is unchanged or two of its notes are exchanged, and
    no slot holds [undefined].  The subscripts of the rendered notes, the
    ones the buttons pass, are among them. *)
Theorem handleMoveNote_keeps_notes (sel : option string) (rel : Z)
    (dir : Direction) (l : list Note.t) :
  let n := course_size sel l in
  ¬ ((0 < n)%Z ∧ (rel = n ∧ dir = up ∨ rel = (-1)%Z ∧ dir = down)) →
  ∃ l', handleMoveNote sel rel dir l = Some <$> l' ∧
        defined_notes (handleMoveNote sel rel dir l) = Some l' ∧
        (l' = l ∨
         ∃ i j ni nj, l !! i = Some ni ∧ l !! j = Some nj ∧
                      l' = <[j := ni]> (<[i := nj]> l)) ∧
        l' ≡ₚ l.
Proof.
  intros n Hedge.
  destruct (at_index (courseNotesIndices sel l) (target_index rel dir))
    as [j|] eqn:Hj.
  2:{ exists l. rewrite handleMoveNote_target, Hj, defined_notes_all.
      split_and!; [done|done|by left|done]. }
  apply at_index_Some_range in Hj as Ht.
  rewrite courseNotesIndices_length in Ht. fold n in Ht.
  destruct (decide (0 ≤ rel < n)%Z) as [Hrel|Hrel].
  - destruct (handleMoveNote_in_range sel rel dir l Hrel Ht)
      as (i & j' & ni & nj & _ & _ & Hi & Hj' & _ & _ & ->).
    exists (<[j' := ni]> (<[i := nj]> l)). rewrite defined_notes_all.
    split_and!; [done|done| |by eapply swap_Permutation].
    right. by exists i, j', ni, nj.
  - exfalso. apply Hedge. unfold target_index in Ht.
    destruct dir; (split; [lia|]).
    + left. split; [lia|done].
    + right. split; [lia|done].
Qed.

(** A rendered note of [sample_store] moved down, and a subscript far from
    the list. *)
Lemma handleMoveNote_keeps_notes_witness :
  (∃ l', defined_notes (handleMoveNote (Some "A") 1 down [N1; NB; N2; N3])
           = Some l' ∧ l' ≡ₚ [N1; NB; N2; N3]) ∧
  (∃ l', defined_notes (handleMoveNote (Some "A") 7 up [N1; NB; N2; N3])
           = Some l' ∧ l' ≡ₚ [N1; NB; N2; N3]).
Proof.
  split.
  - destruct (handleMoveNote_keeps_notes (Some "A") 1 down [N1; NB; N2; N3])
      as (l' & _ & Hdef & _ & Hperm).
    + vm_compute. intros (_ & [[? _]|[? _]]); discriminate.
    + by exists l'.
  - destruct (handleMoveNote_keeps_notes (Some "A") 7 up [N1; NB; N2; N3])
      as (l' & _ & Hdef & _ & Hperm).
    + vm_compute. intros (_ & [[? _]|[? _]]); discriminate.
    + by exists l'.
Defined.

(** ** The course search on every string *)

Section Utf16Search.
Import Utf16.







(** The relation fixes the result. *)
Lemma exactly_those_unique {A : Type} (P : A → Prop) (l l1 l2 : list A) :
  exactly_those P l l1 → exactly_those P l l2 → l1 = l2.
Proof.
  intros H1. revert l2.
  induction H1 as [|x l l1 Hx _ IH|x l l1 Hx _ IH]; intros l2 H2;
    inversion H2; subst; try done; try (f_equal; by apply IH);
    by apply IH.
Qed.

Lemma exactly_those_sublist {A : Type} (P : A → Prop) (l l' : list A) :
  exactly_those P l l' →
  l' `sublist_of` l ∧ ∀ x, x ∈ l' ↔ x ∈ l ∧ P x.
Proof.
  induction 1 as [|x l l' Hx _ [IHs IHe]|x l l' Hx _ [IHs IHe]].
  - split; [done|]. intros x. rewrite elem_of_nil. tauto.
  - split; [by constructor|]. intros y. rewrite !elem_of_cons, IHe.
    split; [intros [->|[? ?]]; auto|tauto].
  - split; [by constructor|]. intros y. rewrite elem_of_cons, IHe.
    split; [tauto|]. intros [[->|?] ?]; [done|tauto].
Qed.

Variable toLowerCase : jsstring → jsstring.
Hypothesis toLowerCase_empty : toLowerCase [] = [].
Hypothesis toLowerCase_trim :
  ∀ s, toLowerCase (trim s) = trim (toLowerCase s).


End Utf16Search.

(** *** The mapping of Latin-1 text *)







(** *** The search on Latin-1 text

    On texts of code units below 256 the case mapping works unit by unit,
    and the search of [Utf16] with that mapping is the search on
    [string]. *)

Lemma units_cons (c : ascii) (s : string) :
  Utf16.units (String c s) = N_of_ascii c :: Utf16.units s.
Proof. reflexivity. Qed.

Lemma units_nil (s : string) : Utf16.units s = [] ↔ s = "".
Proof. by destruct s. Qed.

Lemma units_lower_char (c : ascii) :
  Utf16.lower_unit (N_of_ascii c) = N_of_ascii (lower_char c).
Proof. destruct c as [[] [] [] [] [] [] [] []]; reflexivity. Qed.

Lemma units_is_white (c : ascii) :
  Utf16.is_white (N_of_ascii c) = is_white c.
Proof. destruct c as [[] [] [] [] [] [] [] []]; reflexivity. Qed.

Lemma N_of_ascii_inj (a b : ascii) : N_of_ascii a = N_of_ascii b → a = b.
Proof.
  intros H. by rewrite <- (ascii_N_embedding a), <- (ascii_N_embedding b), H.
Qed.

Lemma units_toLowerCase (s : string) :
  Utf16.units (toLowerCase s) = Utf16.latin1_lower (Utf16.units s).
Proof.
  induction s as [|c s IH]; [done|]. cbn [toLowerCase].
  rewrite !units_cons. unfold Utf16.latin1_lower. cbn [fmap list_fmap].
  by rewrite units_lower_char, IH.
Qed.

Lemma units_trimStart (s : string) :
  Utf16.units (trimStart s) = Utf16.trimStart (Utf16.units s).
Proof.
  induction s as [|c s IH]; [done|]. rewrite units_cons.
  cbn [trimStart Utf16.trimStart]. rewrite units_is_white.
  by destruct (is_white c).
Qed.

Lemma units_trimEnd (s : string) :
  Utf16.units (trimEnd s) = Utf16.trimEnd (Utf16.units s).
Proof.
  induction s as [|c s IH]; [done|]. rewrite units_cons.
  cbn [trimEnd Utf16.trimEnd]. rewrite <- IH, units_is_white.
  destruct (trimEnd s) as [|x r]; [by destruct (is_white c)|done].
Qed.

Lemma units_trim (s : string) :
  Utf16.units (trim s) = Utf16.trim (Utf16.units s).
Proof. unfold trim, Utf16.trim. by rewrite units_trimEnd, units_trimStart. Qed.

Lemma units_startsWith (t s : string) :
  Utf16.startsWith (Utf16.units t) (Utf16.units s) = startsWith t s.
Proof.
  revert s. induction t as [|a t IH]; intros s; [done|].
  destruct s as [|b s]; [done|]. rewrite !units_cons.
  cbn [Utf16.startsWith startsWith]. rewrite IH. f_equal.
  apply bool_decide_ext. split; [apply N_of_ascii_inj|by intros ->].
Qed.

Lemma units_includes (s t : string) :
  Utf16.includes (Utf16.units s) (Utf16.units t) = includes s t.
Proof.
  induction s as [|c s IH].
  - cbn [Utf16.includes includes]. change (Utf16.units "") with (@nil N).
    by rewrite <- (units_startsWith t "").
  - rewrite units_cons. cbn [Utf16.includes includes].
    by rewrite <- units_cons, units_startsWith, IH.
Qed.

(** The search of [Utf16] with the mapping of Latin-1 text is
    [filteredCourses] on [string]. *)
Lemma filteredCourses_latin1 (q : string) (cs : list Course.t) :
  Utf16.filteredCourses Utf16.latin1_lower (Utf16.units q)
    (Utf16.of_course <$> cs)
  = Utf16.of_course <$> filteredCourses q cs.
Proof.
  unfold Utf16.filteredCourses, filteredCourses.
  rewrite <- units_toLowerCase, <- units_trim.
  destruct (decide (trim (toLowerCase q) = "")) as [Hq|Hq].
  - rewrite decide_True; [done|]. by apply units_nil.
  - rewrite decide_False by (by rewrite units_nil).
    induction cs as [|c cs IH]; [done|].
    rewrite fmap_cons, !filter_cons. cbn [Utf16.name Utf16.description Utf16.of_course].
    rewrite <- !units_toLowerCase, !units_includes, IH.
    by case_decide.
Qed.

(** Where the case mapping works unit by unit, comparing the lower-cased
    texts is finding a part of the text that is the query up to case.  A
    mapping that looks at the context of a letter need not have this
    property; the search compares the lower-cased texts. *)
Lemma contains_ci_unitwise (f : N → N) (s q : Utf16.jsstring) :
  Utf16.contains_ci (fmap f) s q ↔
  ∃ pre mid post, s = pre ++ mid ++ post ∧ f <$> mid = f <$> q.
Proof.
  unfold Utf16.contains_ci, Utf16.contains. split.
  - intros (a & b & Heq).
    apply fmap_app_inv in Heq as (pre & rest & -> & Hrest & ->).
    symmetry in Hrest.
    apply fmap_app_inv in Hrest as (mid & post & Hmid & -> & ->).
    by exists pre, mid, post.
  - intros (pre & mid & post & -> & Hmid).
    exists (f <$> pre), (f <$> post). by rewrite !fmap_app, Hmid.
Qed.
